(** * IIIF manifest -> CSL-JSON -> Zotero item: a shallow embedding

    The development follows the source files of the conversion:
    - [iiif_to_csl_core_1_1_0_fruittimer.js]: label normalisation, metadata
      lookup, the field extractors, [manifestToCSLItem] and the retrieval
      loop [iiifManifestUrlsToCSL];
    - [iiif_to_zotero_local_cli_0_2_0.js]: the CSL -> Zotero mapping, the
      command line and [main];
    - the CSL command-line tool (version 1.0.7): the command line and
      [main];
    - the browser wrapper (version 1.0.9), also in the bundle
      [iiif_to_csl_browser_1_0_9.bundle.js];
    - [iiif_to_csl_sniffer_0_2_0_dl.js]: the candidates of a page, their
      deduplication and the conversion of what was found.

    Part I holds the definitions (JavaScript strings, a backtracking matcher
    for the regular expressions of the source, JSON values, the functions of
    the source), Part II the lemmas and the theorems about the conversion
    core and the mapping, Part III further properties of the code. *)

From Stdlib Require Import String Ascii List Bool Arith ZArith Lia DecimalString.
Import ListNotations.
Open Scope string_scope.
Open Scope list_scope.

(* ================================================================= *)
(** * Part I. Definitions *)
(* ================================================================= *)

(** ** JavaScript strings

    A string is a sequence of code units; the model keeps the code units
    U+0000..U+00FF, one [ascii] each.  On these, [trim], [toLowerCase] and
    the character classes below are the ones of ECMAScript. *)

Module JsString.

(** WhiteSpace and LineTerminator code units below U+0100: TAB, LF, VT, FF,
    CR, SPACE and NO-BREAK SPACE.  [String.prototype.trim] and the class
    [\s] use the same set. *)
Definition isWhiteSpace (c : ascii) : bool :=
  let n := nat_of_ascii c in
  (Nat.leb 9 n && Nat.leb n 13) || Nat.eqb n 32 || Nat.eqb n 160.

Definition isDigit (c : ascii) : bool :=
  let n := nat_of_ascii c in Nat.leb 48 n && Nat.leb n 57.

(** The class [\w]: ASCII letters, digits and underscore. *)
Definition isWordChar (c : ascii) : bool :=
  let n := nat_of_ascii c in
  (Nat.leb 65 n && Nat.leb n 90) || (Nat.leb 97 n && Nat.leb n 122)
  || isDigit c || Nat.eqb n 95.

Fixpoint trimStart (s : string) : string :=
  match s with
  | EmptyString => EmptyString
  | String c s' => if isWhiteSpace c then trimStart s' else s
  end.

Fixpoint trimEnd (s : string) : string :=
  match s with
  | EmptyString => EmptyString
  | String c s' =>
      match trimEnd s' with
      | EmptyString => if isWhiteSpace c then EmptyString else String c EmptyString
      | t => String c t
      end
  end.

Definition trim (s : string) : string := trimEnd (trimStart s).

(** [toLowerCase] on one code unit: A-Z, and the Latin-1 capitals
    U+00C0..U+00DE without the multiplication sign U+00D7. *)
Definition lowerChar (c : ascii) : ascii :=
  let n := nat_of_ascii c in
  if (Nat.leb 65 n && Nat.leb n 90)
     || (Nat.leb 192 n && Nat.leb n 222 && negb (Nat.eqb n 215))
  then ascii_of_nat (n + 32) else c.

Fixpoint toLowerCase (s : string) : string :=
  match s with
  | EmptyString => EmptyString
  | String c s' => String (lowerChar c) (toLowerCase s')
  end.

Fixpoint startsWith (p s : string) : bool :=
  match p, s with
  | EmptyString, _ => true
  | String a p', String b s' => Ascii.eqb a b && startsWith p' s'
  | String _ _, EmptyString => false
  end.

Fixpoint drop (n : nat) (s : string) : string :=
  match n, s with
  | 0, _ => s
  | S n', String _ s' => drop n' s'
  | S _, EmptyString => EmptyString
  end.

Fixpoint take (n : nat) (s : string) : string :=
  match n, s with
  | 0, _ => EmptyString
  | S n', String c s' => String c (take n' s')
  | S _, EmptyString => EmptyString
  end.

(** [Array.prototype.join] on an array of strings. *)
Fixpoint join (sep : string) (l : list string) : string :=
  match l with
  | [] => EmptyString
  | [x] => x
  | x :: l' => x ++ sep ++ join sep l'
  end.

(** [s.split(sep)] for a separator of one code unit. *)
Fixpoint splitChar (sep : ascii) (s : string) : list string :=
  match s with
  | EmptyString => [EmptyString]
  | String c s' =>
      if Ascii.eqb c sep then EmptyString :: splitChar sep s'
      else match splitChar sep s' with
           | [] => [String c EmptyString]
           | p :: ps => String c p :: ps
           end
  end.

Fixpoint repeatChar (c : ascii) (n : nat) : string :=
  match n with 0 => EmptyString | S n' => String c (repeatChar c n') end.

(** [s.padStart(n, c)] for a filler of one code unit. *)
Definition padStart (n : nat) (c : ascii) (s : string) : string :=
  repeatChar c (n - String.length s) ++ s.

Definition nonEmpty (s : string) : bool :=
  match s with EmptyString => false | _ => true end.

Fixpoint revOnto (s acc : string) : string :=
  match s with
  | EmptyString => acc
  | String c s' => revOnto s' (String c acc)
  end.

Definition rev (s : string) : string := revOnto s EmptyString.

Fixpoint allChars (f : ascii -> bool) (s : string) : bool :=
  match s with
  | EmptyString => true
  | String c s' => f c && allChars f s'
  end.

End JsString.
Import JsString.

(** ** Regular expressions

    The regular expressions of the source are kept as syntax trees and run by
    a backtracking matcher in continuation-passing style, which tries the
    alternatives in the order ECMAScript does: the left branch of [|] first,
    one more iteration of a greedy quantifier before leaving it, and an
    iteration that matches the empty string is not taken. *)

Module Regex.

Inductive regex : Type :=
| REmpty
| RClass (f : ascii -> bool)
| RSeq (a b : regex)
| RAlt (a b : regex)
| RStar (a : regex)
| RNotAhead (a : regex)
| RStart
| REnd
| RWordBoundary.

(** A continuation receives the code unit before the position (none at
    index 0) and the rest of the input, and gives the rest of the input at
    the end of the whole match. *)
Definition cont : Type := option ascii -> string -> option string.

Definition done : cont := fun _ rest => Some rest.

Fixpoint star_loop (step : option ascii -> string -> cont -> option string)
    (n : nat) (prev : option ascii) (s : string) (k : cont) : option string :=
  match n with
  | 0 => k prev s
  | S n' =>
      match step prev s
              (fun p' s' =>
                 if Nat.ltb (String.length s') (String.length s)
                 then star_loop step n' p' s' k else None) with
      | Some r => Some r
      | None => k prev s
      end
  end.

Definition isWordBefore (prev : option ascii) : bool :=
  match prev with Some c => isWordChar c | None => false end.

Definition isWordAt (s : string) : bool :=
  match s with String c _ => isWordChar c | EmptyString => false end.

Fixpoint rmatch (r : regex) (prev : option ascii) (s : string) (k : cont)
    {struct r} : option string :=
  match r with
  | REmpty => k prev s
  | RClass f =>
      match s with
      | String c s' => if f c then k (Some c) s' else None
      | EmptyString => None
      end
  | RSeq a b => rmatch a prev s (fun p' s' => rmatch b p' s' k)
  | RAlt a b =>
      match rmatch a prev s k with
      | Some r => Some r
      | None => rmatch b prev s k
      end
  | RStar a => star_loop (rmatch a) (String.length s) prev s k
  | RNotAhead a =>
      match rmatch a prev s done with
      | Some _ => None
      | None => k prev s
      end
  | RStart => match prev with None => k prev s | Some _ => None end
  | REnd => match s with EmptyString => k prev s | String _ _ => None end
  | RWordBoundary =>
      if xorb (isWordBefore prev) (isWordAt s) then k prev s else None
  end.

(** The code unit before the position reached after reading [w]. *)
Fixpoint prevAfter (prev : option ascii) (w : string) : option ascii :=
  match w with
  | EmptyString => prev
  | String c w' => prevAfter (Some c) w'
  end.

Definition RPlus (a : regex) : regex := RSeq a (RStar a).
Definition ROpt (a : regex) : regex := RAlt a REmpty.
Definition RChar (c : ascii) : regex := RClass (Ascii.eqb c).

(** A literal word, and the same under the [i] flag (the words of the source
    are ASCII letters, which only their two ASCII cases match). *)
Fixpoint lit (w : string) : regex :=
  match w with
  | EmptyString => REmpty
  | String c w' => RSeq (RChar c) (lit w')
  end.

Fixpoint lit_i (w : string) : regex :=
  match w with
  | EmptyString => REmpty
  | String c w' =>
      RSeq (RClass (fun x => Ascii.eqb (lowerChar x) (lowerChar c))) (lit_i w')
  end.

(** The match that starts at the current position, as the text matched. *)
Definition match_here (r : regex) (prev : option ascii) (s : string)
  : option string :=
  match rmatch r prev s done with
  | Some rest => Some (take (String.length s - String.length rest) s)
  | None => None
  end.

(** [RegExp.prototype.exec] without the [g] and [y] flags: the first index,
    from 0 to the length of the input, at which a match starts. *)
Fixpoint exec_from (r : regex) (prev : option ascii) (s : string)
  : option string :=
  match match_here r prev s with
  | Some m => Some m
  | None =>
      match s with
      | EmptyString => None
      | String c s' => exec_from r (Some c) s'
      end
  end.

Definition exec (r : regex) (s : string) : option string := exec_from r None s.

Definition test (r : regex) (s : string) : bool :=
  match exec r s with Some _ => true | None => false end.

(** [String.prototype.split] with a regular expression without capture
    groups.  [cur] holds, reversed, the code units since the end of the last
    separator; [skip] counts the code units of a separator still to pass. *)
Fixpoint split_go (r : regex) (prev : option ascii) (s : string)
    (skip : nat) (cur : string) : list string :=
  match s with
  | EmptyString => [rev cur]
  | String c s' =>
      match skip with
      | S n => split_go r (Some c) s' n cur
      | 0 =>
          match match_here r prev s with
          | None => split_go r (Some c) s' 0 (String c cur)
          | Some EmptyString =>
              match cur with
              | EmptyString => split_go r (Some c) s' 0 (String c cur)
              | _ => rev cur :: split_go r (Some c) s' 0 (String c EmptyString)
              end
          | Some (String _ m) =>
              rev cur :: split_go r (Some c) s' (String.length m) EmptyString
          end
      end
  end.

Definition split (r : regex) (s : string) : list string :=
  match s with
  | EmptyString =>
      match match_here r None s with Some _ => [] | None => [EmptyString] end
  | _ => split_go r None s 0 EmptyString
  end.

End Regex.
Import Regex.

(** ** JavaScript values

    A manifest is whatever [JSON.parse] returned, a CSL item is a JSON value
    too (read from a file or built by [manifestToCSLItem]).  [JUndefined] is
    what reading a missing property gives.  A number is kept as the string
    [Number.prototype.toString] gives for it: the program only converts
    numbers to strings and tests them for truth.  [JBuiltin k] is the value of
    [Object.prototype[k]], which a read of a property that an object does not
    own falls back to.  The properties of an object are listed in the order
    [for ... in] enumerates them. *)

#[warnings="-register-all"]
Inductive value : Type :=
| JUndefined
| JNull
| JBool (b : bool)
| JNum (repr : string)
| JStr (s : string)
| JArr (items : list value)
| JObj (props : list (string * value))
| JBuiltin (name : string).

Inductive error : Type :=
| TypeError.

Inductive result (A : Type) : Type :=
| Ok (a : A)
| Throw (e : error).

Arguments Ok {A} a.
Arguments Throw {A} e.

Definition bind {A B : Type} (r : result A) (f : A -> result B) : result B :=
  match r with
  | Ok a => f a
  | Throw e => Throw e
  end.

Notation "x <- c1 ;; c2" := (bind c1 (fun x => c2))
  (at level 61, c1 at next level, right associativity).

Definition Object_prototype_names : list string :=
  [ "constructor"; "__defineGetter__"; "__defineSetter__"; "hasOwnProperty";
    "__lookupGetter__"; "__lookupSetter__"; "isPrototypeOf";
    "propertyIsEnumerable"; "toString"; "valueOf"; "__proto__";
    "toLocaleString" ].

Definition Object_prototype_get (k : string) : value :=
  if existsb (String.eqb k) Object_prototype_names then JBuiltin k
  else JUndefined.

Fixpoint own (props : list (string * value)) (k : string) : option value :=
  match props with
  | [] => None
  | (k', v) :: rest => if String.eqb k' k then Some v else own rest k
  end.

Definition hasOwn (props : list (string * value)) (k : string) : bool :=
  match own props k with Some _ => true | None => false end.

Fixpoint dedup (l : list string) : list string :=
  match l with
  | [] => []
  | x :: l' => x :: filter (fun y => negb (String.eqb x y)) (dedup l')
  end.

(** The keys [for (k in o)] visits. *)
Definition own_keys (props : list (string * value)) : list string :=
  dedup (map fst props).

(** The [length] of an array or of a string, as a number. *)
Definition arrayLength (n : nat) : value :=
  JNum (DecimalString.NilZero.string_of_uint (Nat.to_uint n)).

(** [o[k]] and [o.k].  Reading a property of [undefined] or [null] throws;
    an object answers with its own property or with the one of
    [Object.prototype]; the names the program reads on strings, arrays,
    numbers and booleans are none of theirs, except [length]. *)
Definition get (o : value) (k : string) : result value :=
  match o with
  | JUndefined | JNull => Throw TypeError
  | JObj props =>
      Ok (match own props k with
          | Some v => v
          | None => Object_prototype_get k
          end)
  | JArr l => Ok (if String.eqb k "length" then arrayLength (List.length l)
                  else JUndefined)
  | JStr s => Ok (if String.eqb k "length" then arrayLength (String.length s)
                  else JUndefined)
  | _ => Ok JUndefined
  end.

(** ToBoolean. *)
Definition truthy (v : value) : bool :=
  match v with
  | JUndefined | JNull => false
  | JBool b => b
  | JNum r => negb (String.eqb r "0" || String.eqb r "NaN")
  | JStr s => nonEmpty s
  | JArr _ | JObj _ | JBuiltin _ => true
  end.

(** [a || b], both already evaluated. *)
Definition js_or (a b : value) : value := if truthy a then a else b.

(** [typeof v === "object"]. *)
Definition typeof_object (v : value) : bool :=
  match v with
  | JNull | JArr _ | JObj _ => true
  | JBuiltin n => String.eqb n "__proto__"
  | _ => false
  end.

Definition typeof_string (v : value) : bool :=
  match v with JStr _ => true | _ => false end.

Definition isArray (v : value) : bool :=
  match v with JArr _ => true | _ => false end.

(** [v != null]. *)
Definition notNullish (v : value) : bool :=
  match v with JUndefined | JNull => false | _ => true end.

(** [k in o] for an [o] with [typeof o === "object"] that is not [null]. *)
Definition js_in (k : string) (o : value) : bool :=
  match o with
  | JObj props => hasOwn props k || existsb (String.eqb k) Object_prototype_names
  | _ => false
  end.

Fixpoint mapM {A B : Type} (f : A -> result B) (l : list A) : result (list B) :=
  match l with
  | [] => Ok []
  | x :: l' =>
      y <- f x ;;
      ys <- mapM f l' ;;
      Ok (y :: ys)
  end.

(** The string of an element inside [Array.prototype.join]. *)
Definition elementString (toString : value -> result string) (x : value)
  : result string :=
  match x with
  | JUndefined | JNull => Ok ""
  | _ => toString x
  end.

(** ToString, which is what [String(v)] and a template literal apply.  An
    array joins the strings of its elements with commas, [null] and
    [undefined] elements giving the empty string; an object that came out of
    [JSON.parse] prints as [[object Object]] unless it owns a [toString]
    property, which is then not callable and makes the conversion throw. *)
Fixpoint ToString (v : value) : result string :=
  match v with
  | JUndefined => Ok "undefined"
  | JNull => Ok "null"
  | JBool true => Ok "true"
  | JBool false => Ok "false"
  | JNum r => Ok r
  | JStr s => Ok s
  | JArr l =>
      ss <- mapM (elementString ToString) l ;;
      Ok (join "," ss)
  | JObj props =>
      if hasOwn props "toString" then Throw TypeError
      else Ok "[object Object]"
  | JBuiltin n =>
      if String.eqb n "__proto__" then Ok "[object Object]"
      else Ok ("function " ++ n ++ "() { [native code] }")%string
  end.

(** No object anywhere in the value owns a [toString] property. *)
Fixpoint plain (v : value) : bool :=
  match v with
  | JArr l => forallb plain l
  | JObj props =>
      negb (hasOwn props "toString")
      && forallb (fun p => plain (snd p)) props
  | _ => true
  end.

(** The elements [for (const x of v)] visits: those of an array, the code
    units of a string; no other value of the model is iterable. *)
Fixpoint chars (s : string) : list value :=
  match s with
  | EmptyString => []
  | String c s' => JStr (String c EmptyString) :: chars s'
  end.

Definition iterate (v : value) : result (list value) :=
  match v with
  | JArr l => Ok l
  | JStr s => Ok (chars s)
  | _ => Throw TypeError
  end.

(** ** The platform

    What the program calls and does not define: the [URL] class, [JSON.parse],
    the conversion of a string to a number, and [fetch].  A [World] is the
    state of the network; a request answers from it and changes it. *)

Inductive Response : Type :=
| NetworkFailure
| HttpResponse (ok : bool) (status : nat) (text : string).

Class Platform : Type := {
  URL : Type;
  URL_new : string -> option URL;
  URL_pathname : URL -> string;
  URL_set_search : URL -> string -> URL;
  URL_set_hash : URL -> string -> URL;
  URL_set_pathname : URL -> string -> URL;
  URL_toString : URL -> string;
  JSON_parse : string -> option value;
  StringToNumber_positive : string -> bool;
  World : Type;
  fetch : string -> World -> Response * World
}.

(** ** iiif_to_csl_core_1_1_0_fruittimer.js *)

Definition RE_IIIF : regex := lit "iiif.io".

Definition looksLikeIIIFManifest (text : string) : bool :=
  if negb (nonEmpty text) then false else test RE_IIIF text.

(** The inner loop of the language-map branch: [if (v) pieces.push(String(v))]. *)
Fixpoint push_truthy (vals : list value) (pieces : list string)
  : result (list string) :=
  match vals with
  | [] => Ok pieces
  | v :: vs =>
      if truthy v
      then s <- ToString v ;; push_truthy vs (pieces ++ [s])
      else push_truthy vs pieces
  end.

Fixpoint lang_loop (label : value) (langs : list string) (pieces : list string)
  : result (list string) :=
  match langs with
  | [] => Ok pieces
  | lang :: rest =>
      vals <- get label lang ;;
      match vals with
      | JArr l => pieces' <- push_truthy l pieces ;; lang_loop label rest pieces'
      | _ => lang_loop label rest pieces
      end
  end.

(** The loop of the array branch. *)
Fixpoint item_loop (items : list value) (pieces : list string)
  : result (list string) :=
  match items with
  | [] => Ok pieces
  | item :: rest =>
      if truthy item && typeof_object item && js_in "@value" item then
        v <- get item "@value" ;;
        s <- ToString v ;;
        item_loop rest (pieces ++ [s])
      else if notNullish item then
        s <- ToString item ;;
        item_loop rest (pieces ++ [s])
      else item_loop rest pieces
  end.

Definition iiifLabelToString (label : value) : result string :=
  if negb (truthy label) then Ok ""
  else if typeof_object label && negb (isArray label) then
    pieces <- lang_loop label
                (match label with JObj props => own_keys props | _ => [] end) [] ;;
    Ok (trim (join " " pieces))
  else match label with
       | JArr items =>
           pieces <- item_loop items [] ;;
           Ok (trim (join " " pieces))
       | JStr s => Ok (trim s)
       | _ => s <- ToString label ;; Ok (trim s)
       end.

(** [e.k || e["k"]]: the property is read again when its value is falsy. *)
Definition prop (e : value) (k : string) : result value :=
  a <- get e k ;;
  if truthy a then Ok a else get e k.

(** The loop over the candidate names for one entry; [Some v] is the
    [return valueStr] of the source. *)
Fixpoint key_loop (entry : value) (labelStr : string) (keys : list string)
  : result (option string) :=
  match keys with
  | [] => Ok None
  | key :: rest =>
      if String.eqb (toLowerCase labelStr) (toLowerCase key) then
        v <- prop entry "value" ;;
        valueStr <- iiifLabelToString v ;;
        if nonEmpty valueStr then Ok (Some valueStr)
        else key_loop entry labelStr rest
      else key_loop entry labelStr rest
  end.

Fixpoint entry_loop (entries : list value) (keys : list string)
  : result string :=
  match entries with
  | [] => Ok ""
  | entry :: rest =>
      l <- prop entry "label" ;;
      labelStr <- iiifLabelToString l ;;
      r <- key_loop entry labelStr keys ;;
      match r with
      | Some valueStr => Ok valueStr
      | None => entry_loop rest keys
      end
  end.

(** [manifest.metadata || []], as the entries a [for ... of] visits. *)
Definition metadataEntries (manifest : value) : result (list value) :=
  md <- get manifest "metadata" ;;
  iterate (js_or md (JArr [])).

Definition getFirstMetadataValue (manifest : value) (keyCandidates : list string)
  : result string :=
  entries <- metadataEntries manifest ;;
  entry_loop entries keyCandidates.

(** What [getFirstMetadataValue] does with one entry: [Some v] when it
    returns [v] there, [None] when it goes on to the next entry. *)
Definition entryValue (entry : value) (keys : list string) : result (option string) :=
  l <- prop entry "label" ;;
  labelStr <- iiifLabelToString l ;;
  key_loop entry labelStr keys.

(** The label is one of the candidate names, letter case apart. *)
Definition labelMatches (labelStr : string) (keys : list string) : bool :=
  existsb (fun key => String.eqb (toLowerCase labelStr) (toLowerCase key)) keys.

(** A metadata entry with a plain label and a plain value. *)
Definition plainEntry (label val : string) : value :=
  JObj [("label", JStr label); ("value", JStr val)].

(** The reading of the lookup in which the order of the candidate names
    decides: of two entries with different labels, the one labelled with the
    first candidate gives the value, wherever it stands in the metadata. *)
Definition candidate_priority_decides : Prop :=
  forall (k1 k2 v1 v2 : string) (metadata : list value),
    toLowerCase k1 <> toLowerCase k2 ->
    trim k1 = k1 -> trim k2 = k2 ->
    trim v1 = v1 -> trim v2 = v2 -> v1 <> "" -> v2 <> "" ->
    metadata = [plainEntry k1 v1; plainEntry k2 v2]
    \/ metadata = [plainEntry k2 v2; plainEntry k1 v1] ->
    getFirstMetadataValue (JObj [("metadata", JArr metadata)]) [k1; k2] = Ok v1.

(** [/manuscript|codex|ms\b/] and [/article|journal|periodical/]. *)
Definition RE_MANUSCRIPT : regex :=
  RAlt (lit "manuscript") (RAlt (lit "codex") (RSeq (lit "ms") RWordBoundary)).

Definition RE_ARTICLE : regex :=
  RAlt (lit "article") (RAlt (lit "journal") (lit "periodical")).

(** The pattern of the first rule as the specification writes it,
    [manuscript|codex|ms], without the word boundary of the source. *)
Definition RE_MANUSCRIPT_AS_SPECIFIED : regex :=
  RAlt (lit "manuscript") (RAlt (lit "codex") (lit "ms")).

(** [w] occurs in [s]; [w] occurs in [s] and no word character follows. *)
Definition contains (w s : string) : Prop :=
  exists pre post, s = (pre ++ w ++ post)%string.

Definition containsAtWordEnd (w s : string) : Prop :=
  exists pre post, s = (pre ++ w ++ post)%string /\ isWordAt post = false.

Definition manuscriptWord (haystack : string) : Prop :=
  contains "manuscript" haystack \/ contains "codex" haystack
  \/ containsAtWordEnd "ms" haystack.

Definition articleWord (haystack : string) : Prop :=
  contains "article" haystack \/ contains "journal" haystack
  \/ contains "periodical" haystack.

(** [iiifLabelToString(manifest.label || manifest["label"])]. *)
Definition manifestLabel (manifest : value) : result string :=
  l <- prop manifest "label" ;;
  iiifLabelToString l.

(** The [haystack] of [inferTypeFromMetadata]. *)
Definition typeHaystack (manifest : value) : result string :=
  label <- manifestLabel manifest ;;
  d <- prop manifest "description" ;;
  desc <- iiifLabelToString d ;;
  ty <- getFirstMetadataValue manifest ["Type"; "type"] ;;
  let descCandidates := filter nonEmpty [desc; ty] in
  Ok (toLowerCase (label ++ " " ++ join " " descCandidates)).

Definition inferTypeFromMetadata (manifest : value) : result string :=
  haystack <- typeHaystack manifest ;;
  if test RE_MANUSCRIPT haystack then Ok "manuscript"
  else if test RE_ARTICLE haystack then Ok "article-journal"
  else Ok "book".

Definition LF : ascii := ascii_of_nat 10.

(** [/[;\n]+/] and [/\s+/]. *)
Definition RE_NAME_SEPARATOR : regex :=
  RPlus (RClass (fun c => Ascii.eqb c ";" || Ascii.eqb c LF)).

Definition RE_SPACES : regex := RPlus (RClass isWhiteSpace).

(** [tokens.pop()]: the last element, [undefined] on an empty array. *)
Definition popped (tokens : list string) : value :=
  match List.rev tokens with
  | t :: _ => JStr t
  | [] => JUndefined
  end.

Definition nameToAuthor (nameStr : string) : value :=
  let tokens := split RE_SPACES nameStr in
  match tokens with
  | [t] => JObj [("family", JStr t)]
  | _ =>
      let family := popped tokens in
      let given := join " " (removelast tokens) in
      JObj [("given", JStr given); ("family", family)]
  end.

Definition extractAuthors (manifest : value) : result (list value) :=
  creatorsRaw <- getFirstMetadataValue manifest
    ["Author"; "Authors"; "Creator"; "Creators"; "author"; "creator"] ;;
  if negb (nonEmpty creatorsRaw) then Ok []
  else
    let parts := filter nonEmpty (map trim (split RE_NAME_SEPARATOR creatorsRaw)) in
    Ok (map nameToAuthor parts).

(** [CREATED_PUBLISHED_LABEL_RE]:
    [/^(created(?!\s*by)|published(?!\s*(by|for)))([-\/\s]+(created(?!\s*by)|published(?!\s*(by|for))))?$/i] *)
Definition RE_CREATED_OR_PUBLISHED : regex :=
  RAlt
    (RSeq (lit_i "created")
          (RNotAhead (RSeq (RStar (RClass isWhiteSpace)) (lit_i "by"))))
    (RSeq (lit_i "published")
          (RNotAhead (RSeq (RStar (RClass isWhiteSpace))
                           (RAlt (lit_i "by") (lit_i "for"))))).

Definition CREATED_PUBLISHED_LABEL_RE : regex :=
  RSeq RStart
    (RSeq RE_CREATED_OR_PUBLISHED
       (RSeq
          (ROpt (RSeq (RPlus (RClass (fun c => Ascii.eqb c "-" || Ascii.eqb c "/"
                                               || isWhiteSpace c)))
                      RE_CREATED_OR_PUBLISHED))
          REnd)).

(** [/(1[0-9]{3}|20[0-9]{2})/]; the group is the whole match. *)
Definition RE_YEAR : regex :=
  RAlt (RSeq (RChar "1") (RSeq (RClass isDigit) (RSeq (RClass isDigit) (RClass isDigit))))
       (RSeq (RChar "2") (RSeq (RChar "0") (RSeq (RClass isDigit) (RClass isDigit)))).

(** A year as [RE_YEAR] describes it: four code units, [1ddd] or [20dd]. *)
Definition isYear (y : string) : bool :=
  match y with
  | String a (String b (String c (String d EmptyString))) =>
      (Ascii.eqb "1" a && isDigit b && isDigit c && isDigit d)
      || (Ascii.eqb "2" a && Ascii.eqb "0" b && isDigit c && isDigit d)
  | _ => false
  end.

(** A year starts at index [n] of [s]. *)
Definition yearAt (n : nat) (s : string) : bool := isYear (take 4 (drop n s)).

(** Step 2 of [extractDate]: the loop over the entries with a
    "Created / Published" label; [dateStr] is the variable of the source. *)
Fixpoint created_loop (entries : list value) (dateStr : string) : result string :=
  match entries with
  | [] => Ok dateStr
  | entry :: rest =>
      l <- prop entry "label" ;;
      labelStr <- iiifLabelToString l ;;
      if test CREATED_PUBLISHED_LABEL_RE labelStr then
        v <- prop entry "value" ;;
        d <- iiifLabelToString v ;;
        if nonEmpty d then Ok d else created_loop rest d
      else created_loop rest dateStr
  end.

(** Steps 1 and 2 of [extractDate]: the date string it locates. *)
Definition locateDateString (manifest : value) : result string :=
  dateStr <- getFirstMetadataValue manifest
    ["Date"; "Publication Date"; "date"; "Issued"] ;;
  if negb (nonEmpty dateStr) then
    entries <- metadataEntries manifest ;;
    created_loop entries dateStr
  else Ok dateStr.

(** Step 3 of [extractDate]. *)
Definition yearOrTrimmed (dateStr : string) : string :=
  match exec RE_YEAR dateStr with
  | Some m1 => m1
  | None => trim dateStr
  end.

Definition extractDate (manifest : value) : result string :=
  dateStr <- locateDateString manifest ;;
  if negb (nonEmpty dateStr) then Ok ""
  else Ok (yearOrTrimmed dateStr).

Definition extractPublisher (manifest : value) : result string :=
  publisher <- getFirstMetadataValue manifest
    ["Publisher"; "publisher"; "Institution"; "Holding Institution"; "Repository"] ;;
  Ok (if nonEmpty publisher then publisher else "").

Definition pickId (obj : value) : result string :=
  if negb (truthy obj) || negb (typeof_object obj) then Ok ""
  else
    a <- get obj "id" ;;
    match a with
    | JStr s => Ok s
    | _ =>
        b <- get obj "@id" ;;
        match b with
        | JStr s => Ok s
        | _ =>
            c <- get obj "href" ;;
            match c with
            | JStr s => Ok s
            | _ => Ok ""
            end
        end
    end.

(** The block [extractHomepageURL] runs on [manifest.homepage] and again on
    [manifest.related]; [Some s] is a [return s]. *)
Definition pickLink (link : value) : result (option string) :=
  if truthy link then
    match link with
    | JStr s => Ok (Some s)
    | JArr (first :: _) =>
        match first with
        | JStr s => Ok (Some s)
        | _ => id <- pickId first ;; Ok (if nonEmpty id then Some id else None)
        end
    | _ =>
        if typeof_object link
        then id <- pickId link ;; Ok (if nonEmpty id then Some id else None)
        else Ok None
    end
  else Ok None.

Definition extractHomepageURL (manifest : value) (manifestUrl : string)
  : result string :=
  homepage <- get manifest "homepage" ;;
  h <- pickLink homepage ;;
  match h with
  | Some s => Ok s
  | None =>
      related <- get manifest "related" ;;
      r <- pickLink related ;;
      match r with
      | Some s => Ok s
      | None => Ok ""
      end
  end.

(** Lines 324-336 of [trimManifestDirectory]: the new path from the old. *)
Definition parentPathname (pathname : string) : string :=
  let parts := splitChar "/" pathname in
  let parts :=
    if Nat.ltb 1 (List.length parts) && String.eqb (List.last parts "x") ""
    then removelast parts else parts in
  let parts := if Nat.ltb 1 (List.length parts) then removelast parts else parts in
  let newPath := join "/" parts in
  if startsWith "/" newPath then newPath else ("/" ++ newPath)%string.

(** A code unit of a path segment. *)
Definition notSlash (c : ascii) : bool := negb (Ascii.eqb c "/").

(** The segments without the empty one that a trailing slash leaves. *)
Definition dropTrailingEmpty (segments : list string) : list string :=
  if String.eqb (List.last segments "x") "" then removelast segments else segments.

(** The directory, with the slash the new path must start with. *)
Definition withLeadingSlash (dir : string) : string :=
  if startsWith "/" dir then dir else ("/" ++ dir)%string.

Definition extractIdFromManifest (manifest : value) (manifestUrl : string)
  : result string :=
  a <- get manifest "@id" ;;
  if truthy a then ToString a
  else
    b <- get manifest "id" ;;
    if truthy b then ToString b
    else if nonEmpty manifestUrl then Ok manifestUrl
    else
      label <- manifestLabel manifest ;;
      if nonEmpty label then Ok label else Ok "".

Section WithPlatform.

Context {P : Platform}.

(** [v > 0]. *)
Definition js_gt0 (v : value) : result bool :=
  match v with
  | JUndefined | JNull => Ok false
  | JBool b => Ok b
  | JNum r =>
      Ok (negb (String.eqb r "0" || String.eqb r "NaN" || startsWith "-" r))
  | JStr s => Ok (StringToNumber_positive s)
  | JArr _ | JObj _ | JBuiltin _ =>
      s <- ToString v ;; Ok (StringToNumber_positive s)
  end.

Fixpoint note_loop (entries : list value) (lines : list string)
  : result (list string) :=
  match entries with
  | [] => Ok lines
  | entry :: rest =>
      l <- prop entry "label" ;;
      k <- iiifLabelToString l ;;
      x <- prop entry "value" ;;
      v <- iiifLabelToString x ;;
      if nonEmpty k || nonEmpty v
      then note_loop rest
             (lines ++ [((if nonEmpty k then k else "?") ++ ": " ++ v)%string])
      else note_loop rest lines
  end.

Definition buildIiifNote (manifest : value) (manifestUrl : string)
  : result string :=
  let lines := ["IIIF manifest metadata"; "======================"; ""] in
  let lines :=
    if nonEmpty manifestUrl
    then lines ++ [("Manifest URL: " ++ manifestUrl)%string] else lines in
  a <- get manifest "@id" ;;
  lines <- (if truthy a
            then s <- ToString a ;; Ok (lines ++ [("@id: " ++ s)%string])
            else Ok lines) ;;
  c <- get manifest "@context" ;;
  lines <- (if truthy c
            then s <- ToString c ;; Ok (lines ++ [("@context: " ++ s)%string])
            else Ok lines) ;;
  md <- get manifest "metadata" ;;
  let metadata := js_or md (JArr []) in
  len <- get metadata "length" ;;
  some <- js_gt0 len ;;
  lines <- (if some
            then entries <- iterate metadata ;;
                 note_loop entries (lines ++ [""; "IIIF metadata:"])
            else Ok lines) ;;
  Ok (trim (join (String LF "") lines)).

Definition trimManifestDirectory (manifestUrl : string) : string :=
  if negb (nonEmpty manifestUrl) then ""
  else
    match URL_new manifestUrl with
    | Some u =>
        let u := URL_set_search u "" in
        let u := URL_set_hash u "" in
        let newPath := parentPathname (URL_pathname u) in
        let u := URL_set_pathname u newPath in
        URL_toString u
    | None => manifestUrl
    end.

Definition manifestToCSLItem (manifest : value) (manifestUrl : string)
  : result value :=
  label <- manifestLabel manifest ;;
  title <- (if nonEmpty label then Ok label
            else
              i <- extractIdFromManifest manifest manifestUrl ;;
              if nonEmpty i then Ok i else Ok "[untitled IIIF manifest]") ;;
  i <- extractIdFromManifest manifest manifestUrl ;;
  let id := if nonEmpty i then i else title in
  authors <- extractAuthors manifest ;;
  issued <- extractDate manifest ;;
  publisher <- extractPublisher manifest ;;
  type <- inferTypeFromMetadata manifest ;;
  homepage <- extractHomepageURL manifest manifestUrl ;;
  note <- buildIiifNote manifest manifestUrl ;;
  let trimmedManifestUrl := trimManifestDirectory manifestUrl in
  url <- (if nonEmpty homepage then Ok (JStr homepage)
          else
            a <- get manifest "@id" ;;
            if truthy a then Ok a
            else
              b <- get manifest "id" ;;
              if truthy b then Ok b
              else if nonEmpty trimmedManifestUrl then Ok (JStr trimmedManifestUrl)
              else Ok (JStr "")) ;;
  Ok (JObj
        ([("id", JStr id); ("type", JStr type); ("title", JStr title); ("URL", url)]
         ++ (match authors with [] => [] | _ => [("author", JArr authors)] end)
         ++ (if nonEmpty issued
             then [("issued", JObj [("date-parts", JArr [JArr [JStr issued]])])]
             else [])
         ++ (if nonEmpty publisher then [("publisher", JStr publisher)] else [])
         ++ (if nonEmpty note then [("note", JStr note)] else []))).

(** Why a URL gave no record: what [fetchManifest] throws, or an exception
    of the conversion; the loop catches both. *)
Inductive Failure : Type :=
| FetchRejected
| HttpStatus (status : nat)
| NotIIIF
| MalformedJSON
| ConversionError (e : error).

Definition fetchManifest (url : string) (w : World)
  : (value + Failure) * World :=
  let (res, w') := fetch url w in
  match res with
  | NetworkFailure => (inr FetchRejected, w')
  | HttpResponse ok status text =>
      if negb ok then (inr (HttpStatus status), w')
      else if negb (looksLikeIIIFManifest text) then (inr NotIIIF, w')
      else match JSON_parse text with
           | Some manifest => (inl manifest, w')
           | None => (inr MalformedJSON, w')
           end
  end.

(** The state of the loop of [iiifManifestUrlsToCSL]: the array [items], the
    diagnostics written by [console.error] (the URL and the failure), and the
    network. *)
Record LoopState : Type := {
  items : list value;
  diagnostics : list (string * Failure);
  world : World
}.

Fixpoint url_loop (manifestUrls : list string) (st : LoopState) : LoopState :=
  match manifestUrls with
  | [] => st
  | url :: rest =>
      if negb (nonEmpty url) then url_loop rest st
      else
        let (r, w') := fetchManifest url (world st) in
        match r with
        | inl manifest =>
            match manifestToCSLItem manifest url with
            | Ok item =>
                url_loop rest
                  {| items := items st ++ [item];
                     diagnostics := diagnostics st;
                     world := w' |}
            | Throw e =>
                url_loop rest
                  {| items := items st;
                     diagnostics := diagnostics st ++ [(url, ConversionError e)];
                     world := w' |}
            end
        | inr f =>
            url_loop rest
              {| items := items st;
                 diagnostics := diagnostics st ++ [(url, f)];
                 world := w' |}
        end
  end.

(** The argument is an array by its type, so the [TypeError] of the guard
    on [Array.isArray] does not arise. *)
Definition iiifManifestUrlsToCSL (manifestUrls : list string) (w : World)
  : LoopState :=
  url_loop manifestUrls {| items := []; diagnostics := []; world := w |}.

(** One turn of the loop. *)
Definition turn (url : string) (st : LoopState) : LoopState :=
  url_loop [url] st.

(** What the URL contributes when it is requested in the network state [w]:
    its record, or nothing when the retrieval or the conversion fails. *)
Definition recordOf (url : string) (w : World) : option value :=
  match fst (fetchManifest url w) with
  | inl manifest =>
      match manifestToCSLItem manifest url with
      | Ok item => Some item
      | Throw _ => None
      end
  | inr _ => None
  end.

(** The network after one request for each non-empty URL of the list, in
    the order of the list. *)
Fixpoint worldAfter (urls : list string) (w : World) : World :=
  match urls with
  | [] => w
  | url :: rest =>
      if nonEmpty url then worldAfter rest (snd (fetch url w))
      else worldAfter rest w
  end.

(** What the URL at index [i] contributes when the URLs before it have been
    requested; an empty URL contributes nothing. *)
Definition recordAt (urls : list string) (w : World) (i : nat) : option value :=
  let url := nth i urls "" in
  if nonEmpty url then recordOf url (worldAfter (firstn i urls) w) else None.

Definition contribution (o : option value) : list value :=
  match o with Some item => [item] | None => [] end.

Definition failedAt (urls : list string) (w : World) (i : nat) : bool :=
  nonEmpty (nth i urls "")
  && match recordAt urls w i with Some _ => false | None => true end.

End WithPlatform.

(** ** iiif_to_zotero_local_cli_0_2_0.js *)

(** [x.f()] for a method [f] of strings: any other receiver has no such
    method, and the call throws. *)
Definition callStringMethod (f : string -> string) (x : value) : result string :=
  match x with
  | JStr s => Ok (f s)
  | _ => Throw TypeError
  end.

Definition MAP : value :=
  JObj [ ("book", JStr "book");
         ("article-journal", JStr "journalArticle");
         ("manuscript", JStr "manuscript") ].

Definition mapCslTypeToZoteroItemType (cslType : value) : result value :=
  t <- callStringMethod toLowerCase (js_or cslType (JStr "")) ;;
  m <- get MAP t ;;
  if truthy m then get MAP t
  else Ok (JStr "book").

Definition creator (firstName lastName : string) : value :=
  JObj [ ("creatorType", JStr "author");
         ("firstName", JStr firstName);
         ("lastName", JStr lastName) ].

(** [(a.k || "").trim()]. *)
Definition trimmedField (a : value) (k : string) : result string :=
  x <- get a k ;;
  callStringMethod trim (js_or x (JStr "")).

Fixpoint author_loop (authors : list value) (creators : list value)
  : result (list value) :=
  match authors with
  | [] => Ok creators
  | a :: rest =>
      given <- trimmedField a "given" ;;
      family <- trimmedField a "family" ;;
      literal <- trimmedField a "literal" ;;
      if nonEmpty family || nonEmpty given then
        author_loop rest
          (creators ++ [creator given (if nonEmpty family then family else given)])
      else if nonEmpty literal then
        author_loop rest (creators ++ [creator "" literal])
      else author_loop rest creators
  end.

Definition mapCslAuthorsToCreators (cslItem : value) : result (list value) :=
  a <- get cslItem "author" ;;
  let authors := match a with JArr l => l | _ => [] end in
  author_loop authors [].

(** [arr[n]]. *)
Definition index (l : list value) (n : nat) : value := nth n l JUndefined.

Definition mapCslIssuedToZoteroDate (cslItem : value) : result string :=
  issued <- get cslItem "issued" ;;
  if negb (truthy issued) then Ok ""
  else
    dp <- get issued "date-parts" ;;
    match dp with
    | JArr dateParts =>
        match index dateParts 0 with
        | JArr parts =>
            if Nat.eqb (List.length parts) 0 then Ok ""
            else
              let y := index parts 0 in
              let m := index parts 1 in
              let d := index parts 2 in
              if negb (truthy y) then Ok ""
              else
                out <- ToString y ;;
                if notNullish m then
                  ms <- ToString m ;;
                  let out := (out ++ "-" ++ padStart 2 "0" ms)%string in
                  if notNullish d then
                    ds <- ToString d ;;
                    Ok (out ++ "-" ++ padStart 2 "0" ds)%string
                  else Ok out
                else Ok out
        | _ => Ok ""
        end
    | _ => Ok ""
    end.

(** [if (v) zotItem.k = v]. *)
Definition setIfTruthy (k : string) (v : value) : list (string * value) :=
  if truthy v then [(k, v)] else [].

Definition cslToZoteroItem (cslItem : value) : result value :=
  ty <- get cslItem "type" ;;
  itemType <- mapCslTypeToZoteroItemType ty ;;
  t <- get cslItem "title" ;;
  let title := js_or t (JStr "[untitled]") in
  creators <- mapCslAuthorsToCreators cslItem ;;
  dateStr <- mapCslIssuedToZoteroDate cslItem ;;
  publisher <- get cslItem "publisher" ;;
  archive <- get cslItem "archive" ;;
  archiveLocation <- get cslItem "archive_location" ;;
  collectionTitle <- get cslItem "collection-title" ;;
  url <- get cslItem "URL" ;;
  note <- get cslItem "note" ;;
  Ok (JObj
        ([("itemType", itemType); ("title", title); ("creators", JArr creators)]
         ++ (if nonEmpty dateStr then [("date", JStr dateStr)] else [])
         ++ setIfTruthy "publisher" publisher
         ++ setIfTruthy "archive" archive
         ++ setIfTruthy "archiveLocation" archiveLocation
         ++ setIfTruthy "libraryCatalog" collectionTitle
         ++ setIfTruthy "url" url
         ++ setIfTruthy "extra" note)).

(** The three trimmed names the loop of [mapCslAuthorsToCreators] reads from
    one author, and what it pushes for them. *)
Definition trimmedNames (a : value) : result (string * string * string) :=
  given <- trimmedField a "given" ;;
  family <- trimmedField a "family" ;;
  literal <- trimmedField a "literal" ;;
  Ok (given, family, literal).

Definition creatorsOf (names : string * string * string) : list value :=
  let '(given, family, literal) := names in
  if nonEmpty given || nonEmpty family
  then [creator given (if nonEmpty family then family else given)]
  else if nonEmpty literal then [creator "" literal]
  else [].

(** [(v || "").trim()], for a name [v] on which it does not throw: a string
    trimmed, and the empty string for a missing or falsy name. *)
Definition nameText (v : value) : string :=
  match v with
  | JStr s => trim s
  | _ => ""
  end.

(** The fields [cslToZoteroItem] copies when they are truthy: the CSL name
    and the Zotero name. *)
Definition passThroughFields : list (string * string) :=
  [ ("publisher", "publisher"); ("archive", "archive");
    ("archive_location", "archiveLocation");
    ("collection-title", "libraryCatalog"); ("URL", "url"); ("note", "extra") ].

(** The table the specification gives for the item type. *)
Definition itemTypeTable (t : string) : string :=
  if String.eqb t "book" then "book"
  else if String.eqb t "article-journal" then "journalArticle"
  else if String.eqb t "manuscript" then "manuscript"
  else "book".

(** ** A reference platform

    The worked examples need one platform to run on.  This one knows the
    absolute URLs of the form [scheme://authority/path?query#fragment], keeps
    their path as written, and rejects a string without [://]; it parses the
    sample documents below and no other; it converts plain decimal numerals;
    its network serves the sample URLs and logs the requests. *)

Module Reference.

Record RefURL : Type := {
  origin : string;
  pathname : string;
  search : string;
  hash : string
}.

(** The text before the first code unit that satisfies [stop], and the rest. *)
Fixpoint span (stop : ascii -> bool) (s : string) : string * string :=
  match s with
  | EmptyString => (EmptyString, EmptyString)
  | String c s' =>
      if stop c then (EmptyString, s)
      else let (a, b) := span stop s' in (String c a, b)
  end.

Fixpoint cut (sep s : string) : option (string * string) :=
  if startsWith sep s then Some (EmptyString, drop (String.length sep) s)
  else match s with
       | EmptyString => None
       | String c s' =>
           match cut sep s' with
           | Some (a, b) => Some (String c a, b)
           | None => None
           end
       end.

Definition isSchemeChar (c : ascii) : bool :=
  let n := nat_of_ascii c in
  (Nat.leb 97 n && Nat.leb n 122) || (Nat.leb 65 n && Nat.leb n 90).

Definition parseURL (s : string) : option RefURL :=
  match cut "://" s with
  | None => None
  | Some (scheme, rest) =>
      if negb (nonEmpty scheme && allChars isSchemeChar scheme) then None
      else
        let (authority, rest) :=
          span (fun c => Ascii.eqb c "/" || Ascii.eqb c "?" || Ascii.eqb c "#") rest in
        if negb (nonEmpty authority) then None
        else
          let (path, rest) := span (fun c => Ascii.eqb c "?" || Ascii.eqb c "#") rest in
          let (query, fragment) := span (fun c => Ascii.eqb c "#") rest in
          Some {| origin := scheme ++ "://" ++ authority;
                  pathname := if nonEmpty path then path else "/";
                  search := if String.eqb query "?" then "" else query;
                  hash := if String.eqb fragment "#" then "" else fragment |}
  end.

Definition setSearch (u : RefURL) (v : string) : RefURL :=
  {| origin := origin u; pathname := pathname u;
     search := if nonEmpty v then (if startsWith "?" v then v else "?" ++ v) else "";
     hash := hash u |}.

Definition setHash (u : RefURL) (v : string) : RefURL :=
  {| origin := origin u; pathname := pathname u; search := search u;
     hash := if nonEmpty v then (if startsWith "#" v then v else "#" ++ v) else "" |}.

Definition setPathname (u : RefURL) (v : string) : RefURL :=
  {| origin := origin u;
     pathname := if startsWith "/" v then v else "/" ++ v;
     search := search u; hash := hash u |}.

Definition href (u : RefURL) : string :=
  origin u ++ pathname u ++ search u ++ hash u.

Definition positiveNumeral (s : string) : bool :=
  nonEmpty s && allChars isDigit s && negb (allChars (Ascii.eqb "0") s).

(** Sample documents. *)
Definition quoted (s : string) : string :=
  String (ascii_of_nat 34) s ++ String (ascii_of_nat 34) "".

Definition contextV2 : string := "http://iiif.io/api/presentation/2/context.json".

Definition bodyA : string :=
  "{" ++ quoted "@context" ++ ":" ++ quoted contextV2 ++ ","
      ++ quoted "label" ++ ":" ++ quoted "Book A" ++ "}".

Definition manifestA : value :=
  JObj [("@context", JStr contextV2); ("label", JStr "Book A")].

Definition bodyC : string :=
  "{" ++ quoted "@context" ++ ":" ++ quoted contextV2 ++ ","
      ++ quoted "label" ++ ":" ++ quoted "Codex C" ++ "}".

Definition manifestC : value :=
  JObj [("@context", JStr contextV2); ("label", JStr "Codex C")].

Definition bodyHtml : string := "<html>not a manifest</html>".

Definition bodyBroken : string := "{ http://iiif.io/ ".

Definition parseJSON (text : string) : option value :=
  if String.eqb text bodyA then Some manifestA
  else if String.eqb text bodyC then Some manifestC
  else None.

Definition urlA : string := "https://example.org/iiif/a/manifest.json".
Definition urlB : string := "https://example.org/iiif/b/manifest.json".
Definition urlC : string := "https://example.org/iiif/c/manifest.json".
Definition urlD : string := "https://example.org/index.html".
Definition urlE : string := "https://example.org/iiif/e/manifest.json".

(** The requests made so far, oldest first. *)
Definition Requests : Type := list string.

Definition serve (url : string) (w : Requests) : Response * Requests :=
  let res :=
    if String.eqb url urlA then HttpResponse true 200 bodyA
    else if String.eqb url urlB then HttpResponse false 404 "Not Found"
    else if String.eqb url urlC then HttpResponse true 200 bodyC
    else if String.eqb url urlD then HttpResponse true 200 bodyHtml
    else if String.eqb url urlE then HttpResponse true 200 bodyBroken
    else NetworkFailure in
  (res, w ++ [url]).

#[export] Instance platform : Platform := {|
  URL := RefURL;
  URL_new := parseURL;
  URL_pathname := pathname;
  URL_set_search := setSearch;
  URL_set_hash := setHash;
  URL_set_pathname := setPathname;
  URL_toString := href;
  JSON_parse := parseJSON;
  StringToNumber_positive := positiveNumeral;
  World := Requests;
  fetch := serve
|}.

End Reference.

(** ** Manifests on which the conversion does not throw

    A manifest that is not [null], in which no object owns a [toString]
    property, and whose [metadata], when it is truthy, is a string or an
    array without [null] entries. *)
Definition wellFormed (manifest : value) : bool :=
  notNullish manifest && plain manifest
  && match get manifest "metadata" with
     | Ok md =>
         if truthy md then
           match md with
           | JArr l => forallb notNullish l
           | JStr _ => true
           | _ => false
           end
         else true
     | Throw _ => false
     end.

(** The field is missing, falsy, or a string. *)
Definition stringField (o : value) (k : string) : bool :=
  match get o k with
  | Ok v => negb (truthy v) || typeof_string v
  | Throw _ => false
  end.

(** An author whose three names are missing, falsy, or strings. *)
Definition wellTypedAuthor (a : value) : bool :=
  stringField a "given" && stringField a "family" && stringField a "literal".

(** A CSL item on which the mapping does not throw. *)
Definition wellFormedCslItem (cslItem : value) : bool :=
  plain cslItem && stringField cslItem "type"
  && match get cslItem "author" with
     | Ok (JArr l) => forallb wellTypedAuthor l
     | Ok _ => true
     | Throw _ => false
     end.

(** A metadata entry the loops can read: not [null], and plain. *)
Definition goodEntry (e : value) : Prop :=
  notNullish e = true /\ plain e = true.

(** Induction on values, through the arrays and the objects. *)
Section ValueInduction.

Variable Q : value -> Prop.

Hypothesis Q_atom :
  forall v, match v with JArr _ | JObj _ => False | _ => True end -> Q v.
Hypothesis Q_array : forall l, Forall Q l -> Q (JArr l).
Hypothesis Q_object : forall props, Forall (fun p => Q (snd p)) props -> Q (JObj props).

Fixpoint value_induction (v : value) : Q v :=
  match v with
  | JArr l =>
      Q_array l
        ((fix all (l : list value) : Forall Q l :=
            match l with
            | [] => Forall_nil Q
            | x :: l' => Forall_cons x (value_induction x) (all l')
            end) l)
  | JObj props =>
      Q_object props
        ((fix all (ps : list (string * value)) : Forall (fun p => Q (snd p)) ps :=
            match ps with
            | [] => Forall_nil _
            | (k, x) :: ps' =>
                Forall_cons (P := fun p => Q (snd p)) (k, x) (value_induction x) (all ps')
            end) props)
  | JUndefined => Q_atom JUndefined I
  | JNull => Q_atom JNull I
  | JBool b => Q_atom (JBool b) I
  | JNum r => Q_atom (JNum r) I
  | JStr s => Q_atom (JStr s) I
  | JBuiltin n => Q_atom (JBuiltin n) I
  end.

End ValueInduction.

(** ** Sample inputs *)

Definition dated (val : string) : value :=
  JObj [("metadata", JArr [plainEntry "Date" val])].

Definition creatorFirst : value :=
  JObj [("metadata", JArr [plainEntry "Creator" "X"; plainEntry "Author" "Y"])].

Definition sampleAuthors : list value :=
  [ JObj [("given", JStr " Jane Mary "); ("family", JStr "Doe")];
    JObj [("given", JStr "Plato")];
    JObj [("literal", JStr "Anonymous of Ravenna")];
    JObj [("given", JStr "   ")];
    JObj [("family", JStr "Shakespeare")] ].

Definition sampleCreators : list value :=
  [ creator "Jane Mary" "Doe"; creator "Plato" "Plato";
    creator "" "Anonymous of Ravenna"; creator "" "Shakespeare" ].

Definition sampleCslItem : value :=
  JObj [ ("id", JStr "x"); ("type", JStr "article-journal"); ("title", JStr "T");
         ("URL", JStr "https://example.org/iiif/a");
         ("issued", JObj [("date-parts", JArr [JArr [JStr "1623"; JNum "4"]])]);
         ("note", JStr "") ].

(** ** Further definitions for Part III *)

(** The two lines every note starts with. *)
Definition NOTE_HEADING : string :=
  ("IIIF manifest metadata" ++ String LF "======================")%string.

(** The rest of [s] after its longest prefix of code units in [f]. *)
Fixpoint skipChars (f : ascii -> bool) (s : string) : string :=
  match s with
  | EmptyString => EmptyString
  | String c s' => if f c then skipChars f s' else s
  end.

(** The pieces between the maximal runs of code units in [f]: what
    [s.split(/[f]+/)] gives.  [cur] holds, reversed, the piece being read;
    [inSep] tells that the code unit before was a separator. *)
Fixpoint words (f : ascii -> bool) (inSep : bool) (s cur : string) : list string :=
  match s with
  | EmptyString => [rev cur]
  | String c s' =>
      if f c then
        if inSep then words f true s' cur
        else rev cur :: words f true s' EmptyString
      else words f false s' (String c cur)
  end.

Definition notWhiteSpace (c : ascii) : bool := negb (isWhiteSpace c).

(** A word: not empty, and without white space. *)
Definition isWord (t : string) : bool := nonEmpty t && allChars notWhiteSpace t.

(** The CSL author of a given name and a family name, as [nameToAuthor]
    writes it, and the Zotero creator of the two. *)
Definition authorOf (n : string * string) : value :=
  if nonEmpty (fst n)
  then JObj [("given", JStr (fst n)); ("family", JStr (snd n))]
  else JObj [("family", JStr (snd n))].

Definition creatorOf (n : string * string) : value := creator (fst n) (snd n).

Definition namedCreators : value :=
  JObj [("metadata", JArr [plainEntry "Creator" "Jane Mary  Doe; Plato"])].

(** ** The command-line tools: reading the URLs

    [readLinesFromStdin] is the same function in
    [iiif_to_zotero_local_cli_0_2_0.js] and in the CSL command-line tool.
    [data] is the whole input, the concatenation of the chunks read; an
    error of the stream rejects the promise and is not modelled. *)

Definition CR : ascii := ascii_of_nat 13.

(** [/\r?\n/] *)
Definition RE_LINE_END : regex := RSeq (ROpt (RChar CR)) (RChar LF).

Definition readLinesFromStdin (data : string) : list string :=
  if negb (nonEmpty data) then []
  else filter nonEmpty (map trim (split RE_LINE_END data)).

Definition notLF (c : ascii) : bool := negb (Ascii.eqb c LF).

(** The first piece of a split, with [w] before it. *)
Definition prefixFirst (w : string) (pieces : list string) : list string :=
  match pieces with
  | [] => []
  | p :: ps => (w ++ p)%string :: ps
  end.

(** The lines, each ended by a carriage return and a line feed. *)
Fixpoint crlfLines (lines : list string) : string :=
  match lines with
  | [] => EmptyString
  | l :: rest => (l ++ String CR (String LF (crlfLines rest)))%string
  end.

(** ** The command-line tools: the arguments

    [process.exit(code)] ends the program at once: a function that may call
    it either returns or exits.  The lines written with [console.error] are
    collected in a list. *)

Inductive Run (A : Type) : Type :=
| Returns (a : A)
| Exits (code : nat).

Arguments Returns {A} a.
Arguments Exits {A} code.

(** ** The command-line tools: what a run leaves

    An entry of the error stream is a text of the program, what the
    conversion core writes for a URL that fails (the line [Error processing
    ...], after the two lines that show the beginning of a body that fails
    the sniff test), or the report of an exception that was caught: the text
    of the exceptions of the platform is not modelled, the entry records the
    words of the program and the cause.  The JSON text printed or saved is
    [JSON.stringify] of the items; the outcome records the items.  The
    conversion core is the one of [iiif_to_csl_core_1_1_0_fruittimer.js],
    which the bundle [iiif_to_csl_browser_1_0_9.bundle.js] holds with the
    same functions (its [fetchManifest] calls [fetch] without a timeout). *)

Inductive Cause : Type :=
| ReadFailed
| ParseFailed
| NotArrayNorObject
| Thrown (e : error)
| UploadRejected
| UploadStatus (status : nat) (text : string)
| UploadMalformed
| WriteFailed.

Inductive Line : Type :=
| Text (s : string)
| Diagnostic (url : string) (f : Failure)
| Caught (words : string) (cause : Cause).

Definition showNat (n : nat) : string :=
  DecimalString.NilZero.string_of_uint (Nat.to_uint n).

Definition showZ (z : Z) : string :=
  DecimalString.NilZero.string_of_int (Z.to_int z).

(** [if (s)] for a string or [null]. *)
Definition given (s : option string) : bool :=
  match s with Some s => nonEmpty s | None => false end.

Definition orEmpty (s : option string) : string :=
  match s with Some s => s | None => "" end.

Definition QUOTE : string := String (ascii_of_nat 34) "".

Section Outcomes.

Context {P : Platform}.

Record Outcome : Type := {
  stdout : option (list value);
  file : option (string * list value);
  stderr : list Line;
  exitCode : nat;
  network : World
}.

(** The program ends with [code], having written nothing but [lines]. *)
Definition stopped (lines : list Line) (code : nat) (w : World) : Outcome :=
  {| stdout := None; file := None; stderr := lines; exitCode := code; network := w |}.

Definition coreLog (st : LoopState) : list Line :=
  map (fun d => Diagnostic (fst d) (snd d)) (diagnostics st).

(** The local output and the exit code go together: the exit code is 0 or
    1, it is 0 exactly when the result was printed or saved, and the result
    is never both printed and saved. *)
Definition delivered (out : Outcome) : Prop :=
  (exitCode out = 0 \/ exitCode out = 1)
  /\ (exitCode out = 0 <-> stdout out <> None \/ file out <> None)
  /\ (stdout out = None \/ file out = None).

End Outcomes.

(** [parseArgs] of [iiif_to_zotero_local_cli_0_2_0.js].  [None] is [null]. *)
Module ZoteroCli.

Record Args : Type := {
  outFile : option string;
  cslFile : option string;
  urls : list string;
  postWebAPI : bool;
  apiUser : option string;
  apiKey : option string
}.

Definition setOutFile (a : Args) (v : string) : Args :=
  {| outFile := Some v; cslFile := cslFile a; urls := urls a;
     postWebAPI := postWebAPI a; apiUser := apiUser a; apiKey := apiKey a |}.

Definition setCslFile (a : Args) (v : string) : Args :=
  {| outFile := outFile a; cslFile := Some v; urls := urls a;
     postWebAPI := postWebAPI a; apiUser := apiUser a; apiKey := apiKey a |}.

Definition setPostWebAPI (a : Args) : Args :=
  {| outFile := outFile a; cslFile := cslFile a; urls := urls a;
     postWebAPI := true; apiUser := apiUser a; apiKey := apiKey a |}.

Definition setApiUser (a : Args) (v : string) : Args :=
  {| outFile := outFile a; cslFile := cslFile a; urls := urls a;
     postWebAPI := postWebAPI a; apiUser := Some v; apiKey := apiKey a |}.

Definition setApiKey (a : Args) (v : string) : Args :=
  {| outFile := outFile a; cslFile := cslFile a; urls := urls a;
     postWebAPI := postWebAPI a; apiUser := apiUser a; apiKey := Some v |}.

Definition pushUrl (a : Args) (v : string) : Args :=
  {| outFile := outFile a; cslFile := cslFile a; urls := urls a ++ [v];
     postWebAPI := postWebAPI a; apiUser := apiUser a; apiKey := apiKey a |}.

Definition unrecognized (arg : string) : string :=
  ("Warning: unrecognized flag '" ++ arg ++ "' (ignored).")%string.

(** The loop of [parseArgs]; [argv] is what is left from index [i] on. *)
Fixpoint parseArgs_loop (argv : list string) (a : Args) (err : list string)
  : list string * Run Args :=
  match argv with
  | [] => (err, Returns a)
  | arg :: rest =>
      if String.eqb arg "--out" then
        match rest with
        | next :: rest' =>
            if nonEmpty next then parseArgs_loop rest' (setOutFile a next) err
            else (err ++ ["Error: --out flag requires a filename."], Exits 1)
        | [] => (err ++ ["Error: --out flag requires a filename."], Exits 1)
        end
      else if startsWith "--out=" arg then
        parseArgs_loop rest (setOutFile a (drop 6 arg)) err
      else if String.eqb arg "--csl" then
        match rest with
        | next :: rest' =>
            if nonEmpty next then parseArgs_loop rest' (setCslFile a next) err
            else (err ++ ["Error: --csl flag requires a filename."], Exits 1)
        | [] => (err ++ ["Error: --csl flag requires a filename."], Exits 1)
        end
      else if startsWith "--csl=" arg then
        parseArgs_loop rest (setCslFile a (drop 6 arg)) err
      else if String.eqb arg "--post-webapi" then
        parseArgs_loop rest (setPostWebAPI a) err
      else if String.eqb arg "--api-user" then
        match rest with
        | next :: rest' =>
            if nonEmpty next then parseArgs_loop rest' (setApiUser a next) err
            else (err ++ ["Error: --api-user flag requires a userID."], Exits 1)
        | [] => (err ++ ["Error: --api-user flag requires a userID."], Exits 1)
        end
      else if String.eqb arg "--api-key" then
        match rest with
        | next :: rest' =>
            if nonEmpty next then parseArgs_loop rest' (setApiKey a next) err
            else (err ++ ["Error: --api-key flag requires a key string."], Exits 1)
        | [] => (err ++ ["Error: --api-key flag requires a key string."], Exits 1)
        end
      else if startsWith "-" arg then
        parseArgs_loop rest a (err ++ [unrecognized arg])
      else parseArgs_loop rest (pushUrl a arg) err
  end.

Definition noArgs : Args :=
  {| outFile := None; cslFile := None; urls := [];
     postWebAPI := false; apiUser := None; apiKey := None |}.

Definition parseArgs (argv : list string) : list string * Run Args :=
  parseArgs_loop argv noArgs [].

(** One option of a command line, and the arguments that write it. *)
Inductive Opt : Type :=
| OptOut (file : string)
| OptOutEq (file : string)
| OptCsl (file : string)
| OptCslEq (file : string)
| OptPost
| OptUser (userID : string)
| OptKey (key : string)
| OptUnknown (flag : string)
| OptUrl (url : string).

Definition written (o : Opt) : list string :=
  match o with
  | OptOut f => ["--out"; f]
  | OptOutEq f => [("--out=" ++ f)%string]
  | OptCsl f => ["--csl"; f]
  | OptCslEq f => [("--csl=" ++ f)%string]
  | OptPost => ["--post-webapi"]
  | OptUser u => ["--api-user"; u]
  | OptKey k => ["--api-key"; k]
  | OptUnknown x => [x]
  | OptUrl u => [u]
  end.

(** The arguments the loop knows as flags. *)
Definition isKnownFlag (arg : string) : bool :=
  String.eqb arg "--out" || startsWith "--out=" arg
  || String.eqb arg "--csl" || startsWith "--csl=" arg
  || String.eqb arg "--post-webapi"
  || String.eqb arg "--api-user" || String.eqb arg "--api-key".

Definition wellWritten (o : Opt) : bool :=
  match o with
  | OptOut v | OptCsl v | OptUser v | OptKey v => nonEmpty v
  | OptOutEq _ | OptCslEq _ | OptPost => true
  | OptUnknown x => startsWith "-" x && negb (isKnownFlag x)
  | OptUrl u => negb (startsWith "-" u)
  end.

(** The last value given, or [d] when none is given. *)
Definition lastGiven (vals : list string) (d : option string) : option string :=
  last (map Some vals) d.

Definition outFiles (opts : list Opt) : list string :=
  flat_map (fun o => match o with OptOut f | OptOutEq f => [f] | _ => [] end) opts.

Definition cslFiles (opts : list Opt) : list string :=
  flat_map (fun o => match o with OptCsl f | OptCslEq f => [f] | _ => [] end) opts.

Definition apiUsers (opts : list Opt) : list string :=
  flat_map (fun o => match o with OptUser u => [u] | _ => [] end) opts.

Definition apiKeys (opts : list Opt) : list string :=
  flat_map (fun o => match o with OptKey k => [k] | _ => [] end) opts.

Definition urlsOf (opts : list Opt) : list string :=
  flat_map (fun o => match o with OptUrl u => [u] | _ => [] end) opts.

Definition warningsOf (opts : list Opt) : list string :=
  flat_map (fun o => match o with OptUnknown x => [unrecognized x] | _ => [] end) opts.

Definition posts (opts : list Opt) : bool :=
  existsb (fun o => match o with OptPost => true | _ => false end) opts.

(** What the options [opts] set, starting from [a]. *)
Definition afterOpts (opts : list Opt) (a : Args) : Args :=
  {| outFile := lastGiven (outFiles opts) (outFile a);
     cslFile := lastGiven (cslFiles opts) (cslFile a);
     urls := urls a ++ urlsOf opts;
     postWebAPI := postWebAPI a || posts opts;
     apiUser := lastGiven (apiUsers opts) (apiUser a);
     apiKey := lastGiven (apiKeys opts) (apiKey a) |}.

(** The flags that only this tool knows. *)
Definition isZoteroFlag (arg : string) : bool :=
  String.eqb arg "--csl" || startsWith "--csl=" arg
  || String.eqb arg "--post-webapi"
  || String.eqb arg "--api-user" || String.eqb arg "--api-key".


(** [printUsage]; [script] is the base name of the program. *)
Definition USAGE (script : string) : string :=
  trim (join (String LF "")
    [ "";
      "Usage:";
      ("  " ++ script ++ " <manifest_url> [more_urls...] [--out zotero_items.json]")%string;
      ("  echo " ++ QUOTE ++ "https://example.org/iiif/manifest" ++ QUOTE ++ " | "
       ++ script ++ " --out zotero_items.json")%string;
      "";
      ("  " ++ script ++ " --csl items_csl.json [--out zotero_items.json]")%string;
      "";
      "Optional Web API upload:";
      ("  " ++ script
       ++ " <url> [...] --post-webapi --api-user USERID --api-key KEY [--out zotero_items.json]")%string;
      "";
      "Options:";
      "  --csl FILE       Read CSL-JSON from FILE instead of converting IIIF URLs.";
      "  --out FILE       Write Zotero JSON array to FILE instead of stdout.";
      "  --post-webapi    Also POST the Zotero items to Zotero Web API.";
      "  --api-user ID    Zotero userID for Web API upload.";
      "  --api-key  KEY   Zotero API key for Web API upload.";
      "";
      "Notes:";
      "  - If --csl is given, manifest URLs (argv + stdin) are ignored.";
      "  - If neither --csl nor any URLs are provided, this help is shown.";
      "" ]).

Section Main.

Context {P : Platform}.

(** [fs.readFileSync(path, "utf8")]: the text of the file ([None]: the call
    throws); [fs.writeFileSync(path, ...)]: whether the file is written
    ([false]: the call throws); [fetch] with the method [POST]: the answer
    to the items sent to [endpoint] with the key [apiKey]. *)
Variable readFileSync : string -> option string.
Variable writeFileSync : string -> bool.
Variable post : string -> string -> list value -> World -> Response * World.

(** Lines 398-418 of [main]: the CSL items of the file. *)
Definition readCslFile (cslFile : string) : list value + Cause :=
  match readFileSync cslFile with
  | None => inr ReadFailed
  | Some raw =>
      match JSON_parse raw with
      | None => inr ParseFailed
      | Some parsed =>
          match parsed with
          | JArr l => inl l
          | _ =>
              if truthy parsed && typeof_object parsed then inl [parsed]
              else inr NotArrayNorObject
          end
      end
  end.

(** Lines 435-449 of [main]: the summary line of the conversion to CSL. *)
Definition tally (total success : nat) : string :=
  let failed := (Z.of_nat total - Z.of_nat success)%Z in
  if Nat.eqb success 0 then "No valid IIIF manifests were converted to CSL."
  else if Z.eqb failed 0 then
    (showNat success ++ " of " ++ showNat total
     ++ " URL(s) converted to CSL successfully.")%string
  else
    ("Warning: " ++ showZ failed ++ " of " ++ showNat total
     ++ " URL(s) failed to convert to CSL. (" ++ showNat success ++ " succeeded)")%string.

(** Lines 457-465 of [main]: the loop that maps the CSL items. *)
Fixpoint convert_loop (cslItems zoteroItems : list value) (log : list Line)
  : list value * list Line :=
  match cslItems with
  | [] => (zoteroItems, log)
  | item :: rest =>
      match cslToZoteroItem item with
      | Ok zi => convert_loop rest (zoteroItems ++ [zi]) log
      | Throw e =>
          convert_loop rest zoteroItems
            (log ++ [Caught "Error converting CSL item to Zotero item:" (Thrown e)])
      end
  end.

(** [None]: the function returns; [Some cause]: it throws. *)
Definition uploadToZoteroWebAPI (userID apiKey : string) (items : list value)
    (w : World) : option Cause * list Line * World :=
  if Nat.eqb (List.length items) 0
  then (None, [Text "No items to upload; skipping Web API call."], w)
  else
    let endpoint := ("https://api.zotero.org/users/" ++ userID ++ "/items")%string in
    let (res, w') := post endpoint apiKey items w in
    match res with
    | NetworkFailure => (Some UploadRejected, [], w')
    | HttpResponse ok status text =>
        if negb ok then (Some (UploadStatus status text), [], w')
        else match JSON_parse text with
             | Some _ => (None, [], w')
             | None => (Some UploadMalformed, [], w')
             end
    end.

(** Lines 485-500 of [main]: the local output and the last line. *)
Definition writeOutput (a : Args) (zoteroItems : list value) (log : list Line)
    (w : World) : Outcome :=
  let last :=
    Text ("Converted " ++ showNat (List.length zoteroItems)
          ++ " CSL item(s) into Zotero JSON item(s).")%string in
  if given (outFile a) then
    if writeFileSync (orEmpty (outFile a)) then
      {| stdout := None; file := Some (orEmpty (outFile a), zoteroItems);
         stderr := log ++ [last]; exitCode := 0; network := w |}
    else
      stopped (log ++ [Caught ("Error writing output file '" ++ orEmpty (outFile a)
                               ++ "':")%string WriteFailed]) 1 w
  else
    {| stdout := Some zoteroItems; file := None;
       stderr := log ++ [last]; exitCode := 0; network := w |}.

(** Lines 456-500 of [main]: from the CSL items on. *)
Definition mapAndDeliver (a : Args) (cslItems : list value) (log : list Line)
    (w : World) : Outcome :=
  let (zoteroItems, log) := convert_loop cslItems [] log in
  if postWebAPI a then
    if negb (given (apiUser a)) || negb (given (apiKey a)) then
      stopped (log ++ [Text "Error: --post-webapi requires --api-user and --api-key."])
        1 w
    else
      match uploadToZoteroWebAPI (orEmpty (apiUser a)) (orEmpty (apiKey a))
              zoteroItems w with
      | (Some cause, lines, w') =>
          stopped (log ++ lines ++ [Caught "Zotero upload failed:" cause]) 1 w'
      | (None, lines, w') =>
          writeOutput a zoteroItems
            (log ++ lines
             ++ [Text ("Uploaded " ++ showNat (List.length zoteroItems)
                       ++ " item(s) to Zotero Web API (user " ++ orEmpty (apiUser a)
                       ++ ").")%string])
            w'
      end
  else writeOutput a zoteroItems log w.

(** [main]; [script] is the base name of the program, [isTTY] tells whether
    the standard input is a terminal, [data] is what the standard input
    holds.  The conversion core is the one loaded when the program starts
    (the line [Using core: ...] is written then, before [main] runs): the
    branch for a core that cannot be loaded is left out. *)
Definition main (script : string) (argv : list string) (isTTY : bool)
    (data : string) (w : World) : Outcome :=
  match parseArgs argv with
  | (err, Exits code) => stopped (map Text err) code w
  | (err, Returns a) =>
      let stdinUrls := if negb isTTY then readLinesFromStdin data else [] in
      let urls := urls a ++ stdinUrls in
      let log := map Text err in
      if given (cslFile a) then
        match readCslFile (orEmpty (cslFile a)) with
        | inr ReadFailed =>
            stopped (log ++ [Caught ("Error: could not read CSL file '"
                                     ++ orEmpty (cslFile a) ++ "':")%string ReadFailed])
              1 w
        | inr cause =>
            stopped (log ++ [Caught ("Error: could not parse CSL JSON from '"
                                     ++ orEmpty (cslFile a) ++ "':")%string cause])
              1 w
        | inl cslItems => mapAndDeliver a cslItems log w
        end
      else if Nat.eqb (List.length urls) 0
      then stopped (log ++ [Text (USAGE script)]) 1 w
      else
        let st := iiifManifestUrlsToCSL urls w in
        mapAndDeliver a (items st)
          (log ++ coreLog st
           ++ [Text (tally (List.length urls) (List.length (items st)))])
          (world st)
  end.

End Main.

End ZoteroCli.

(** [parseArgs] of the CSL command-line tool (version 1.0.7). *)
Module CslCli.

Record Args : Type := {
  outFile : option string;
  urls : list string
}.

Fixpoint parseArgs_loop (argv : list string) (a : Args) (err : list string)
  : list string * Run Args :=
  match argv with
  | [] => (err, Returns a)
  | arg :: rest =>
      if String.eqb arg "--out" then
        match rest with
        | next :: rest' =>
            if nonEmpty next
            then parseArgs_loop rest' {| outFile := Some next; urls := urls a |} err
            else (err ++ ["Error: --out flag requires a filename."], Exits 1)
        | [] => (err ++ ["Error: --out flag requires a filename."], Exits 1)
        end
      else if startsWith "--out=" arg then
        parseArgs_loop rest {| outFile := Some (drop 6 arg); urls := urls a |} err
      else if startsWith "-" arg then
        parseArgs_loop rest a (err ++ [ZoteroCli.unrecognized arg])
      else parseArgs_loop rest {| outFile := outFile a; urls := urls a ++ [arg] |} err
  end.

Definition parseArgs (argv : list string) : list string * Run Args :=
  parseArgs_loop argv {| outFile := None; urls := [] |} [].


(** [printUsage]. *)
Definition USAGE : string :=
  trim (join (String LF "")
    [ "";
      "Usage:";
      "  node iiif_to_csl_cli_1_0_7.js <manifest_url> [more_urls...] [--out result.json]";
      "";
      "Examples:";
      "  node iiif_to_csl_cli_1_0_7.js https://example.org/manifest.json";
      ("  echo " ++ QUOTE ++ "https://example.org/manifest" ++ QUOTE
       ++ " | node iiif_to_csl_cli_1_0_7.js --out out.json")%string;
      "" ]).

Section Main.

Context {P : Platform}.

(** [fs.writeFileSync(path, ...)]: whether the file is written ([false]: the
    call throws). *)
Variable writeFileSync : string -> bool.

(** Lines 120-142 of [main]: the summary line and the exit code. *)
Definition tally (total success : nat) : string * nat :=
  let failed := (Z.of_nat total - Z.of_nat success)%Z in
  if Nat.eqb success 0 then ("No valid IIIF manifests were processed.", 1)
  else if Z.eqb failed 0 then
    ((showNat success ++ " of " ++ showNat total
      ++ " URL(s) converted successfully.")%string, 0)
  else
    (("Warning: " ++ showZ failed ++ " of " ++ showNat total
      ++ " URL(s) failed to convert. (" ++ showNat success ++ " succeeded)")%string, 1).

Definition main (argv : list string) (data : string) (w : World) : Outcome :=
  match parseArgs argv with
  | (err, Exits code) => stopped (map Text err) code w
  | (err, Returns a) =>
      let stdinUrls := readLinesFromStdin data in
      let urls := urls a ++ stdinUrls in
      if Nat.eqb (List.length urls) 0
      then stopped (map Text err ++ [Text USAGE]) 1 w
      else
        let total := List.length urls in
        let st := iiifManifestUrlsToCSL urls w in
        let log := map Text err ++ coreLog st in
        if given (outFile a) && negb (writeFileSync (orEmpty (outFile a)))
        then stopped (log ++ [Caught "Fatal error:" WriteFailed]) 1 (world st)
        else
          let (summary, code) := tally total (List.length (items st)) in
          {| stdout := if given (outFile a) then None else Some (items st);
             file := if given (outFile a)
                     then Some (orEmpty (outFile a), items st) else None;
             stderr := log ++ [Text summary];
             exitCode := code;
             network := world st |}
  end.

End Main.

End CslCli.


(** The two tools read the same command line alike. *)
Definition sameArgs (c : CslCli.Args) (z : ZoteroCli.Args) : Prop :=
  CslCli.outFile c = ZoteroCli.outFile z
  /\ CslCli.urls c = ZoteroCli.urls z.

Definition sameRun (c : list string * Run CslCli.Args)
    (z : list string * Run ZoteroCli.Args) : Prop :=
  fst c = fst z
  /\ match snd c, snd z with
     | Returns a, Returns b =>
         sameArgs a b
         /\ ZoteroCli.cslFile b = None /\ ZoteroCli.postWebAPI b = false
         /\ ZoteroCli.apiUser b = None /\ ZoteroCli.apiKey b = None
     | Exits m, Exits n => m = n
     | _, _ => False
     end.

(** ** The browser wrapper (version 1.0.9)

    The two functions are asynchronous: [Throw] is a rejected promise.  The
    conversion core is the one of the bundle, so [ensureCoreAvailable] does
    not throw; the argument of [fromManifestUrls] is an array by its type. *)

Module Browser.

Section WithPlatform.

Context {P : Platform}.

Definition fromManifestUrl (manifestUrl : string) (w : World) : result LoopState :=
  if negb (nonEmpty manifestUrl) then Throw TypeError
  else Ok (iiifManifestUrlsToCSL [manifestUrl] w).

Definition fromManifestUrls (manifestUrls : list string) (w : World) : LoopState :=
  iiifManifestUrlsToCSL manifestUrls w.

End WithPlatform.

End Browser.

(** ** iiif_to_csl_sniffer_0_2_0_dl.js

    An element is its tag name, its text content and its attributes.  The
    selected elements, [root.querySelectorAll("a, [role='link']")] in
    document order, are the argument of the functions that take [root] in
    the source.  The candidates are the objects [{node, label, href,
    resolvedHref}]; [None] is [null].  The messages written to the console
    and the download of the result are not modelled. *)

Module Sniffer.

Definition isGap (c : ascii) : bool :=
  isWhiteSpace c || Ascii.eqb c "_" || Ascii.eqb c "-".

(** [/iiif[\s_-]*manifest/i] *)
Definition MANIFEST_TEXT_RE : regex :=
  RSeq (lit_i "iiif") (RSeq (RStar (RClass isGap)) (lit_i "manifest")).

Record Node : Type := {
  tagName : string;
  textContent : string;
  attributes : list (string * string)
}.

Fixpoint lookup (attrs : list (string * string)) (name : string) : option string :=
  match attrs with
  | [] => None
  | (k, v) :: rest => if String.eqb k name then Some v else lookup rest name
  end.

Definition getAttribute (node : Node) (name : string) : option string :=
  lookup (attributes node) name.

Definition getNodeLabel (node : Node) : string :=
  let direct := trim (textContent node) in
  if nonEmpty direct then direct
  else
    let title := orEmpty (getAttribute node "title") in
    if nonEmpty (trim title) then trim title
    else
      let aria := orEmpty (getAttribute node "aria-label") in
      if nonEmpty (trim aria) then trim aria
      else "".

Record Candidate : Type := {
  node : Node;
  label : string;
  href : option string;
  resolvedHref : option string
}.

(** The key of a candidate in the map of [dedupeManifestCandidates]. *)
Definition urlOf (c : Candidate) : string := orEmpty (resolvedHref c).

(** A [Map] with string keys, in insertion order; [set] on a key of the map
    replaces the value and keeps the place. *)
Fixpoint map_get (m : list (string * Candidate)) (k : string) : option Candidate :=
  match m with
  | [] => None
  | (k', c) :: m' => if String.eqb k' k then Some c else map_get m' k
  end.

Fixpoint map_set (m : list (string * Candidate)) (k : string) (c : Candidate)
  : list (string * Candidate) :=
  match m with
  | [] => [(k, c)]
  | (k', c') :: m' =>
      if String.eqb k' k then (k, c) :: m' else (k', c') :: map_set m' k c
  end.

Fixpoint dedupe_loop (candidates : list Candidate) (byUrl : list (string * Candidate))
  : list (string * Candidate) :=
  match candidates with
  | [] => byUrl
  | c :: rest =>
      if negb (given (resolvedHref c)) then dedupe_loop rest byUrl
      else
        match map_get byUrl (urlOf c) with
        | None => dedupe_loop rest (map_set byUrl (urlOf c) c)
        | Some existing =>
            if Nat.ltb (String.length (label c)) (String.length (label existing))
            then dedupe_loop rest (map_set byUrl (urlOf c) c)
            else dedupe_loop rest byUrl
        end
  end.

Definition dedupeManifestCandidates (candidates : list Candidate) : list Candidate :=
  map snd (dedupe_loop candidates []).

(** What the loop keeps true of the map: the keys are distinct, not empty,
    and each one is the resolved URL of its candidate. *)
Definition keyed (m : list (string * Candidate)) : Prop :=
  NoDup (map fst m)
  /\ forall k c, In (k, c) m -> resolvedHref c = Some k /\ nonEmpty k = true.

(** Every candidate seen with a resolved URL has an entry for this URL,
    whose label is not longer than its own. *)
Definition covers (m : list (string * Candidate)) (seen : list Candidate) : Prop :=
  forall c, In c seen -> given (resolvedHref c) = true ->
    exists d, map_get m (urlOf c) = Some d
              /\ String.length (label d) <= String.length (label c).

Section WithDocument.

(** [new URL(href, document.location.href).toString()]; [None]: the
    constructor throws. *)
Variable resolve : string -> option string.

Definition resolveUrl (href : option string) : option string :=
  if negb (given href) then None else resolve (orEmpty href).

(** The [href] of a node: the attribute [href] of an [A] element, else the
    attribute [data-href], when it is not empty. *)
Definition hrefOf (n : Node) : option string :=
  let a := if String.eqb (tagName n) "A" then getAttribute n "href" else None in
  if given a then a
  else
    let d := getAttribute n "data-href" in
    if given d then d else None.

Fixpoint referrer_loop (nodes : list Node) (results : list Candidate)
  : list Candidate :=
  match nodes with
  | [] => results
  | n :: rest =>
      let label := getNodeLabel n in
      if negb (nonEmpty label) then referrer_loop rest results
      else if negb (test MANIFEST_TEXT_RE label) then referrer_loop rest results
      else
        let href := hrefOf n in
        referrer_loop rest
          (results ++ [{| node := n; label := label; href := href;
                          resolvedHref := resolveUrl href |}])
  end.

Definition findManifestReferrerNodes (nodes : list Node) : list Candidate :=
  referrer_loop nodes [].

(** The candidate of a node, when its label passes the test. *)
Definition candidateOf (n : Node) : list Candidate :=
  if nonEmpty (getNodeLabel n) && test MANIFEST_TEXT_RE (getNodeLabel n)
  then [{| node := n; label := getNodeLabel n; href := hrefOf n;
           resolvedHref := resolveUrl (hrefOf n) |}]
  else [].

Record Sniffed : Type := {
  candidates : list Candidate;
  unique : list Candidate;
  manifestUrls : list string
}.

Definition sniffManifestUrls (nodes : list Node) : Sniffed :=
  let candidates := findManifestReferrerNodes nodes in
  let unique := dedupeManifestCandidates candidates in
  {| candidates := candidates;
     unique := unique;
     manifestUrls :=
       flat_map (fun c => match resolvedHref c with
                          | Some u => if Nat.ltb 0 (String.length u) then [u] else []
                          | None => []
                          end) unique |}.

Context {P : Platform}.


End WithDocument.

End Sniffer.

(** ** Sample runs of the command-line tools *)

Definition sampleOpts : list ZoteroCli.Opt :=
  [ ZoteroCli.OptUrl Reference.urlA; ZoteroCli.OptOut "first.json";
    ZoteroCli.OptUnknown "--verbose"; ZoteroCli.OptPost;
    ZoteroCli.OptUser "475425"; ZoteroCli.OptKey "secret";
    ZoteroCli.OptUrl Reference.urlC; ZoteroCli.OptOutEq "last.json" ].

Definition noFile : string -> option string := fun _ => None.
Definition fileA : string -> option string := fun _ => Some Reference.bodyA.
Definition writable : string -> bool := fun _ => true.
Definition offline : string -> string -> list value -> Reference.Requests
                     -> Response * Reference.Requests :=
  fun _ _ _ w => (NetworkFailure, w).

Definition urlModeArgs : ZoteroCli.Args :=
  {| ZoteroCli.outFile := None; ZoteroCli.cslFile := None;
     ZoteroCli.urls := [Reference.urlA; Reference.urlB];
     ZoteroCli.postWebAPI := false;
     ZoteroCli.apiUser := None; ZoteroCli.apiKey := None |}.

Definition urlModeRun : Outcome (P := Reference.platform) :=
  ZoteroCli.main (P := Reference.platform) noFile writable offline
    "cli.js" [Reference.urlA; Reference.urlB] true "" [].

Definition cslModeArgs : ZoteroCli.Args :=
  {| ZoteroCli.outFile := Some "out.json"; ZoteroCli.cslFile := Some "items.json";
     ZoteroCli.urls := [Reference.urlA];
     ZoteroCli.postWebAPI := false;
     ZoteroCli.apiUser := None; ZoteroCli.apiKey := None |}.

Definition cslModeRun : Outcome (P := Reference.platform) :=
  ZoteroCli.main (P := Reference.platform) fileA writable offline
    "cli.js" ["--csl"; "items.json"; Reference.urlA; "--out=out.json"] false
    Reference.urlC [].

(** The words and the separators of a "Created / Published" label. *)
Definition isCreatedOrPublished (w : string) : Prop :=
  toLowerCase w = "created" \/ toLowerCase w = "published".

Definition isLabelSeparator (c : ascii) : bool :=
  Ascii.eqb c "-" || Ascii.eqb c "/" || isWhiteSpace c.

(** The value of the first pair whose trimmed label is accepted and whose
    trimmed value is not empty. *)
Definition firstValue (accepts : string -> bool) (pairs : list (string * string))
  : option string :=
  option_map (fun p => trim (snd p))
    (find (fun p => accepts (trim (fst p)) && nonEmpty (trim (snd p))) pairs).

Definition plainEntries (pairs : list (string * string)) : list value :=
  map (fun p => plainEntry (fst p) (snd p)) pairs.

Definition publishedThenDated : value :=
  JObj [("metadata",
         JArr (plainEntries [("Created / Published", "London, 1623"); ("Date", "1700")]))].

(** ** The names of a creators string *)

(** The characters that [/[;\n]+/] matches. *)
Definition isNameSeparator (c : ascii) : bool := Ascii.eqb c ";" || Ascii.eqb c LF.

(** The pieces of a string between the characters of [f], one after each. *)
Fixpoint splitOn (f : ascii -> bool) (s : string) : list string :=
  match s with
  | EmptyString => [EmptyString]
  | String c s' =>
      if f c then EmptyString :: splitOn f s'
      else prefixFirst (String c EmptyString) (splitOn f s')
  end.

(** [cutAt f s pieces]: [s] is the [pieces], none of which holds a character
    of [f], with one character of [f] between each two of them. *)
Inductive cutAt (f : ascii -> bool) : string -> list string -> Prop :=
| cut_last (p : string) :
    allChars (fun c => negb (f c)) p = true -> cutAt f p [p]
| cut_more (p : string) (c : ascii) (rest : string) (pieces : list string) :
    allChars (fun c => negb (f c)) p = true -> f c = true ->
    cutAt f rest pieces ->
    cutAt f (p ++ String c rest)%string (p :: pieces).

(** [spelled s tokens]: [s] is the words [tokens], with a run of white space
    that is not empty between each two of them. *)
Inductive spelled : string -> list string -> Prop :=
| spelled_last (t : string) : isWord t = true -> spelled t [t]
| spelled_more (t gap rest : string) (tokens : list string) :
    isWord t = true ->
    nonEmpty gap = true -> allChars isWhiteSpace gap = true ->
    spelled rest tokens ->
    spelled (t ++ gap ++ rest)%string (t :: tokens).

(** The names of a creators string: its pieces between semicolons and line
    feeds, trimmed, the empty ones left out. *)
Definition namesIn (creatorsRaw : string) : list string :=
  filter nonEmpty (map trim (splitOn isNameSeparator creatorsRaw)).

(** The words of a name, its last word, and the words before it joined by
    single spaces. *)
Definition nameWords (name : string) : list string :=
  words isWhiteSpace false name EmptyString.

Definition familyName (name : string) : string := last (nameWords name) "".

Definition givenNames (name : string) : string :=
  join " " (removelast (nameWords name)).

(* ================================================================= *)
(** * Part II. Lemmas and theorems *)
(* ================================================================= *)

(** ** Tactics *)

(** Splits a hypothesis [x <- r ;; k = Ok v] into [r = Ok a] and [k a = Ok v]. *)
Ltac bind_inv H :=
  repeat match type of H with
         | bind ?r _ = Ok _ =>
             let E := fresh "E" in
             destruct r eqn:E; simpl in H; [ | discriminate H ]
         end.

Lemma nonEmpty_true (s : string) : nonEmpty s = true <-> s <> "".
Proof.
  destruct s; simpl; split; intros H; congruence.
Qed.

Lemma nonEmpty_false (s : string) : nonEmpty s = false <-> s = "".
Proof.
  destruct s; simpl; split; intros H; congruence.
Qed.

(** ** Trimming *)

Lemma trimEnd_idempotent (s : string) : trimEnd (trimEnd s) = trimEnd s.
Proof.
  induction s as [ | c s IH]; simpl; [ reflexivity | ].
  destruct (trimEnd s) as [ | d t] eqn:E.
  - destruct (isWhiteSpace c) eqn:W; simpl; [ reflexivity | ].
    rewrite W; reflexivity.
  - simpl in IH |- *. rewrite IH. reflexivity.
Qed.

Lemma trimEnd_keeps_head (c : ascii) (s : string) :
  isWhiteSpace c = false -> trimEnd (String c s) = String c (trimEnd s).
Proof.
  intros W; simpl. destruct (trimEnd s); [ rewrite W | ]; reflexivity.
Qed.

Lemma trimStart_head (s : string) (c : ascii) (t : string) :
  trimStart s = String c t -> isWhiteSpace c = false.
Proof.
  induction s as [ | a s IH]; simpl; [ discriminate | ].
  destruct (isWhiteSpace a) eqn:W; [ exact IH | ].
  intros H; injection H as -> _; exact W.
Qed.

Lemma trimStart_fixed (c : ascii) (s : string) :
  isWhiteSpace c = false -> trimStart (String c s) = String c s.
Proof. intros W; simpl; rewrite W; reflexivity. Qed.

Lemma trim_idempotent (s : string) : trim (trim s) = trim s.
Proof.
  unfold trim. destruct (trimStart s) as [ | c t] eqn:E; [ reflexivity | ].
  pose proof (trimStart_head _ _ _ E) as W.
  rewrite (trimEnd_keeps_head _ _ W), (trimStart_fixed _ _ W).
  rewrite <- (trimEnd_keeps_head _ _ W). apply trimEnd_idempotent.
Qed.

Lemma trimStart_split (s : string) :
  exists pre, s = (pre ++ trimStart s)%string /\ allChars isWhiteSpace pre = true.
Proof.
  induction s as [ | c s [pre [E W]]]; simpl.
  - exists ""; split; reflexivity.
  - destruct (isWhiteSpace c) eqn:Wc.
    + exists (String c pre); simpl; rewrite Wc, W; split; [ f_equal; exact E | reflexivity ].
    + exists ""; split; reflexivity.
Qed.

Lemma trimEnd_split (s : string) :
  exists post, s = (trimEnd s ++ post)%string /\ allChars isWhiteSpace post = true.
Proof.
  induction s as [ | c s [post [E W]]]; simpl.
  - exists ""; split; reflexivity.
  - destruct (trimEnd s) as [ | d t] eqn:T.
    + destruct (isWhiteSpace c) eqn:Wc.
      * exists (String c post); simpl in *; rewrite Wc, W; split; [ f_equal; exact E | reflexivity ].
      * exists post; simpl in *; split; [ f_equal; exact E | exact W ].
    + exists post; simpl in *; split; [ f_equal; exact E | exact W ].
Qed.

Lemma append_assoc (a b c : string) : ((a ++ b) ++ c = a ++ (b ++ c))%string.
Proof. induction a as [ | x a IH]; simpl; [ reflexivity | f_equal; exact IH ]. Qed.

Lemma append_empty_r (a : string) : (a ++ "")%string = a.
Proof. induction a as [ | x a IH]; simpl; [ reflexivity | f_equal; exact IH ]. Qed.

(** [trim] only removes white space at the two ends. *)
Lemma trim_split (s : string) :
  exists pre post,
    s = (pre ++ trim s ++ post)%string
    /\ allChars isWhiteSpace pre = true /\ allChars isWhiteSpace post = true.
Proof.
  destruct (trimStart_split s) as [pre [E1 W1]].
  destruct (trimEnd_split (trimStart s)) as [post [E2 W2]].
  exists pre, post. unfold trim. rewrite <- E2. auto.
Qed.

(** ** Label normalisation *)

Lemma iiifLabelToString_string (x : string) :
  iiifLabelToString (JStr x) = Ok (trim x).
Proof. destruct x; reflexivity. Qed.

(** Every result of the normaliser is trimmed: normalising it again gives it
    back, whatever the encoding of the label was. *)
Lemma iiifLabelToString_stable (v : value) (s : string) :
  iiifLabelToString v = Ok s -> iiifLabelToString (JStr s) = Ok s.
Proof.
  intros H. rewrite iiifLabelToString_string.
  assert (T : exists t, s = trim t).
  { unfold iiifLabelToString in H.
    destruct (negb (truthy v)).
    - injection H as <-. exists ""; reflexivity.
    - destruct (typeof_object v && negb (isArray v)).
      + bind_inv H. injection H as <-. eexists; reflexivity.
      + destruct v; bind_inv H; injection H as <-; eexists; reflexivity. }
  destruct T as [t ->]. rewrite trim_idempotent. reflexivity.
Qed.

(** C8. Label normalisation is idempotent on strings: a string normalises to
    its trimmed copy, normalising that copy again returns it unchanged, and
    the trimmed copy is the string itself without the white space at its two
    ends. *)
Theorem normalizeLabel_idempotent (x : string) :
  iiifLabelToString (JStr x) = Ok (trim x)
  /\ iiifLabelToString (JStr (trim x)) = Ok (trim x)
  /\ exists pre post,
       x = (pre ++ trim x ++ post)%string
       /\ allChars isWhiteSpace pre = true
       /\ allChars isWhiteSpace post = true.
Proof.
  split; [ apply iiifLabelToString_string | ].
  split; [ rewrite iiifLabelToString_string, trim_idempotent; reflexivity | ].
  apply trim_split.
Qed.

(** ** The CSL -> Zotero mapping *)

Lemma lowered_type (t : string) :
  callStringMethod toLowerCase (js_or (JStr t) (JStr "")) = Ok (toLowerCase t).
Proof. destruct t; reflexivity. Qed.

(** Apart from the names that [Object.prototype] defines, the item type is
    the one of the table, looked up without regard to case, and [book] for
    every other type. *)
Lemma mapCslTypeToZoteroItemType_table (t : string) :
  existsb (String.eqb (toLowerCase t)) Object_prototype_names = false ->
  mapCslTypeToZoteroItemType (JStr t) = Ok (JStr (itemTypeTable (toLowerCase t))).
Proof.
  intros N. unfold mapCslTypeToZoteroItemType. rewrite lowered_type.
  unfold MAP. cbn [bind get own].
  unfold itemTypeTable, Object_prototype_get. rewrite N.
  rewrite (String.eqb_sym "book"), (String.eqb_sym "article-journal"),
    (String.eqb_sym "manuscript").
  destruct (String.eqb (toLowerCase t) "book"); [ reflexivity | ].
  destruct (String.eqb (toLowerCase t) "article-journal"); [ reflexivity | ].
  destruct (String.eqb (toLowerCase t) "manuscript"); reflexivity.
Qed.

Lemma mapCslTypeToZoteroItemType_missing (v : value) :
  truthy v = false -> mapCslTypeToZoteroItemType v = Ok (JStr "book").
Proof.
  intros F. unfold mapCslTypeToZoteroItemType, js_or. rewrite F. reflexivity.
Qed.

Example itemType_article_journal :
  mapCslTypeToZoteroItemType (JStr "article-journal") = Ok (JStr "journalArticle").
Proof. reflexivity. Qed.

Example itemType_dataset :
  mapCslTypeToZoteroItemType (JStr "dataset") = Ok (JStr "book").
Proof. reflexivity. Qed.

(** C6. The lookup [MAP[t]] also finds what the table inherits from
    [Object.prototype]: for the unmapped type [constructor] the function
    returns the inherited value (the built-in function [Object]), not
    [book]; the same holds for the type [__proto__], in any letter case. *)
Theorem mapCslTypeToZoteroItemType_inherited_key :
  mapCslTypeToZoteroItemType (JStr "constructor") = Ok (JBuiltin "constructor")
  /\ mapCslTypeToZoteroItemType (JStr "Constructor") = Ok (JBuiltin "constructor")
  /\ mapCslTypeToZoteroItemType (JStr "__PROTO__") = Ok (JBuiltin "__proto__")
  /\ mapCslTypeToZoteroItemType (JStr "constructor") <> Ok (JStr "book").
Proof.
  repeat split; try reflexivity. discriminate.
Qed.

Lemma author_loop_spec (authors : list value) :
  forall acc creators,
    author_loop authors acc = Ok creators ->
    exists names,
      Forall2 (fun a n => trimmedNames a = Ok n) authors names
      /\ creators = acc ++ flat_map creatorsOf names.
Proof.
  induction authors as [ | a rest IH]; intros acc creators H; simpl in H.
  - injection H as <-. exists []. split; [ constructor | ].
    simpl. rewrite app_nil_r. reflexivity.
  - bind_inv H.
    assert (N : trimmedNames a = Ok (a0, a1, a2)).
    { unfold trimmedNames. rewrite E, E0, E1. reflexivity. }
    assert (S : exists acc', acc' = acc ++ creatorsOf (a0, a1, a2)
                             /\ author_loop rest acc' = Ok creators).
    { unfold creatorsOf. rewrite orb_comm.
      destruct (nonEmpty a1 || nonEmpty a0).
      - eexists; split; [ reflexivity | exact H ].
      - destruct (nonEmpty a2).
        + eexists; split; [ reflexivity | exact H ].
        + exists acc. rewrite app_nil_r. split; [ reflexivity | exact H ]. }
    destruct S as [acc' [-> L]].
    destruct (IH _ _ L) as [names [F ->]].
    exists ((a0, a1, a2) :: names). split; [ constructor; assumption | ].
    simpl. rewrite app_assoc. reflexivity.
Qed.

Lemma creatorsOf_lastName (n : string * string * string) :
  Forall (fun c => exists firstName lastName,
                     c = creator firstName lastName /\ lastName <> "")
         (creatorsOf n).
Proof.
  destruct n as [[given family] literal]. unfold creatorsOf.
  destruct (nonEmpty given) eqn:G; destruct (nonEmpty family) eqn:F; simpl;
    try (constructor; [ | constructor ]; eexists; eexists;
         split; [ reflexivity | ]; apply nonEmpty_true; assumption).
  destruct (nonEmpty literal) eqn:L; constructor; [ | constructor ].
  eexists; eexists; split; [ reflexivity | ]. apply nonEmpty_true; assumption.
Qed.

(** The loop does not fail on authors whose three names can be read. *)
Lemma author_loop_total (authors : list value) :
  forall acc,
    Forall (fun a => exists n, trimmedNames a = Ok n) authors ->
    exists creators, author_loop authors acc = Ok creators.
Proof.
  induction authors as [ | a rest IH]; intros acc F; simpl.
  - eexists; reflexivity.
  - inversion F as [ | ? ? [n N] F' ]; subst.
    unfold trimmedNames in N. bind_inv N. simpl.
    destruct (nonEmpty a1 || nonEmpty a0); [ apply IH; exact F' | ].
    destruct (nonEmpty a2); apply IH; exact F'.
Qed.

Lemma trimmedField_total (a : value) (k : string) :
  stringField a k = true -> exists s, trimmedField a k = Ok s.
Proof.
  unfold stringField, trimmedField, js_or. destruct (get a k) as [v | e]; [ | discriminate ].
  simpl. destruct (truthy v); simpl; [ | eexists; reflexivity ].
  destruct v; try discriminate. eexists; reflexivity.
Qed.

Lemma trimmedNames_total (a : value) :
  wellTypedAuthor a = true -> exists n, trimmedNames a = Ok n.
Proof.
  unfold wellTypedAuthor, trimmedNames. intros H.
  apply andb_true_iff in H as [H L]. apply andb_true_iff in H as [G F].
  destruct (trimmedField_total _ _ G) as [g ->].
  destruct (trimmedField_total _ _ F) as [f ->].
  destruct (trimmedField_total _ _ L) as [l ->].
  eexists; reflexivity.
Qed.

Lemma trimmedField_text (a : value) (k s : string) :
  trimmedField a k = Ok s ->
  exists v, get a k = Ok v /\ s = nameText v.
Proof.
  unfold trimmedField. intros H. bind_inv H. exists a0. split; [ reflexivity | ].
  unfold js_or in H. destruct (truthy a0) eqn:T.
  - destruct a0; try discriminate H. injection H as <-. reflexivity.
  - injection H as <-.
    destruct a0; try reflexivity. cbn [truthy] in T.
    apply nonEmpty_false in T. rewrite T. reflexivity.
Qed.

Lemma trimmedNames_text (a : value) (n : string * string * string) :
  trimmedNames a = Ok n ->
  exists given family literal,
    get a "given" = Ok given /\ get a "family" = Ok family
    /\ get a "literal" = Ok literal
    /\ n = (nameText given, nameText family, nameText literal).
Proof.
  unfold trimmedNames. intros H. bind_inv H. injection H as <-.
  destruct (trimmedField_text _ _ _ E) as [g [G ->]].
  destruct (trimmedField_text _ _ _ E0) as [f [F ->]].
  destruct (trimmedField_text _ _ _ E1) as [l [L ->]].
  exists g, f, l. auto.
Qed.

Lemma creatorsOf_fields (n : string * string * string) :
  creatorsOf n
  = let '(given, family, literal) := n in
    if nonEmpty given || nonEmpty family
    then [JObj [("creatorType", JStr "author"); ("firstName", JStr given);
                ("lastName", JStr (if nonEmpty family then family else given))]]
    else if nonEmpty literal
         then [JObj [("creatorType", JStr "author"); ("firstName", JStr "");
                     ("lastName", JStr literal)]]
         else [].
Proof.
  destruct n as [[given family] literal]. reflexivity.
Qed.

(** C7. When the names of every author are strings (or missing), the
    creators are returned; and the creators returned are, author by author
    and in the order of the authors, what the trimmed given, family and
    literal names of the author give (each name read with [get]; a missing
    or falsy name counts as empty): when the given or the family name is not
    empty, the one object with [creatorType] [author], the given name as
    [firstName] and the family name (or the given name when there is no
    family name) as [lastName]; else, when the literal name is not empty, the
    one object with an empty [firstName] and the literal name as [lastName];
    else nothing. Every creator has these three properties, and its
    [lastName] is never empty. *)
Theorem mapCslAuthorsToCreators_spec (cslItem : value) (authors : list value) :
  get cslItem "author" = Ok (JArr authors) ->
  (forallb wellTypedAuthor authors = true ->
   exists creators, mapCslAuthorsToCreators cslItem = Ok creators)
  /\ forall creators,
       mapCslAuthorsToCreators cslItem = Ok creators ->
       exists names,
         Forall2 (fun a n => trimmedNames a = Ok n) authors names
         /\ creators = flat_map creatorsOf names
         /\ Forall (fun c => exists firstName lastName,
                               c = creator firstName lastName /\ lastName <> "")
                   creators
         /\ Forall2 (fun a n =>
                       exists given family literal,
                         get a "given" = Ok given /\ get a "family" = Ok family
                         /\ get a "literal" = Ok literal
                         /\ n = (nameText given, nameText family, nameText literal))
                    authors names
         /\ creators
            = flat_map
                (fun n =>
                   let '(given, family, literal) := n in
                   if nonEmpty given || nonEmpty family
                   then [JObj [("creatorType", JStr "author");
                               ("firstName", JStr given);
                               ("lastName",
                                JStr (if nonEmpty family then family else given))]]
                   else if nonEmpty literal
                        then [JObj [("creatorType", JStr "author");
                                    ("firstName", JStr "");
                                    ("lastName", JStr literal)]]
                        else [])
                names
         /\ Forall (fun c =>
                      exists firstName lastName,
                        c = JObj [("creatorType", JStr "author");
                                  ("firstName", JStr firstName);
                                  ("lastName", JStr lastName)]
                        /\ get c "creatorType" = Ok (JStr "author")
                        /\ get c "firstName" = Ok (JStr firstName)
                        /\ get c "lastName" = Ok (JStr lastName)
                        /\ lastName <> "")
                   creators.
Proof.
  intros A. unfold mapCslAuthorsToCreators. rewrite A. simpl. split.
  - intros W. apply author_loop_total.
    rewrite forallb_forall in W. apply Forall_forall.
    intros a I. apply trimmedNames_total, W, I.
  - intros creators H.
    destruct (author_loop_spec _ _ _ H) as [names [F E]]. simpl in E.
    exists names. split; [ exact F | ]. split; [ exact E | ].
    split.
    { subst creators. clear. induction names as [ | n names IH]; simpl.
      + constructor.
      + apply Forall_app. split; [ apply creatorsOf_lastName | exact IH ]. }
    split.
    { clear E H A. induction F as [ | a n authors names N F IH]; constructor.
      - apply trimmedNames_text, N.
      - exact IH. }
    split.
    { rewrite E. apply flat_map_ext. intros n. apply creatorsOf_fields. }
    subst creators. clear. induction names as [ | n names IH]; cbn [flat_map].
    + constructor.
    + apply Forall_app. split; [ | exact IH ].
      rewrite creatorsOf_fields. destruct n as [[given family] literal].
      destruct (nonEmpty given) eqn:G; destruct (nonEmpty family) eqn:F; cbn [orb];
        try (constructor; [ | constructor ]; eexists; eexists;
             split; [ reflexivity | ]; repeat (split; [ reflexivity | ]);
             apply nonEmpty_true; assumption).
      destruct (nonEmpty literal) eqn:L; constructor; [ | constructor ].
      eexists; eexists; split; [ reflexivity | ]. repeat (split; [ reflexivity | ]).
      apply nonEmpty_true; assumption.
Qed.

Lemma own_app (a b : list (string * value)) (k : string) :
  own (a ++ b) k = match own a k with Some v => Some v | None => own b k end.
Proof.
  induction a as [ | [k' v] a IH]; simpl; [ reflexivity | ].
  destruct (String.eqb k' k); [ reflexivity | exact IH ].
Qed.

Lemma own_setIfTruthy (k' k : string) (v : value) :
  own (setIfTruthy k' v) k = if truthy v && String.eqb k' k then Some v else None.
Proof.
  unfold setIfTruthy. destruct (truthy v); simpl; [ | reflexivity ].
  destruct (String.eqb k' k); reflexivity.
Qed.

Lemma issued_needed (cslItem : value) (dateStr : string) :
  mapCslIssuedToZoteroDate cslItem = Ok dateStr ->
  nonEmpty dateStr = true ->
  exists issued, get cslItem "issued" = Ok issued /\ truthy issued = true.
Proof.
  unfold mapCslIssuedToZoteroDate. intros H N. bind_inv H.
  exists a. split; [ reflexivity | ].
  destruct (truthy a); [ reflexivity | ].
  simpl in H. injection H as <-. discriminate N.
Qed.

(** ** Metadata lookup *)

Lemma entry_loop_cons (entry : value) (rest : list value) (keys : list string) :
  entry_loop (entry :: rest) keys =
  (r <- entryValue entry keys ;;
   match r with
   | Some valueStr => Ok valueStr
   | None => entry_loop rest keys
   end).
Proof.
  unfold entryValue. simpl.
  destruct (prop entry "label"); simpl; [ | reflexivity ].
  destruct (iiifLabelToString a); reflexivity.
Qed.

(** The loop over the candidates only asks whether some candidate is the
    label: the value it returns does not depend on which one. *)
Lemma key_loop_spec (entry : value) (labelStr : string) (keys : list string) :
  key_loop entry labelStr keys =
  if labelMatches labelStr keys then
    v <- prop entry "value" ;;
    valueStr <- iiifLabelToString v ;;
    Ok (if nonEmpty valueStr then Some valueStr else None)
  else Ok None.
Proof.
  induction keys as [ | key rest IH]; simpl; [ reflexivity | ].
  destruct (String.eqb (toLowerCase labelStr) (toLowerCase key)); simpl;
    [ | exact IH ].
  destruct (prop entry "value") as [v | e]; simpl; [ | reflexivity ].
  destruct (iiifLabelToString v) as [valueStr | e] eqn:V; simpl; [ | reflexivity ].
  destruct (nonEmpty valueStr) eqn:N; [ reflexivity | ].
  rewrite IH. destruct (labelMatches labelStr rest); [ | reflexivity ].
  simpl. rewrite V. simpl. rewrite N. reflexivity.
Qed.

Lemma labelMatches_In (labelStr : string) (keys : list string) :
  labelMatches labelStr keys = true <->
  exists key, In key keys /\ toLowerCase labelStr = toLowerCase key.
Proof.
  unfold labelMatches. rewrite existsb_exists.
  split; intros [key [I E]]; exists key; split; try exact I;
    apply String.eqb_eq; exact E.
Qed.

Lemma labelMatches_same_names (labelStr : string) (keys keys' : list string) :
  (forall k, In k keys <-> In k keys') ->
  labelMatches labelStr keys' = labelMatches labelStr keys.
Proof.
  intros S.
  destruct (labelMatches labelStr keys) eqn:A.
  - apply labelMatches_In in A as [key [I E]].
    apply labelMatches_In. exists key. split; [ apply S; exact I | exact E ].
  - destruct (labelMatches labelStr keys') eqn:B; [ | reflexivity ].
    apply labelMatches_In in B as [key [I E]].
    assert (T : labelMatches labelStr keys = true).
    { apply labelMatches_In. exists key. split; [ apply S; exact I | exact E ]. }
    congruence.
Qed.

Lemma entryValue_same_names (entry : value) (keys keys' : list string) :
  (forall k, In k keys <-> In k keys') ->
  entryValue entry keys' = entryValue entry keys.
Proof.
  intros S. unfold entryValue.
  destruct (prop entry "label") as [l | e]; simpl; [ | reflexivity ].
  destruct (iiifLabelToString l) as [labelStr | e]; simpl; [ | reflexivity ].
  rewrite !key_loop_spec, (labelMatches_same_names _ _ _ S). reflexivity.
Qed.

Lemma entry_loop_same_names (entries : list value) (keys keys' : list string) :
  (forall k, In k keys <-> In k keys') ->
  entry_loop entries keys' = entry_loop entries keys.
Proof.
  intros S. induction entries as [ | entry rest IH]; [ reflexivity | ].
  rewrite !entry_loop_cons, (entryValue_same_names _ _ _ S), IH. reflexivity.
Qed.

Lemma entry_loop_first (before : list value) :
  forall entry after keys valueStr,
    Forall (fun e => entryValue e keys = Ok None) before ->
    entryValue entry keys = Ok (Some valueStr) ->
    entry_loop (before ++ entry :: after) keys = Ok valueStr.
Proof.
  induction before as [ | e before IH]; intros entry after keys valueStr F H.
  - simpl app. rewrite entry_loop_cons, H. reflexivity.
  - inversion F as [ | ? ? N F' ]; subst.
    simpl app. rewrite entry_loop_cons, N. simpl. apply IH; assumption.
Qed.

Lemma entry_loop_none (entries : list value) (keys : list string) :
  Forall (fun e => entryValue e keys = Ok None) entries ->
  entry_loop entries keys = Ok "".
Proof.
  induction 1 as [ | e entries N F IH]; [ reflexivity | ].
  rewrite entry_loop_cons, N. exact IH.
Qed.

Lemma entryValue_hit (entry : value) (keys : list string) (valueStr : string) :
  entryValue entry keys = Ok (Some valueStr) <->
  exists l labelStr v,
    prop entry "label" = Ok l
    /\ iiifLabelToString l = Ok labelStr
    /\ (exists key, In key keys /\ toLowerCase labelStr = toLowerCase key)
    /\ prop entry "value" = Ok v
    /\ iiifLabelToString v = Ok valueStr
    /\ valueStr <> "".
Proof.
  unfold entryValue. split.
  - intros H. bind_inv H. rewrite key_loop_spec in H.
    destruct (labelMatches a0 keys) eqn:M; [ | discriminate ].
    bind_inv H. destruct (nonEmpty a2) eqn:N; [ | discriminate ].
    injection H as <-.
    exists a, a0, a1. repeat split; try assumption.
    + apply labelMatches_In; exact M.
    + apply nonEmpty_true; exact N.
  - intros [l [labelStr [v [L [LS [M [V [VS N]]]]]]]].
    rewrite L; simpl. rewrite LS; simpl. rewrite key_loop_spec.
    apply labelMatches_In in M. rewrite M, V; simpl. rewrite VS; simpl.
    apply nonEmpty_true in N. rewrite N. reflexivity.
Qed.

(** C3, as the code has it.  The lookup returns the value of the first
    entry, in the order of the metadata, whose normalised label is one of
    the candidate names (letter case apart) and whose normalised value is not
    empty, and the empty string when there is none.  Which entry that is
    does not depend on the order of the candidate names: two candidate lists
    with the same names give the same result. *)
Theorem getFirstMetadataValue_document_order (manifest : value) (keys : list string) :
  (forall keys', (forall k, In k keys <-> In k keys') ->
     getFirstMetadataValue manifest keys' = getFirstMetadataValue manifest keys)
  /\ (forall before entry after valueStr,
        metadataEntries manifest = Ok (before ++ entry :: after) ->
        Forall (fun e => entryValue e keys = Ok None) before ->
        entryValue entry keys = Ok (Some valueStr) ->
        getFirstMetadataValue manifest keys = Ok valueStr)
  /\ (forall entries,
        metadataEntries manifest = Ok entries ->
        Forall (fun e => entryValue e keys = Ok None) entries ->
        getFirstMetadataValue manifest keys = Ok "")
  /\ (forall entry valueStr,
        entryValue entry keys = Ok (Some valueStr) <->
        exists l labelStr v,
          prop entry "label" = Ok l
          /\ iiifLabelToString l = Ok labelStr
          /\ (exists key, In key keys /\ toLowerCase labelStr = toLowerCase key)
          /\ prop entry "value" = Ok v
          /\ iiifLabelToString v = Ok valueStr
          /\ valueStr <> "").
Proof.
  unfold getFirstMetadataValue.
  split; [ | split; [ | split ] ].
  - intros keys' S. destruct (metadataEntries manifest); simpl; [ | reflexivity ].
    apply entry_loop_same_names; exact S.
  - intros before entry after valueStr E F H. rewrite E. simpl.
    apply entry_loop_first; assumption.
  - intros entries E F. rewrite E. simpl. apply entry_loop_none; assumption.
  - intros entry valueStr. apply entryValue_hit.
Qed.

(** C3, as the specification words it, fails: with the metadata [Creator: X],
    [Author: Y] and the candidates [Author], [Creator] the lookup returns
    [X], the value of the entry that comes first in the metadata, and not
    [Y], the value of the entry named by the first candidate. *)
Lemma candidate_priority_does_not_decide : ~ candidate_priority_decides.
Proof.
  intros C.
  specialize (C "Author" "Creator" "Y" "X"
                [plainEntry "Creator" "X"; plainEntry "Author" "Y"]).
  assert (H : getFirstMetadataValue
                (JObj [("metadata",
                        JArr [plainEntry "Creator" "X"; plainEntry "Author" "Y"])])
                ["Author"; "Creator"] = Ok "Y").
  { apply C; try reflexivity; try discriminate. right; reflexivity. }
  vm_compute in H. discriminate H.
Qed.

(** ** Searching with a regular expression *)

Lemma exec_from_eq (r : regex) (prev : option ascii) (s : string) :
  exec_from r prev s =
  match match_here r prev s with
  | Some m => Some m
  | None =>
      match s with
      | EmptyString => None
      | String c s' => exec_from r (Some c) s'
      end
  end.
Proof. destruct s; reflexivity. Qed.

Lemma length_append (a b : string) :
  String.length (a ++ b) = String.length a + String.length b.
Proof. induction a as [ | c a IH]; simpl; [ reflexivity | rewrite IH; reflexivity ]. Qed.

Lemma take_append (a b : string) : take (String.length a) (a ++ b) = a.
Proof. induction a as [ | c a IH]; simpl; [ destruct b | rewrite IH ]; reflexivity. Qed.

Lemma drop_append (a b : string) : drop (String.length a) (a ++ b) = b.
Proof. induction a as [ | c a IH]; simpl; [ reflexivity | exact IH ]. Qed.

(** ** The year of a date string *)

Lemma match_year_here (prev : option ascii) (s : string) :
  match_here RE_YEAR prev s = if isYear (take 4 s) then Some (take 4 s) else None.
Proof.
  unfold match_here.
  destruct s as [ | a [ | b [ | c [ | d s ] ] ] ];
    cbn -[Ascii.eqb isDigit Nat.sub];
    repeat match goal with
           | |- context [Ascii.eqb ?x ?y] => destruct (Ascii.eqb x y)
           | |- context [isDigit ?x] => destruct (isDigit x)
           end; cbn -[Nat.sub]; try reflexivity.
  all: replace (S (S (S (S (String.length s)))) - String.length s) with 4 by lia;
       reflexivity.
Qed.

Lemma isYear_length (y : string) : isYear y = true -> String.length y = 4.
Proof.
  destruct y as [ | a [ | b [ | c [ | d [ | e y ] ] ] ] ]; simpl;
    try discriminate; reflexivity.
Qed.

Lemma exec_year_first (before : string) :
  forall prev rest,
    (forall n, n < String.length before -> yearAt n (before ++ rest) = false) ->
    isYear (take 4 rest) = true ->
    exec_from RE_YEAR prev (before ++ rest) = Some (take 4 rest).
Proof.
  induction before as [ | c before IH]; intros prev rest N Y.
  - simpl append. rewrite exec_from_eq, match_year_here, Y. reflexivity.
  - rewrite exec_from_eq, match_year_here.
    assert (Z : isYear (take 4 (String c before ++ rest)) = false).
    { apply (N 0). simpl; lia. }
    rewrite Z. simpl append. apply IH; [ | exact Y ].
    intros n L. apply (N (S n)). simpl; lia.
Qed.

Lemma exec_year_none (s : string) :
  forall prev,
    (forall n, yearAt n s = false) -> exec_from RE_YEAR prev s = None.
Proof.
  induction s as [ | c s IH]; intros prev N.
  - reflexivity.
  - rewrite exec_from_eq, match_year_here.
    assert (Z : isYear (take 4 (String c s)) = false) by apply (N 0).
    rewrite Z. apply IH. intros n. apply (N (S n)).
Qed.

Lemma yearOrTrimmed_first (before y after : string) :
  isYear y = true ->
  (forall n, n < String.length before -> yearAt n (before ++ y ++ after) = false) ->
  yearOrTrimmed (before ++ y ++ after) = y.
Proof.
  intros Y N. unfold yearOrTrimmed, exec.
  assert (T : take 4 (y ++ after) = y).
  { rewrite <- (isYear_length _ Y). apply take_append. }
  rewrite (exec_year_first before None (y ++ after) N); rewrite T; [ reflexivity | exact Y ].
Qed.

Lemma yearOrTrimmed_none (s : string) :
  (forall n, yearAt n s = false) -> yearOrTrimmed s = trim s.
Proof.
  intros N. unfold yearOrTrimmed, exec. rewrite (exec_year_none s None N). reflexivity.
Qed.

(** C4, as the code has it.  From the date string it has located,
    [extractDate] returns the first year in it, a year being four code
    units [1ddd] or [20dd] wherever they stand (also inside a longer run of
    digits or before a letter); without any, it returns the string trimmed;
    an empty date string gives the empty string. *)
Theorem extractDate_year (manifest : value) (dateStr : string) :
  locateDateString manifest = Ok dateStr ->
  (dateStr = "" -> extractDate manifest = Ok "")
  /\ (forall before y after,
        dateStr = (before ++ y ++ after)%string ->
        isYear y = true ->
        (forall n, n < String.length before -> yearAt n dateStr = false) ->
        extractDate manifest = Ok y)
  /\ (dateStr <> "" ->
      (forall n, yearAt n dateStr = false) ->
      extractDate manifest = Ok (trim dateStr)).
Proof.
  intros L. unfold extractDate. rewrite L. simpl.
  split; [ intros ->; reflexivity | ].
  split.
  - intros before y after E Y N.
    assert (NE : nonEmpty dateStr = true).
    { subst dateStr. destruct before; [ | reflexivity ].
      destruct y; [ discriminate Y | reflexivity ]. }
    rewrite NE. simpl. subst dateStr. rewrite yearOrTrimmed_first; auto.
  - intros NE N. apply nonEmpty_true in NE. rewrite NE. simpl.
    rewrite yearOrTrimmed_none; auto.
Qed.

Example extractDate_printed_in_London :
  extractDate (dated "Printed in London, 1623") = Ok "1623".
Proof. reflexivity. Qed.

Example extractDate_no_year :
  extractDate (dated " circa 16th century ") = Ok "circa 16th century".
Proof. reflexivity. Qed.

(** C4, as the specification words it, fails on its second example: [circa 1600s]
    holds the four digits [1600], which the pattern matches, so the year
    [1600] is returned and not the string itself. *)
Lemma extractDate_circa_1600s :
  extractDate (dated "circa 1600s") = Ok "1600"
  /\ extractDate (dated "circa 1600s") <> Ok (trim "circa 1600s").
Proof. split; [ reflexivity | discriminate ]. Qed.

(** ** Literal words and where they match *)

Lemma Ascii_eqb_eq (a b : ascii) : Ascii.eqb a b = true -> a = b.
Proof. apply Ascii.eqb_eq. Qed.

Lemma rmatch_lit (w : string) :
  forall prev s k,
    rmatch (lit w) prev s k =
    if startsWith w s then k (prevAfter prev w) (drop (String.length w) s)
    else None.
Proof.
  induction w as [ | c w IH]; intros prev s k.
  - reflexivity.
  - cbn [lit rmatch RChar]. destruct s as [ | x s]; [ reflexivity | ].
    cbn [startsWith String.length drop prevAfter].
    destruct (Ascii.eqb c x) eqn:E; [ | reflexivity ].
    apply Ascii_eqb_eq in E; subst x. cbn [andb]. apply IH.
Qed.

Lemma startsWith_iff (w s : string) :
  startsWith w s = true <-> exists post, s = (w ++ post)%string.
Proof.
  revert s. induction w as [ | c w IH]; intros s.
  - simpl. split; [ intros _; exists s; reflexivity | auto ].
  - destruct s as [ | x s]; simpl.
    + split; [ discriminate | intros [post E]; discriminate E ].
    + rewrite andb_true_iff, IH. split.
      * intros [E [post ->]]. apply Ascii_eqb_eq in E; subst. exists post; reflexivity.
      * intros [post E]. injection E as -> ->. split; [ apply Ascii.eqb_refl | ].
        exists post; reflexivity.
Qed.

Lemma match_here_None (r : regex) (prev : option ascii) (s : string) :
  match_here r prev s = None <-> rmatch r prev s done = None.
Proof.
  unfold match_here. destruct (rmatch r prev s done); split; congruence.
Qed.

(** A search fails exactly when the expression matches at no index. *)
Lemma exec_from_None (r : regex) (s : string) :
  forall prev,
    exec_from r prev s = None <->
    forall pre post, s = (pre ++ post)%string ->
                     rmatch r (prevAfter prev pre) post done = None.
Proof.
  induction s as [ | c s IH]; intros prev; rewrite exec_from_eq.
  - split.
    + intros H pre post E. destruct pre; [ | discriminate E ].
      simpl in E; subst post. simpl. apply match_here_None.
      destruct (match_here r prev ""); congruence.
    + intros H. rewrite (proj2 (match_here_None r prev "") (H "" "" eq_refl)).
      reflexivity.
  - split.
    + intros H pre post E.
      destruct (match_here r prev (String c s)) eqn:M; [ discriminate H | ].
      destruct pre as [ | x pre]; simpl in E.
      * subst post. simpl. apply match_here_None; exact M.
      * injection E as <- E. simpl. apply (proj1 (IH (Some c)) H); exact E.
    + intros H.
      rewrite (proj2 (match_here_None r prev _) (H "" _ eq_refl)).
      apply IH. intros pre post E. apply (H (String c pre) post).
      simpl; rewrite E; reflexivity.
Qed.

Lemma test_true (r : regex) (s : string) :
  test r s = true <->
  exists pre post, s = (pre ++ post)%string
                   /\ rmatch r (prevAfter None pre) post done <> None.
Proof.
  unfold test, exec. split.
  - intros H.
    destruct (exec_from r None s) eqn:E; [ | discriminate H ].
    assert (N : ~ (forall pre post, s = (pre ++ post)%string ->
                                    rmatch r (prevAfter None pre) post done = None)).
    { intros A. apply exec_from_None in A. congruence. }
    clear H E.
    (* the search is decidable: look for the index *)
    assert (D : forall s prev,
               (forall pre post, s = (pre ++ post)%string ->
                                 rmatch r (prevAfter prev pre) post done = None)
               \/ exists pre post, s = (pre ++ post)%string
                                   /\ rmatch r (prevAfter prev pre) post done <> None).
    { clear. induction s as [ | c s IH]; intros prev.
      - destruct (rmatch r prev "" done) eqn:M.
        + right. exists "", "". split; [ reflexivity | simpl; congruence ].
        + left. intros pre post E. destruct pre; [ | discriminate E ].
          simpl in E; subst post. exact M.
      - destruct (rmatch r prev (String c s) done) eqn:M.
        + right. exists "", (String c s). split; [ reflexivity | simpl; congruence ].
        + destruct (IH (Some c)) as [A | [pre [post [E A]]]].
          * left. intros pre post E. destruct pre as [ | x pre]; simpl in E.
            -- subst post. exact M.
            -- injection E as <- E. simpl. apply A; exact E.
          * right. exists (String c pre), post. split; [ simpl; rewrite E; reflexivity | exact A ]. }
    destruct (D s None) as [A | A]; [ contradiction | exact A ].
  - intros [pre [post [E N]]].
    destruct (exec_from r None s) eqn:X; [ reflexivity | ].
    exfalso. apply N. apply (proj1 (exec_from_None r s None) X); exact E.
Qed.

Lemma test_false (r : regex) (s : string) :
  test r s = false <->
  forall pre post, s = (pre ++ post)%string ->
                   rmatch r (prevAfter None pre) post done = None.
Proof.
  unfold test, exec. rewrite <- exec_from_None.
  destruct (exec_from r None s); split; congruence.
Qed.

(** ** Type inference *)

Lemma article_here (prev : option ascii) (post : string) :
  rmatch RE_ARTICLE prev post done <> None <->
  startsWith "article" post = true \/ startsWith "journal" post = true
  \/ startsWith "periodical" post = true.
Proof.
  unfold RE_ARTICLE. cbn [rmatch]. rewrite !rmatch_lit. unfold done.
  destruct (startsWith "article" post), (startsWith "journal" post),
    (startsWith "periodical" post); intuition congruence.
Qed.

Lemma manuscript_here (prev : option ascii) (post : string) :
  rmatch RE_MANUSCRIPT prev post done <> None <->
  startsWith "manuscript" post = true \/ startsWith "codex" post = true
  \/ (startsWith "ms" post = true /\ isWordAt (drop 2 post) = false).
Proof.
  unfold RE_MANUSCRIPT. cbn [rmatch]. rewrite !rmatch_lit. unfold done.
  cbn [prevAfter String.length].
  replace (isWordBefore (Some "s"%char)) with true by reflexivity.
  destruct (startsWith "manuscript" post), (startsWith "codex" post),
    (startsWith "ms" post), (isWordAt (drop 2 post)); simpl;
    intuition congruence.
Qed.

Lemma contains_here (w s : string) :
  contains w s <-> exists pre post, s = (pre ++ post)%string /\ startsWith w post = true.
Proof.
  unfold contains. split.
  - intros [pre [post ->]]. exists pre, (w ++ post)%string.
    split; [ reflexivity | apply startsWith_iff; exists post; reflexivity ].
  - intros [pre [post [-> S]]]. apply startsWith_iff in S as [rest ->].
    exists pre, rest; reflexivity.
Qed.

Lemma containsAtWordEnd_here (w s : string) :
  containsAtWordEnd w s <->
  exists pre post, s = (pre ++ post)%string /\ startsWith w post = true
                   /\ isWordAt (drop (String.length w) post) = false.
Proof.
  unfold containsAtWordEnd. split.
  - intros [pre [post [-> B]]]. exists pre, (w ++ post)%string.
    split; [ reflexivity | ]. split.
    + apply startsWith_iff; exists post; reflexivity.
    + rewrite drop_append. exact B.
  - intros [pre [post [-> [S B]]]]. apply startsWith_iff in S as [rest ->].
    rewrite drop_append in B. exists pre, rest. split; [ reflexivity | exact B ].
Qed.

Lemma test_RE_ARTICLE (haystack : string) :
  test RE_ARTICLE haystack = true <-> articleWord haystack.
Proof.
  rewrite test_true. unfold articleWord. rewrite !contains_here. split.
  - intros [pre [post [E H]]]. apply article_here in H.
    destruct H as [H | [H | H]]; [ left | right; left | right; right ];
      exists pre, post; auto.
  - intros [H | [H | H]]; destruct H as [pre [post [E H]]];
      exists pre, post; (split; [ exact E | ]); apply article_here; auto.
Qed.

Lemma test_RE_MANUSCRIPT (haystack : string) :
  test RE_MANUSCRIPT haystack = true <-> manuscriptWord haystack.
Proof.
  rewrite test_true. unfold manuscriptWord.
  rewrite !contains_here, containsAtWordEnd_here. split.
  - intros [pre [post [E H]]]. apply manuscript_here in H.
    destruct H as [H | [H | H]]; [ left | right; left | right; right ];
      exists pre, post; auto.
  - intros [H | [H | H]]; destruct H as [pre [post [E H]]];
      exists pre, post; (split; [ exact E | ]); apply manuscript_here; auto.
Qed.

Lemma toLowerCase_append (a b : string) :
  toLowerCase (a ++ b) = (toLowerCase a ++ toLowerCase b)%string.
Proof. induction a as [ | c a IH]; simpl; [ reflexivity | rewrite IH; reflexivity ]. Qed.

(** C5, as the code has it.  The haystack is the lower-cased label, a space,
    and the non-empty ones of the description and the [Type] metadata value
    joined by a space.  The type is [manuscript] when the haystack holds
    [manuscript], [codex], or [ms] with no word character after it; else
    [article-journal] when it holds [article], [journal] or [periodical];
    else [book].  A label that holds [manuscript] therefore gives
    [manuscript], whatever else it holds. *)
Theorem inferTypeFromMetadata_rules (manifest : value) (haystack : string) :
  typeHaystack manifest = Ok haystack ->
  (exists label desc ty,
     manifestLabel manifest = Ok label
     /\ (d <- prop manifest "description" ;; iiifLabelToString d) = Ok desc
     /\ getFirstMetadataValue manifest ["Type"; "type"] = Ok ty
     /\ haystack = toLowerCase (label ++ " " ++ join " " (filter nonEmpty [desc; ty])))
  /\ (manuscriptWord haystack -> inferTypeFromMetadata manifest = Ok "manuscript")
  /\ (~ manuscriptWord haystack -> articleWord haystack ->
      inferTypeFromMetadata manifest = Ok "article-journal")
  /\ (~ manuscriptWord haystack -> ~ articleWord haystack ->
      inferTypeFromMetadata manifest = Ok "book")
  /\ (forall label,
        manifestLabel manifest = Ok label ->
        contains "manuscript" (toLowerCase label) ->
        inferTypeFromMetadata manifest = Ok "manuscript").
Proof.
  intros H.
  assert (M : manuscriptWord haystack -> inferTypeFromMetadata manifest = Ok "manuscript").
  { intros W. unfold inferTypeFromMetadata. rewrite H. simpl.
    apply test_RE_MANUSCRIPT in W. rewrite W. reflexivity. }
  assert (C : exists label desc ty,
     manifestLabel manifest = Ok label
     /\ (d <- prop manifest "description" ;; iiifLabelToString d) = Ok desc
     /\ getFirstMetadataValue manifest ["Type"; "type"] = Ok ty
     /\ haystack = toLowerCase (label ++ " " ++ join " " (filter nonEmpty [desc; ty]))).
  { unfold typeHaystack in H. bind_inv H. injection H as <-.
    exists a, a1, a2. simpl. rewrite E1. auto. }
  split; [ exact C | ]. split; [ exact M | ].
  split; [ | split ].
  - intros NM A. unfold inferTypeFromMetadata. rewrite H. simpl.
    destruct (test RE_MANUSCRIPT haystack) eqn:T.
    + exfalso. apply NM. apply test_RE_MANUSCRIPT; exact T.
    + apply test_RE_ARTICLE in A. rewrite A. reflexivity.
  - intros NM NA. unfold inferTypeFromMetadata. rewrite H. simpl.
    destruct (test RE_MANUSCRIPT haystack) eqn:T.
    + exfalso. apply NM. apply test_RE_MANUSCRIPT; exact T.
    + destruct (test RE_ARTICLE haystack) eqn:A; [ | reflexivity ].
      exfalso. apply NA. apply test_RE_ARTICLE; exact A.
  - intros label L [pre [post W]]. apply M. left.
    destruct C as [label' [desc [ty [L' [_ [_ ->]]]]]].
    assert (label' = label) by congruence. subst label'.
    rewrite toLowerCase_append, W.
    exists pre, (post ++ toLowerCase (" " ++ join " " (filter nonEmpty [desc; ty])))%string.
    rewrite !append_assoc. reflexivity.
Qed.

Example inferType_manuscript_and_journal :
  inferTypeFromMetadata (JObj [("label", JStr "A Manuscript Journal")])
  = Ok "manuscript".
Proof. reflexivity. Qed.

Example inferType_poems :
  inferTypeFromMetadata (JObj [("label", JStr "Poems")]) = Ok "manuscript".
Proof. reflexivity. Qed.

(** C5, as the specification words it, fails: the haystack of the label [Hamster]
    holds [ms], so the pattern [manuscript|codex|ms] matches it, but a word
    character follows and the code infers [book]. *)
Lemma inferType_hamster :
  typeHaystack (JObj [("label", JStr "Hamster")]) = Ok "hamster "
  /\ test RE_MANUSCRIPT_AS_SPECIFIED "hamster " = true
  /\ inferTypeFromMetadata (JObj [("label", JStr "Hamster")]) = Ok "book"
  /\ inferTypeFromMetadata (JObj [("label", JStr "Hamster")]) <> Ok "manuscript".
Proof. repeat split; try reflexivity. discriminate. Qed.

(** ** The parent directory of a path *)

Lemma splitChar_not_nil (sep : ascii) (s : string) : splitChar sep s <> [].
Proof.
  induction s as [ | c s IH]; simpl; [ discriminate | ].
  destruct (Ascii.eqb c sep); [ discriminate | ].
  destruct (splitChar sep s); discriminate.
Qed.

Lemma splitChar_append (sep : ascii) (a b : string) :
  splitChar sep (a ++ String sep b) = splitChar sep a ++ splitChar sep b.
Proof.
  induction a as [ | c a IH]; simpl.
  - rewrite Ascii.eqb_refl. reflexivity.
  - rewrite IH. destruct (Ascii.eqb c sep); [ reflexivity | ].
    pose proof (splitChar_not_nil sep a) as N.
    destruct (splitChar sep a); [ contradiction | reflexivity ].
Qed.

Lemma splitChar_segment (s : string) :
  allChars notSlash s = true -> splitChar "/" s = [s].
Proof.
  induction s as [ | c s IH]; simpl; [ reflexivity | ].
  unfold notSlash at 1. intros H. apply andb_true_iff in H as [C R].
  apply negb_true_iff in C. rewrite C, (IH R). reflexivity.
Qed.

Lemma join_splitChar (sep : ascii) (s : string) :
  join (String sep "") (splitChar sep s) = s.
Proof.
  induction s as [ | c s IH]; [ reflexivity | ].
  pose proof (splitChar_not_nil sep s) as N.
  cbn [splitChar]. destruct (Ascii.eqb c sep) eqn:E.
  - apply Ascii_eqb_eq in E; subst c.
    destruct (splitChar sep s) as [ | p ps]; [ contradiction | ].
    cbn [join]. cbn [join] in IH. rewrite IH. reflexivity.
  - destruct (splitChar sep s) as [ | p ps]; [ contradiction | ].
    destruct ps; cbn [join] in *; rewrite <- IH; reflexivity.
Qed.

Lemma long_enough (l : list string) (x : string) :
  l <> [] -> Nat.ltb 1 (List.length (l ++ [x])) = true.
Proof.
  intros N. apply Nat.ltb_lt. rewrite length_app. simpl.
  destruct l; [ contradiction | simpl; lia ].
Qed.

Lemma parentPathname_segment (dir segment : string) :
  allChars notSlash segment = true -> segment <> "" ->
  parentPathname (dir ++ "/" ++ segment) = withLeadingSlash dir.
Proof.
  intros S N. unfold parentPathname.
  change (dir ++ "/" ++ segment)%string with (dir ++ String "/" segment)%string.
  rewrite splitChar_append, (splitChar_segment _ S).
  pose proof (splitChar_not_nil "/" dir) as D.
  rewrite (long_enough _ _ D), last_last.
  apply nonEmpty_true in N. destruct segment; [ discriminate N | ].
  cbn [String.eqb andb]. rewrite (long_enough _ _ D), removelast_last.
  rewrite join_splitChar. reflexivity.
Qed.

Lemma parentPathname_segment_slash (dir segment : string) :
  allChars notSlash segment = true -> segment <> "" ->
  parentPathname (dir ++ "/" ++ segment ++ "/") = withLeadingSlash dir.
Proof.
  intros S N. unfold parentPathname.
  replace (dir ++ "/" ++ segment ++ "/")%string
    with ((dir ++ String "/" segment) ++ String "/" "")%string
    by (rewrite append_assoc; reflexivity).
  rewrite !splitChar_append, (splitChar_segment _ S).
  pose proof (splitChar_not_nil "/" dir) as D.
  assert (D' : splitChar "/" dir ++ [segment] <> []).
  { destruct (splitChar "/" dir); discriminate. }
  cbn [splitChar].
  rewrite (long_enough _ _ D'), last_last. cbn [String.eqb andb].
  rewrite removelast_last, (long_enough _ _ D), removelast_last.
  rewrite join_splitChar. reflexivity.
Qed.

Lemma splitChar_join (segments : list string) :
  segments <> [] ->
  Forall (fun x => allChars notSlash x = true) segments ->
  splitChar "/" (join "/" segments) = segments.
Proof.
  induction segments as [ | x rest IH]; intros N F; [ contradiction | ].
  inversion F as [ | ? ? Fx Fr ]; subst.
  destruct rest as [ | y rest].
  - simpl. apply splitChar_segment; exact Fx.
  - change (join "/" (x :: y :: rest)) with (x ++ String "/" (join "/" (y :: rest)))%string.
    rewrite splitChar_append, (splitChar_segment _ Fx), IH;
      [ reflexivity | discriminate | exact Fr ].
Qed.

Lemma join_after_root (l : list string) :
  (if startsWith "/" (join "/" ("" :: l)) then join "/" ("" :: l)
   else ("/" ++ join "/" ("" :: l))%string)
  = ("/" ++ join "/" l)%string.
Proof. destruct l as [ | x l]; reflexivity. Qed.

Lemma last_cons_nonempty (x : string) (l : list string) (d : string) :
  l <> [] -> List.last (x :: l) d = List.last l d.
Proof. destruct l; [ contradiction | reflexivity ]. Qed.

Lemma removelast_cons_nonempty (x : string) (l : list string) :
  l <> [] -> removelast (x :: l) = x :: removelast l.
Proof. destruct l; [ contradiction | reflexivity ]. Qed.

Lemma ltb_1_cons (x : string) (l : list string) :
  Nat.ltb 1 (List.length (x :: l)) = match l with [] => false | _ => true end.
Proof. destruct l; reflexivity. Qed.

(** The parent of any absolute path, segment by segment. *)
Lemma parentPathname_segments (segments : list string) :
  segments <> [] ->
  Forall (fun x => allChars notSlash x = true) segments ->
  parentPathname ("/" ++ join "/" segments)
  = ("/" ++ join "/" (removelast (dropTrailingEmpty segments)))%string.
Proof.
  intros N F. unfold parentPathname.
  change ("/" ++ join "/" segments)%string with (String "/" (join "/" segments)).
  cbn [splitChar]. rewrite Ascii.eqb_refl, (splitChar_join _ N F).
  rewrite ltb_1_cons, (last_cons_nonempty _ _ _ N). unfold dropTrailingEmpty.
  destruct segments as [ | s0 rest]; [ contradiction | ].
  cbn [andb]. destruct (String.eqb (List.last (s0 :: rest) "x") "").
  - rewrite removelast_cons_nonempty by discriminate. rewrite ltb_1_cons.
    destruct (removelast (s0 :: rest)) as [ | s1 r1] eqn:R.
    + reflexivity.
    + rewrite removelast_cons_nonempty by discriminate. apply join_after_root.
  - rewrite ltb_1_cons, removelast_cons_nonempty by discriminate.
    apply join_after_root.
Qed.

(** C9.  When the URL constructor rejects the string, the string is returned
    as it is.  Otherwise the query and the fragment are set to the empty
    string and the path is replaced by its parent: a path that ends in a
    segment, with or without a slash after it, loses that segment and the
    slash before it (a leading slash is kept or put back), and the root path
    stays the root; in general an absolute path loses the empty segment
    that a trailing slash leaves and then its last segment. *)
Theorem trimManifestDirectory_spec {P : Platform} (manifestUrl : string) :
  (URL_new manifestUrl = None -> trimManifestDirectory manifestUrl = manifestUrl)
  /\ (forall u,
        manifestUrl <> "" -> URL_new manifestUrl = Some u ->
        trimManifestDirectory manifestUrl =
        URL_toString
          (URL_set_pathname (URL_set_hash (URL_set_search u "") "")
             (parentPathname
                (URL_pathname (URL_set_hash (URL_set_search u "") "")))))
  /\ (forall dir segment,
        allChars notSlash segment = true -> segment <> "" ->
        parentPathname (dir ++ "/" ++ segment) = withLeadingSlash dir
        /\ parentPathname (dir ++ "/" ++ segment ++ "/") = withLeadingSlash dir)
  /\ parentPathname "/" = "/"
  /\ (forall segments,
        segments <> [] ->
        Forall (fun x => allChars notSlash x = true) segments ->
        parentPathname ("/" ++ join "/" segments)
        = ("/" ++ join "/" (removelast (dropTrailingEmpty segments)))%string).
Proof.
  split; [ | split; [ | split; [ | split ] ] ].
  - intros N. unfold trimManifestDirectory.
    destruct (nonEmpty manifestUrl) eqn:E; simpl.
    + rewrite N. reflexivity.
    + apply nonEmpty_false in E. subst. reflexivity.
  - intros u N U. unfold trimManifestDirectory.
    apply nonEmpty_true in N. rewrite N, U. reflexivity.
  - intros dir segment S N. split.
    + apply parentPathname_segment; assumption.
    + apply parentPathname_segment_slash; assumption.
  - reflexivity.
  - apply parentPathname_segments.
Qed.

(** On the reference platform the result is the origin and the parent path:
    neither query nor fragment is left. *)
Lemma trimManifestDirectory_reference (manifestUrl : string) (u : Reference.RefURL) :
  Reference.parseURL manifestUrl = Some u ->
  trimManifestDirectory (P := Reference.platform) manifestUrl
  = (Reference.origin u ++ parentPathname (Reference.pathname u))%string.
Proof.
  intros U. unfold trimManifestDirectory.
  destruct (nonEmpty manifestUrl) eqn:N; cbn [negb].
  - cbn [URL_new Reference.platform]. rewrite U.
    cbn [URL_toString URL_set_pathname URL_set_hash URL_set_search URL_pathname
         Reference.platform].
    unfold Reference.href, Reference.setPathname, Reference.setHash, Reference.setSearch.
    cbn [Reference.origin Reference.pathname Reference.search Reference.hash nonEmpty].
    assert (S : startsWith "/" (parentPathname (Reference.pathname u)) = true).
    { unfold parentPathname. cbv zeta.
      match goal with
      | |- startsWith "/" (if startsWith "/" ?x then _ else _) = true =>
          destruct (startsWith "/" x) eqn:E; [ exact E | reflexivity ]
      end. }
    rewrite S, !append_empty_r. reflexivity.
  - apply nonEmpty_false in N. subst manifestUrl. discriminate U.
Qed.

Example trimManifestDirectory_manifest_json :
  trimManifestDirectory (P := Reference.platform)
    "https://example.org/iiif/book1/manifest.json?x=1#top"
  = "https://example.org/iiif/book1".
Proof. reflexivity. Qed.

Example trimManifestDirectory_trailing_slash :
  trimManifestDirectory (P := Reference.platform) "https://example.org/iiif/book1/"
  = "https://example.org/iiif".
Proof. reflexivity. Qed.

Example trimManifestDirectory_relative :
  trimManifestDirectory (P := Reference.platform) "iiif/book1/manifest.json"
  = "iiif/book1/manifest.json".
Proof. reflexivity. Qed.

Lemma trimManifestDirectory_spec_witness :
  Reference.parseURL "iiif/book1/manifest.json" = None
  /\ trimManifestDirectory (P := Reference.platform) "iiif/book1/manifest.json"
     = "iiif/book1/manifest.json"
  /\ parentPathname ("/iiif/book1" ++ "/" ++ "manifest.json") = "/iiif/book1".
Proof.
  split; [ reflexivity | ]. split.
  - apply (proj1 (trimManifestDirectory_spec (P := Reference.platform)
                    "iiif/book1/manifest.json")).
    reflexivity.
  - apply (proj1 (proj1 (proj2 (proj2 (trimManifestDirectory_spec
                    (P := Reference.platform) "")))
                    "/iiif/book1" "manifest.json" eq_refl
                    ltac:(discriminate))).
Defined.

(** ** The retrieval loop *)

Section Retrieval.

Context {P : Platform}.

Lemma fetchManifest_world (url : string) (w : World) :
  snd (fetchManifest url w) = snd (fetch url w).
Proof.
  unfold fetchManifest. destruct (fetch url w) as [res w']. simpl.
  destruct res as [ | ok status text]; [ reflexivity | ].
  destruct (negb ok); [ reflexivity | ].
  destruct (negb (looksLikeIIIFManifest text)); [ reflexivity | ].
  destruct (JSON_parse text); reflexivity.
Qed.

Lemma flat_map_shift {A : Type} (f : nat -> list A) (l : list nat) :
  flat_map f (map S l) = flat_map (fun i => f (S i)) l.
Proof. induction l as [ | x l IH]; simpl; [ reflexivity | rewrite IH; reflexivity ]. Qed.

Lemma filter_shift (f : nat -> bool) (l : list nat) :
  filter f (map S l) = map S (filter (fun i => f (S i)) l).
Proof.
  induction l as [ | x l IH]; simpl; [ reflexivity | ].
  destruct (f (S x)); simpl; rewrite IH; reflexivity.
Qed.

Lemma recordAt_next (url : string) (rest : list string) (w : World) (i : nat) :
  recordAt (url :: rest) w (S i)
  = recordAt rest (if nonEmpty url then snd (fetch url w) else w) i.
Proof.
  unfold recordAt. cbn [nth firstn worldAfter].
  destruct (nonEmpty url); reflexivity.
Qed.

Lemma recordAt_first (url : string) (rest : list string) (w : World) :
  recordAt (url :: rest) w 0 = if nonEmpty url then recordOf url w else None.
Proof. reflexivity. Qed.

Lemma failedAt_next (url : string) (rest : list string) (w : World) (i : nat) :
  failedAt (url :: rest) w (S i)
  = failedAt rest (if nonEmpty url then snd (fetch url w) else w) i.
Proof. unfold failedAt. rewrite recordAt_next. reflexivity. Qed.

Lemma url_loop_cons (url : string) (rest : list string) (st : LoopState) :
  url_loop (url :: rest) st = url_loop rest (turn url st).
Proof.
  unfold turn. cbn [url_loop]. destruct (negb (nonEmpty url)); [ reflexivity | ].
  destruct (fetchManifest url (world st)) as [[manifest | f] w']; [ | reflexivity ].
  destruct (manifestToCSLItem manifest url); reflexivity.
Qed.

Lemma turn_spec (url : string) (st : LoopState) :
  items (turn url st)
  = items st ++ contribution (if nonEmpty url then recordOf url (world st) else None)
  /\ world (turn url st) = (if nonEmpty url then snd (fetch url (world st)) else world st)
  /\ map fst (diagnostics (turn url st))
     = map fst (diagnostics st)
       ++ (if nonEmpty url
              && match recordOf url (world st) with Some _ => false | None => true end
           then [url] else []).
Proof.
  unfold turn, recordOf. cbn [url_loop].
  destruct (nonEmpty url); cbn [negb andb contribution].
  - pose proof (fetchManifest_world url (world st)) as W.
    destruct (fetchManifest url (world st)) as [[manifest | f] w']; cbn [fst snd] in *.
    + destruct (manifestToCSLItem manifest url); cbn [items world diagnostics contribution];
        rewrite ?map_app, ?app_nil_r; auto.
    + cbn [items world diagnostics contribution]. rewrite map_app, app_nil_r. auto.
  - rewrite !app_nil_r. auto.
Qed.

Lemma seq_first (n : nat) : seq 0 (S n) = 0 :: map S (seq 0 n).
Proof. rewrite seq_shift. reflexivity. Qed.

(** The invariant of the loop, from any state it is entered in. *)
Lemma url_loop_spec (urls : list string) :
  forall st,
    items (url_loop urls st)
    = items st
      ++ flat_map (fun i => contribution (recordAt urls (world st) i))
           (seq 0 (List.length urls))
    /\ world (url_loop urls st) = worldAfter urls (world st)
    /\ map fst (diagnostics (url_loop urls st))
       = map fst (diagnostics st)
         ++ map (fun i => nth i urls "")
              (filter (failedAt urls (world st)) (seq 0 (List.length urls))).
Proof.
  induction urls as [ | url rest IH]; intros st.
  - simpl. rewrite !app_nil_r. auto.
  - rewrite url_loop_cons.
    destruct (IH (turn url st)) as [I [W D]].
    destruct (turn_spec url st) as [TI [TW TD]].
    rewrite I, W, D, TI, TW, TD. clear I W D TI TW TD.
    cbn [List.length worldAfter]. rewrite seq_first.
    cbn [flat_map filter]. rewrite flat_map_shift, filter_shift.
    rewrite recordAt_first. unfold failedAt at 2. rewrite recordAt_first.
    change (nth 0 (url :: rest) "") with url.
    split; [ | split ].
    + rewrite <- app_assoc. f_equal. f_equal.
      apply flat_map_ext. intros i. rewrite recordAt_next. reflexivity.
    + destruct (nonEmpty url); reflexivity.
    + rewrite <- app_assoc. f_equal.
      assert (R : map (fun i => nth i (url :: rest) "")
                    (map S (filter (fun i => failedAt (url :: rest) (world st) (S i))
                              (seq 0 (List.length rest))))
                  = map (fun i => nth i rest "")
                      (filter (failedAt rest
                                 (if nonEmpty url then snd (fetch url (world st))
                                  else world st))
                         (seq 0 (List.length rest)))).
      { rewrite map_map. cbn [nth]. f_equal.
        apply filter_ext. intros i. apply failedAt_next. }
      destruct (nonEmpty url); cbn [andb].
      * destruct (recordOf url (world st)); cbn [map app]; rewrite R; reflexivity.
      * cbn [map app]. rewrite R. reflexivity.
Qed.

Lemma loop_from_start (urls : list string) (w : World) :
  items (iiifManifestUrlsToCSL urls w)
  = flat_map (fun i => contribution (recordAt urls w i)) (seq 0 (List.length urls))
  /\ world (iiifManifestUrlsToCSL urls w) = worldAfter urls w
  /\ map fst (diagnostics (iiifManifestUrlsToCSL urls w))
     = map (fun i => nth i urls "")
         (filter (failedAt urls w) (seq 0 (List.length urls))).
Proof.
  unfold iiifManifestUrlsToCSL.
  destruct (url_loop_spec urls {| items := []; diagnostics := []; world := w |})
    as [I [W D]].
  cbn [items world diagnostics app map] in *. auto.
Qed.

(** What a URL contributes, read off the answer of the network: a record
    exactly when the request is answered with a success status, the body
    passes the sniff test and parses, and the conversion does not throw. *)
Lemma recordOf_cases (url : string) (w : World) :
  recordOf url w =
  match fst (fetch url w) with
  | NetworkFailure => None
  | HttpResponse ok _ text =>
      if ok && looksLikeIIIFManifest text then
        match JSON_parse text with
        | Some manifest =>
            match manifestToCSLItem manifest url with
            | Ok item => Some item
            | Throw _ => None
            end
        | None => None
        end
      else None
  end.
Proof.
  unfold recordOf, fetchManifest. destruct (fetch url w) as [res w']. cbn [fst].
  destruct res as [ | ok status text]; [ reflexivity | ].
  destruct ok; cbn [negb andb fst]; [ | reflexivity ].
  destruct (looksLikeIIIFManifest text); cbn [negb fst]; [ | reflexivity ].
  destruct (JSON_parse text); reflexivity.
Qed.

(** C1.  The records returned are, index by index and in the order of the
    input, the records of the URLs that are not empty and whose retrieval and
    conversion succeed, each retrieved in the network state that the
    requests for the non-empty URLs before it leave; every non-empty URL is
    requested, whatever happened to the ones before it; the URLs that fail
    are exactly the ones that get a diagnostic, in the order of the input.
    A URL has a record exactly when the request is answered with a success
    status, the body passes the sniff test and parses, and the conversion
    does not throw. *)
Theorem iiifManifestUrlsToCSL_spec (urls : list string) (w : World) :
  items (iiifManifestUrlsToCSL urls w)
  = flat_map (fun i => contribution (recordAt urls w i)) (seq 0 (List.length urls))
  /\ world (iiifManifestUrlsToCSL urls w) = worldAfter urls w
  /\ map fst (diagnostics (iiifManifestUrlsToCSL urls w))
     = map (fun i => nth i urls "")
         (filter (failedAt urls w) (seq 0 (List.length urls)))
  /\ forall url w',
       recordOf url w' =
       match fst (fetch url w') with
       | NetworkFailure => None
       | HttpResponse ok _ text =>
           if ok && looksLikeIIIFManifest text then
             match JSON_parse text with
             | Some manifest =>
                 match manifestToCSLItem manifest url with
                 | Ok item => Some item
                 | Throw _ => None
                 end
             | None => None
             end
           else None
       end.
Proof.
  destruct (loop_from_start urls w) as [I [W D]].
  split; [ exact I | ]. split; [ exact W | ]. split; [ exact D | ].
  apply recordOf_cases.
Qed.

(** Three URLs of which the second fails give the records of the first and
    of the third, in this order, and one diagnostic. *)
Corollary iiifManifestUrlsToCSL_one_failure
    (a b c : string) (w : World) (itemA itemC : value) :
  recordAt [a; b; c] w 0 = Some itemA ->
  nonEmpty b = true -> recordAt [a; b; c] w 1 = None ->
  recordAt [a; b; c] w 2 = Some itemC ->
  items (iiifManifestUrlsToCSL [a; b; c] w) = [itemA; itemC]
  /\ map fst (diagnostics (iiifManifestUrlsToCSL [a; b; c] w)) = [b].
Proof.
  intros A NB B C.
  destruct (loop_from_start [a; b; c] w) as [I [_ D]].
  rewrite I, D. cbn [List.length seq flat_map filter map].
  unfold failedAt. rewrite A, B, C. cbn [nth]. rewrite NB.
  rewrite !andb_false_r. cbn [andb contribution app map]. auto.
Qed.

End Retrieval.

Example pipeline_A_404_C :
  let st := iiifManifestUrlsToCSL (P := Reference.platform)
              [Reference.urlA; Reference.urlB; Reference.urlC] [] in
  map (fun item => get item "title") (items st)
  = [Ok (JStr "Book A"); Ok (JStr "Codex C")]
  /\ diagnostics st = [(Reference.urlB, HttpStatus 404)]
  /\ world st = [Reference.urlA; Reference.urlB; Reference.urlC].
Proof. vm_compute. auto. Qed.

Lemma iiifManifestUrlsToCSL_spec_witness :
  map (fun item => get item "title")
    (items (iiifManifestUrlsToCSL (P := Reference.platform)
              [Reference.urlA; Reference.urlB; Reference.urlC] []))
  = [Ok (JStr "Book A"); Ok (JStr "Codex C")]
  /\ world (iiifManifestUrlsToCSL (P := Reference.platform)
              [Reference.urlA; Reference.urlB; Reference.urlC] [])
     = [Reference.urlA; Reference.urlB; Reference.urlC].
Proof.
  destruct (iiifManifestUrlsToCSL_spec (P := Reference.platform)
              [Reference.urlA; Reference.urlB; Reference.urlC] [])
    as [I [W _]].
  rewrite I, W. split; reflexivity.
Defined.

Example pipeline_every_failure :
  let st := iiifManifestUrlsToCSL (P := Reference.platform)
              [""; Reference.urlD; Reference.urlE; "https://unreachable.example/";
               Reference.urlC] [] in
  map (fun item => get item "title") (items st) = [Ok (JStr "Codex C")]
  /\ map snd (diagnostics st) = [NotIIIF; MalformedJSON; FetchRejected].
Proof. vm_compute. auto. Qed.

(** ** The theorems at work on sample inputs *)

Lemma getFirstMetadataValue_document_order_witness :
  metadataEntries creatorFirst
  = Ok ([] ++ plainEntry "Creator" "X" :: [plainEntry "Author" "Y"])
  /\ entryValue (plainEntry "Creator" "X") ["Author"; "Creator"] = Ok (Some "X")
  /\ getFirstMetadataValue creatorFirst ["Author"; "Creator"] = Ok "X"
  /\ getFirstMetadataValue creatorFirst ["Creator"; "Author"]
     = getFirstMetadataValue creatorFirst ["Author"; "Creator"].
Proof.
  split; [ reflexivity | ]. split; [ reflexivity | ]. split.
  - apply (proj1 (proj2 (getFirstMetadataValue_document_order creatorFirst
                           ["Author"; "Creator"]))
             [] (plainEntry "Creator" "X") [plainEntry "Author" "Y"] "X");
      [ reflexivity | constructor | reflexivity ].
  - apply (proj1 (getFirstMetadataValue_document_order creatorFirst
                    ["Author"; "Creator"])).
    intros k; simpl; tauto.
Defined.

Lemma extractDate_year_witness :
  locateDateString (dated "Printed in London, 1623") = Ok "Printed in London, 1623"
  /\ isYear "1623" = true
  /\ extractDate (dated "Printed in London, 1623") = Ok "1623".
Proof.
  split; [ reflexivity | ]. split; [ reflexivity | ].
  apply (proj1 (proj2 (extractDate_year (dated "Printed in London, 1623")
                         "Printed in London, 1623" eq_refl))
           "Printed in London, " "1623" "" eq_refl eq_refl).
  intros n L. simpl in L.
  do 19 (destruct n as [ | n]; [ reflexivity | ]). lia.
Defined.

Lemma inferTypeFromMetadata_rules_witness :
  typeHaystack (JObj [("label", JStr "A Manuscript Journal")])
  = Ok "a manuscript journal "
  /\ manuscriptWord "a manuscript journal "
  /\ articleWord "a manuscript journal "
  /\ inferTypeFromMetadata (JObj [("label", JStr "A Manuscript Journal")])
     = Ok "manuscript".
Proof.
  assert (M : manuscriptWord "a manuscript journal ").
  { left. exists "a ", " journal ". reflexivity. }
  split; [ reflexivity | ]. split; [ exact M | ]. split.
  - right; left. exists "a manuscript ", " ". reflexivity.
  - apply (proj1 (proj2 (inferTypeFromMetadata_rules
                           (JObj [("label", JStr "A Manuscript Journal")])
                           "a manuscript journal " eq_refl))).
    exact M.
Defined.

Lemma mapCslAuthorsToCreators_spec_witness :
  forallb wellTypedAuthor sampleAuthors = true
  /\ mapCslAuthorsToCreators (JObj [("author", JArr sampleAuthors)])
     = Ok [ JObj [("creatorType", JStr "author"); ("firstName", JStr "Jane Mary");
                  ("lastName", JStr "Doe")];
            JObj [("creatorType", JStr "author"); ("firstName", JStr "Plato");
                  ("lastName", JStr "Plato")];
            JObj [("creatorType", JStr "author"); ("firstName", JStr "");
                  ("lastName", JStr "Anonymous of Ravenna")];
            JObj [("creatorType", JStr "author"); ("firstName", JStr "");
                  ("lastName", JStr "Shakespeare")] ]
  /\ exists names,
       Forall2 (fun a n => trimmedNames a = Ok n) sampleAuthors names
       /\ sampleCreators = flat_map creatorsOf names
       /\ Forall (fun c => exists firstName lastName,
                             c = creator firstName lastName /\ lastName <> "")
                 sampleCreators
       /\ Forall2 (fun a n =>
                     exists given family literal,
                       get a "given" = Ok given /\ get a "family" = Ok family
                       /\ get a "literal" = Ok literal
                       /\ n = (nameText given, nameText family, nameText literal))
                  sampleAuthors names
       /\ sampleCreators
          = flat_map
              (fun n =>
                 let '(given, family, literal) := n in
                 if nonEmpty given || nonEmpty family
                 then [JObj [("creatorType", JStr "author");
                             ("firstName", JStr given);
                             ("lastName",
                              JStr (if nonEmpty family then family else given))]]
                 else if nonEmpty literal
                      then [JObj [("creatorType", JStr "author");
                                  ("firstName", JStr "");
                                  ("lastName", JStr literal)]]
                      else [])
              names
       /\ Forall (fun c =>
                    exists firstName lastName,
                      c = JObj [("creatorType", JStr "author");
                                ("firstName", JStr firstName);
                                ("lastName", JStr lastName)]
                      /\ get c "creatorType" = Ok (JStr "author")
                      /\ get c "firstName" = Ok (JStr firstName)
                      /\ get c "lastName" = Ok (JStr lastName)
                      /\ lastName <> "")
                 sampleCreators.
Proof.
  split; [ reflexivity | ]. split; [ reflexivity | ].
  apply (proj2 (mapCslAuthorsToCreators_spec (JObj [("author", JArr sampleAuthors)])
                  sampleAuthors eq_refl) sampleCreators eq_refl).
Defined.

(** ** Where the conversion does not throw *)

Lemma mapM_total {A B : Type} (f : A -> result B) (Q : A -> Prop) (l : list A) :
  (forall x, Q x -> exists y, f x = Ok y) ->
  Forall Q l -> exists ys, mapM f l = Ok ys.
Proof.
  intros T. induction 1 as [ | x l Hx _ [ys IH]]; simpl.
  - eexists; reflexivity.
  - destruct (T x Hx) as [y ->]. simpl. rewrite IH. simpl. eexists; reflexivity.
Qed.

Lemma ToString_total (v : value) : plain v = true -> exists s, ToString v = Ok s.
Proof.
  induction v as [v A | l IH | props _] using value_induction.
  - intros _. destruct v; try contradiction; simpl; try (eexists; reflexivity).
    + destruct b; eexists; reflexivity.
    + destruct (String.eqb name "__proto__"); eexists; reflexivity.
  - simpl. intros H.
    assert (F : Forall (fun x => plain x = true /\ (plain x = true -> exists s, ToString x = Ok s)) l).
    { rewrite forallb_forall in H. rewrite Forall_forall in IH |- *.
      intros x I. split; [ apply H; exact I | apply IH; exact I ]. }
    assert (E : exists ss, mapM (elementString ToString) l = Ok ss).
    { apply (mapM_total _ _ l) with (2 := F).
      intros x [Px Tx]. destruct x; simpl; try (eexists; reflexivity); apply Tx; exact Px. }
    destruct E as [ss ->]. simpl. eexists; reflexivity.
  - simpl. intros H. apply andb_true_iff in H as [H _].
    apply negb_true_iff in H. rewrite H. eexists; reflexivity.
Qed.

Lemma plain_own (props : list (string * value)) (k : string) (v : value) :
  forallb (fun p => plain (snd p)) props = true ->
  own props k = Some v -> plain v = true.
Proof.
  induction props as [ | [k' x] props IH]; simpl; [ discriminate | ].
  intros H. apply andb_true_iff in H as [Hx H].
  destruct (String.eqb k' k); [ intros E; injection E as <-; exact Hx | apply IH; exact H ].
Qed.

Lemma get_plain (o : value) (k : string) (v : value) :
  plain o = true -> get o k = Ok v -> plain v = true.
Proof.
  destruct o; simpl; try discriminate;
    try (intros _ E; injection E as <-; reflexivity).
  - intros _ E. injection E as <-. destruct (String.eqb k "length"); reflexivity.
  - intros _ E. injection E as <-. destruct (String.eqb k "length"); reflexivity.
  - intros H E. injection E as <-. apply andb_true_iff in H as [_ H].
    destruct (own props k) eqn:O; [ apply (plain_own _ _ _ H O) | ].
    unfold Object_prototype_get.
    destruct (existsb (String.eqb k) Object_prototype_names); reflexivity.
Qed.

Lemma get_total (o : value) (k : string) :
  notNullish o = true -> exists v, get o k = Ok v.
Proof.
  destruct o; simpl; try discriminate; intros _; eexists; reflexivity.
Qed.

Lemma prop_get (e : value) (k : string) : prop e k = get e k.
Proof.
  unfold prop. destruct (get e k) as [a | x]; simpl; [ | reflexivity ].
  destruct (truthy a); reflexivity.
Qed.

Lemma truthy_notNullish (v : value) : truthy v = true -> notNullish v = true.
Proof. destruct v; simpl; congruence. Qed.

Lemma push_truthy_total (vals : list value) :
  forallb plain vals = true ->
  forall pieces, exists r, push_truthy vals pieces = Ok r.
Proof.
  induction vals as [ | v vals IH]; simpl; intros H pieces.
  - eexists; reflexivity.
  - apply andb_true_iff in H as [Hv H].
    destruct (truthy v); [ | apply IH; exact H ].
    destruct (ToString_total v Hv) as [s ->]. simpl. apply IH; exact H.
Qed.

Lemma lang_loop_total (label : value) (langs : list string) :
  plain label = true -> notNullish label = true ->
  forall pieces, exists r, lang_loop label langs pieces = Ok r.
Proof.
  intros Pl N. induction langs as [ | lang rest IH]; simpl; intros pieces.
  - eexists; reflexivity.
  - destruct (get_total label lang N) as [vals G]. rewrite G. simpl.
    pose proof (get_plain _ _ _ Pl G) as Pv.
    destruct vals; try apply IH.
    simpl in Pv. destruct (push_truthy_total _ Pv pieces) as [r ->]. simpl. apply IH.
Qed.

Lemma item_loop_total (l : list value) :
  forallb plain l = true ->
  forall pieces, exists r, item_loop l pieces = Ok r.
Proof.
  induction l as [ | item rest IH]; simpl; intros H pieces.
  - eexists; reflexivity.
  - apply andb_true_iff in H as [Hi H].
    destruct (truthy item && typeof_object item && js_in "@value" item) eqn:B.
    + apply andb_true_iff in B as [B _]. apply andb_true_iff in B as [B _].
      destruct (get_total item "@value" (truthy_notNullish _ B)) as [v G]. rewrite G. simpl.
      destruct (ToString_total v (get_plain _ _ _ Hi G)) as [s ->]. simpl.
      apply IH; exact H.
    + destruct (notNullish item); [ | apply IH; exact H ].
      destruct (ToString_total item Hi) as [s ->]. simpl. apply IH; exact H.
Qed.

Lemma iiifLabelToString_total (v : value) :
  plain v = true -> exists s, iiifLabelToString v = Ok s.
Proof.
  intros Pv. unfold iiifLabelToString.
  destruct (truthy v) eqn:T; simpl; [ | eexists; reflexivity ].
  destruct (typeof_object v && negb (isArray v)).
  - destruct (lang_loop_total v (match v with JObj props => own_keys props | _ => [] end)
                Pv (truthy_notNullish _ T) []) as [r ->].
    simpl. eexists; reflexivity.
  - destruct v; try (destruct (ToString_total _ Pv) as [s ->]; simpl; eexists; reflexivity).
    + eexists; reflexivity.
    + simpl in Pv. destruct (item_loop_total _ Pv []) as [r ->]. simpl. eexists; reflexivity.
Qed.

Lemma normalized_prop_total (e : value) (k : string) :
  notNullish e = true -> plain e = true ->
  exists v s, prop e k = Ok v /\ iiifLabelToString v = Ok s.
Proof.
  intros N Pe. rewrite prop_get.
  destruct (get_total e k N) as [v G].
  destruct (iiifLabelToString_total v (get_plain _ _ _ Pe G)) as [s L].
  exists v, s. auto.
Qed.

Lemma entryValue_total (e : value) (keys : list string) :
  goodEntry e -> exists r, entryValue e keys = Ok r.
Proof.
  intros [N Pe]. unfold entryValue.
  destruct (normalized_prop_total e "label" N Pe) as [l [ls [-> L]]]. simpl.
  rewrite L. simpl. rewrite key_loop_spec.
  destruct (labelMatches ls keys); [ | eexists; reflexivity ].
  destruct (normalized_prop_total e "value" N Pe) as [v [vs [-> V]]]. simpl.
  rewrite V. simpl. eexists; reflexivity.
Qed.

Lemma entry_loop_total (entries : list value) (keys : list string) :
  Forall goodEntry entries -> exists s, entry_loop entries keys = Ok s.
Proof.
  induction 1 as [ | e entries G _ IH].
  - eexists; reflexivity.
  - rewrite entry_loop_cons. destruct (entryValue_total e keys G) as [r ->]. simpl.
    destruct r; [ eexists; reflexivity | exact IH ].
Qed.

Lemma created_loop_total (entries : list value) :
  Forall goodEntry entries ->
  forall dateStr, exists s, created_loop entries dateStr = Ok s.
Proof.
  induction 1 as [ | e entries [N Pe] _ IH]; intros dateStr; simpl.
  - eexists; reflexivity.
  - destruct (normalized_prop_total e "label" N Pe) as [l [ls [-> L]]]. simpl.
    rewrite L. simpl.
    destruct (test CREATED_PUBLISHED_LABEL_RE ls); [ | apply IH ].
    destruct (normalized_prop_total e "value" N Pe) as [v [vs [-> V]]]. simpl.
    rewrite V. simpl. destruct (nonEmpty vs); [ eexists; reflexivity | apply IH ].
Qed.

Lemma chars_good (s : string) : Forall goodEntry (chars s).
Proof.
  induction s as [ | c s IH]; simpl; constructor; [ split; reflexivity | exact IH ].
Qed.

Lemma wellFormed_parts (manifest : value) :
  wellFormed manifest = true ->
  notNullish manifest = true /\ plain manifest = true
  /\ exists md entries,
       get manifest "metadata" = Ok md
       /\ iterate (js_or md (JArr [])) = Ok entries
       /\ Forall goodEntry entries
       /\ (js_or md (JArr []) = JArr entries
           \/ exists s, js_or md (JArr []) = JStr s).
Proof.
  unfold wellFormed. intros H.
  apply andb_true_iff in H as [H M]. apply andb_true_iff in H as [N Pm].
  split; [ exact N | ]. split; [ exact Pm | ].
  destruct (get manifest "metadata") as [md | e] eqn:G; [ | discriminate M ].
  exists md. unfold js_or.
  destruct (truthy md) eqn:T.
  - pose proof (get_plain _ _ _ Pm G) as Pmd.
    destruct md; try discriminate M.
    + exists (chars s). repeat split; [ apply chars_good | right; eexists; reflexivity ].
    + exists items0. repeat split; [ | left; reflexivity ].
      simpl in Pmd. rewrite forallb_forall in M, Pmd. apply Forall_forall.
      intros x I. split; [ apply M | apply Pmd ]; exact I.
  - exists []. repeat split; [ constructor | left; reflexivity ].
Qed.

Lemma metadataEntries_total (manifest : value) :
  wellFormed manifest = true ->
  exists entries, metadataEntries manifest = Ok entries /\ Forall goodEntry entries.
Proof.
  intros W. destruct (wellFormed_parts _ W) as [_ [_ [md [entries [G [I [F _]]]]]]].
  exists entries. unfold metadataEntries. rewrite G. simpl. auto.
Qed.

Lemma getFirstMetadataValue_total (manifest : value) (keys : list string) :
  wellFormed manifest = true ->
  exists s, getFirstMetadataValue manifest keys = Ok s.
Proof.
  intros W. destruct (metadataEntries_total _ W) as [entries [E F]].
  unfold getFirstMetadataValue. rewrite E. simpl. apply entry_loop_total; exact F.
Qed.

Lemma manifestLabel_total (manifest : value) :
  wellFormed manifest = true -> exists s, manifestLabel manifest = Ok s.
Proof.
  intros W. destruct (wellFormed_parts _ W) as [N [Pm _]].
  destruct (normalized_prop_total manifest "label" N Pm) as [v [s [E L]]].
  exists s. unfold manifestLabel. rewrite E. exact L.
Qed.

Lemma inferTypeFromMetadata_total (manifest : value) :
  wellFormed manifest = true -> exists t, inferTypeFromMetadata manifest = Ok t.
Proof.
  intros W. destruct (wellFormed_parts _ W) as [N [Pm _]].
  unfold inferTypeFromMetadata, typeHaystack.
  destruct (manifestLabel_total _ W) as [label ->]. simpl.
  destruct (normalized_prop_total manifest "description" N Pm) as [d [desc [-> D]]].
  simpl. rewrite D. simpl.
  destruct (getFirstMetadataValue_total manifest ["Type"; "type"] W) as [ty ->].
  cbn [bind].
  match goal with
  | |- context [test RE_MANUSCRIPT ?h] =>
      destruct (test RE_MANUSCRIPT h); [ eexists; reflexivity | ];
      destruct (test RE_ARTICLE h); eexists; reflexivity
  end.
Qed.

Lemma extractAuthors_total (manifest : value) :
  wellFormed manifest = true -> exists a, extractAuthors manifest = Ok a.
Proof.
  intros W. unfold extractAuthors.
  destruct (getFirstMetadataValue_total manifest
              ["Author"; "Authors"; "Creator"; "Creators"; "author"; "creator"] W)
    as [raw ->].
  cbn [bind]. destruct (negb (nonEmpty raw)); eexists; reflexivity.
Qed.

Lemma extractDate_total (manifest : value) :
  wellFormed manifest = true -> exists d, extractDate manifest = Ok d.
Proof.
  intros W. unfold extractDate, locateDateString.
  destruct (getFirstMetadataValue_total manifest
              ["Date"; "Publication Date"; "date"; "Issued"] W) as [d ->].
  cbn [bind]. destruct (nonEmpty d) eqn:N; cbn [negb].
  - cbn [bind]. rewrite N. eexists; reflexivity.
  - destruct (metadataEntries_total _ W) as [entries [-> F]]. cbn [bind].
    destruct (created_loop_total entries F d) as [d' ->]. cbn [bind].
    destruct (negb (nonEmpty d')); eexists; reflexivity.
Qed.

Lemma locateDateString_total (manifest : value) :
  wellFormed manifest = true -> exists d, locateDateString manifest = Ok d.
Proof.
  intros W. unfold locateDateString.
  destruct (getFirstMetadataValue_total manifest
              ["Date"; "Publication Date"; "date"; "Issued"] W) as [d ->].
  cbn [bind]. destruct (nonEmpty d); cbn [negb]; [ eexists; reflexivity | ].
  destruct (metadataEntries_total _ W) as [entries [-> F]]. cbn [bind].
  apply created_loop_total; exact F.
Qed.

Lemma typeHaystack_total (manifest : value) :
  wellFormed manifest = true -> exists h, typeHaystack manifest = Ok h.
Proof.
  intros W. destruct (wellFormed_parts _ W) as [N [Pm _]].
  unfold typeHaystack.
  destruct (manifestLabel_total _ W) as [label ->]. simpl.
  destruct (normalized_prop_total manifest "description" N Pm) as [d [desc [-> D]]].
  simpl. rewrite D. simpl.
  destruct (getFirstMetadataValue_total manifest ["Type"; "type"] W) as [ty ->].
  eexists; reflexivity.
Qed.

Lemma extractPublisher_total (manifest : value) :
  wellFormed manifest = true -> exists p, extractPublisher manifest = Ok p.
Proof.
  intros W. unfold extractPublisher.
  destruct (getFirstMetadataValue_total manifest
              ["Publisher"; "publisher"; "Institution"; "Holding Institution";
               "Repository"] W) as [p ->].
  eexists; reflexivity.
Qed.

Lemma string_or_total (v : value) (k : result string) :
  (exists s, k = Ok s) ->
  exists s, match v with JStr s => Ok s | _ => k end = Ok s.
Proof. intros K. destruct v; try exact K. eexists; reflexivity. Qed.

Lemma pickId_total (obj : value) : exists s, pickId obj = Ok s.
Proof.
  unfold pickId.
  destruct (truthy obj) eqn:T; cbn [negb orb]; [ | eexists; reflexivity ].
  destruct (negb (typeof_object obj)); [ eexists; reflexivity | ].
  pose proof (truthy_notNullish _ T) as N.
  destruct (get_total obj "id" N) as [a ->]. cbn [bind]. apply string_or_total.
  destruct (get_total obj "@id" N) as [b ->]. cbn [bind]. apply string_or_total.
  destruct (get_total obj "href" N) as [c ->]. cbn [bind]. apply string_or_total.
  eexists; reflexivity.
Qed.

Lemma pickId_then_total (obj : value) :
  exists r, (id <- pickId obj ;; Ok (if nonEmpty id then Some id else None)) = Ok r.
Proof. destruct (pickId_total obj) as [s ->]. eexists; reflexivity. Qed.

Lemma pickLink_total (link : value) : exists r, pickLink link = Ok r.
Proof.
  unfold pickLink. destruct (truthy link); [ | eexists; reflexivity ].
  destruct link; try (eexists; reflexivity); try apply pickId_then_total;
    try (destruct (typeof_object _); [ apply pickId_then_total | eexists; reflexivity ]).
  destruct items0 as [ | first rest].
  - cbn [typeof_object]. apply pickId_then_total.
  - destruct first; try apply pickId_then_total. eexists; reflexivity.
Qed.

Lemma extractHomepageURL_total (manifest : value) (manifestUrl : string) :
  notNullish manifest = true ->
  exists h, extractHomepageURL manifest manifestUrl = Ok h.
Proof.
  intros N. unfold extractHomepageURL.
  destruct (get_total manifest "homepage" N) as [h ->]. cbn [bind].
  destruct (pickLink_total h) as [r ->]. cbn [bind].
  destruct r; [ eexists; reflexivity | ].
  destruct (get_total manifest "related" N) as [rel ->]. cbn [bind].
  destruct (pickLink_total rel) as [r ->]. cbn [bind].
  destruct r; eexists; reflexivity.
Qed.

Lemma extractIdFromManifest_total (manifest : value) (manifestUrl : string) :
  wellFormed manifest = true ->
  exists i, extractIdFromManifest manifest manifestUrl = Ok i.
Proof.
  intros W. destruct (wellFormed_parts _ W) as [N [Pm _]].
  unfold extractIdFromManifest.
  destruct (get_total manifest "@id" N) as [a A]. rewrite A. cbn [bind].
  destruct (truthy a); [ apply ToString_total, (get_plain _ _ _ Pm A) | ].
  destruct (get_total manifest "id" N) as [b B]. rewrite B. cbn [bind].
  destruct (truthy b); [ apply ToString_total, (get_plain _ _ _ Pm B) | ].
  destruct (nonEmpty manifestUrl); [ eexists; reflexivity | ].
  destruct (manifestLabel_total _ W) as [label ->]. cbn [bind].
  destruct (nonEmpty label); eexists; reflexivity.
Qed.

Section Totality.

Context {P : Platform}.

Lemma note_loop_total (entries : list value) :
  Forall goodEntry entries ->
  forall lines, exists r, note_loop entries lines = Ok r.
Proof.
  induction 1 as [ | e entries [N Pe] _ IH]; intros lines; simpl.
  - eexists; reflexivity.
  - destruct (normalized_prop_total e "label" N Pe) as [l [k [-> L]]]. simpl.
    rewrite L. simpl.
    destruct (normalized_prop_total e "value" N Pe) as [x [v [-> V]]]. simpl.
    rewrite V. simpl. destruct (nonEmpty k || nonEmpty v); apply IH.
Qed.

Lemma printed_line_total (a : value) (prefix : string) (lines : list string) :
  plain a = true ->
  exists r,
    (if truthy a
     then s <- ToString a ;; Ok (lines ++ [(prefix ++ s)%string])
     else Ok lines) = Ok r.
Proof.
  intros Pa. destruct (truthy a); [ | eexists; reflexivity ].
  destruct (ToString_total a Pa) as [s ->]. eexists; reflexivity.
Qed.

Lemma buildIiifNote_total (manifest : value) (manifestUrl : string) :
  wellFormed manifest = true ->
  exists note, buildIiifNote manifest manifestUrl = Ok note.
Proof.
  intros W.
  destruct (wellFormed_parts _ W) as [N [Pm [md [entries [G [I [F S]]]]]]].
  unfold buildIiifNote.
  destruct (get_total manifest "@id" N) as [a A]. rewrite A. cbn [bind].
  destruct (printed_line_total a "@id: "
              (if nonEmpty manifestUrl
               then ["IIIF manifest metadata"; "======================"; ""]
                    ++ [("Manifest URL: " ++ manifestUrl)%string]
               else ["IIIF manifest metadata"; "======================"; ""])
              (get_plain _ _ _ Pm A)) as [lines1 ->].
  cbn [bind].
  destruct (get_total manifest "@context" N) as [c C]. rewrite C. cbn [bind].
  destruct (printed_line_total c "@context: " lines1 (get_plain _ _ _ Pm C))
    as [lines2 ->].
  cbn [bind]. rewrite G. cbn [bind]. rewrite I.
  assert (L : exists r, get (js_or md (JArr [])) "length" = Ok (JNum r)).
  { destruct S as [-> | [s ->]]; simpl; eexists; reflexivity. }
  destruct L as [r ->]. cbn [bind js_gt0].
  destruct (negb _); cbn [bind].
  - destruct (note_loop_total entries F (lines2 ++ [""; "IIIF metadata:"])) as [ls ->].
    eexists; reflexivity.
  - eexists; reflexivity.
Qed.

(** The conversion returns a record for every well-formed manifest. *)
Theorem manifestToCSLItem_total (manifest : value) (manifestUrl : string) :
  wellFormed manifest = true ->
  exists item, manifestToCSLItem manifest manifestUrl = Ok item.
Proof.
  intros W. destruct (wellFormed_parts _ W) as [N [Pm _]].
  unfold manifestToCSLItem.
  destruct (manifestLabel_total _ W) as [label ->]. cbn [bind].
  destruct (extractIdFromManifest_total manifest manifestUrl W) as [i ->].
  assert (T : exists title,
             (if nonEmpty label then Ok label
              else i0 <- Ok i ;;
                   (if nonEmpty i0 then Ok i0 else Ok "[untitled IIIF manifest]"))
             = Ok title).
  { destruct (nonEmpty label); [ eexists; reflexivity | ].
    cbn [bind]. destruct (nonEmpty i); eexists; reflexivity. }
  destruct T as [title ->]. cbn [bind].
  destruct (extractAuthors_total _ W) as [authors ->]. cbn [bind].
  destruct (extractDate_total _ W) as [issued ->]. cbn [bind].
  destruct (extractPublisher_total _ W) as [publisher ->]. cbn [bind].
  destruct (inferTypeFromMetadata_total _ W) as [type ->]. cbn [bind].
  destruct (extractHomepageURL_total manifest manifestUrl N) as [homepage ->]. cbn [bind].
  destruct (buildIiifNote_total manifest manifestUrl W) as [note ->]. cbn [bind].
  assert (U : exists url,
             (if nonEmpty homepage then Ok (JStr homepage)
              else a <- get manifest "@id" ;;
                   (if truthy a then Ok a
                    else b <- get manifest "id" ;;
                         (if truthy b then Ok b
                          else if nonEmpty (trimManifestDirectory manifestUrl)
                               then Ok (JStr (trimManifestDirectory manifestUrl))
                               else Ok (JStr ""))))
             = Ok url).
  { destruct (nonEmpty homepage); [ eexists; reflexivity | ].
    destruct (get_total manifest "@id" N) as [a ->]. cbn [bind].
    destruct (truthy a); [ eexists; reflexivity | ].
    destruct (get_total manifest "id" N) as [b ->]. cbn [bind].
    destruct (truthy b); [ eexists; reflexivity | ].
    destruct (nonEmpty (trimManifestDirectory manifestUrl)); eexists; reflexivity. }
  destruct U as [url ->]. cbn [bind]. eexists; reflexivity.
Qed.

(** For a URL that is retrieved as a well-formed manifest, the loop has a
    record. *)
Lemma recordOf_retrieved (url : string) (w : World) (manifest : value) :
  fst (fetchManifest url w) = inl manifest ->
  wellFormed manifest = true ->
  exists item, recordOf url w = Some item
               /\ manifestToCSLItem manifest url = Ok item.
Proof.
  intros F W. unfold recordOf. rewrite F.
  destruct (manifestToCSLItem_total manifest url W) as [item E]. rewrite E.
  exists item. auto.
Qed.

Lemma recordOf_not_retrieved (url : string) (w : World) (f : Failure) :
  fst (fetchManifest url w) = inr f -> recordOf url w = None.
Proof. intros F. unfold recordOf. rewrite F. reflexivity. Qed.

End Totality.

(** ** The title and the identifier of a citation record *)

Section Citation.

Context {P : Platform}.

(** The identifier is the first of: [@id], [id], the source URL, the label. *)
Lemma extractIdFromManifest_chain (manifest : value) (manifestUrl i : string) :
  extractIdFromManifest manifest manifestUrl = Ok i ->
  exists a b,
    get manifest "@id" = Ok a
    /\ (truthy a = true -> ToString a = Ok i)
    /\ (truthy a = false ->
        get manifest "id" = Ok b
        /\ (truthy b = true -> ToString b = Ok i)
        /\ (truthy b = false ->
            (manifestUrl <> "" -> i = manifestUrl)
            /\ (manifestUrl = "" -> manifestLabel manifest = Ok i))).
Proof.
  unfold extractIdFromManifest. intros H. bind_inv H.
  destruct (truthy a) eqn:A.
  - exists a, JUndefined. split; [ reflexivity | ].
    split; [ intros _; exact H | intros X; congruence ].
  - bind_inv H. exists a, a0. split; [ reflexivity | ].
    split; [ intros X; congruence | ]. intros _. split; [ reflexivity | ].
    destruct (truthy a0) eqn:B.
    + split; [ intros _; exact H | intros X; congruence ].
    + split; [ intros X; congruence | ]. intros _.
      destruct (nonEmpty manifestUrl) eqn:U.
      * injection H as <-. split; [ reflexivity | ].
        intros X. rewrite X in U. discriminate U.
      * apply nonEmpty_false in U. subst manifestUrl.
        split; [ intros N; contradiction N; reflexivity | ]. intros _.
        bind_inv H. destruct (nonEmpty a1) eqn:L.
        -- exact H.
        -- apply nonEmpty_false in L. subst a1. exact H.
Qed.

(** C2.  For every well-formed manifest the conversion returns a citation
    record, and every citation record it returns has a [title] and an [id]
    that are strings and not empty: the title is the normalised label, or
    else the identifier (manifest [@id], [id], source URL), or else the
    placeholder; the [id] is the identifier, or else the title. *)
Theorem manifestToCSLItem_title_id (manifest : value) (manifestUrl : string) :
  (wellFormed manifest = true ->
   exists item, manifestToCSLItem manifest manifestUrl = Ok item)
  /\ forall item,
       manifestToCSLItem manifest manifestUrl = Ok item ->
       exists label i title id,
         manifestLabel manifest = Ok label
         /\ extractIdFromManifest manifest manifestUrl = Ok i
         /\ title = (if nonEmpty label then label
                     else if nonEmpty i then i else "[untitled IIIF manifest]")
         /\ id = (if nonEmpty i then i else title)
         /\ get item "title" = Ok (JStr title)
         /\ get item "id" = Ok (JStr id)
         /\ title <> "" /\ id <> "".
Proof.
  split; [ apply manifestToCSLItem_total | ].
  unfold manifestToCSLItem. intros item H. bind_inv H. injection H as <-.
  exists a, a1.
  assert (T : a0 = (if nonEmpty a then a
                    else if nonEmpty a1 then a1 else "[untitled IIIF manifest]")).
  { destruct (nonEmpty a); [ congruence | ].
    simpl in E0. destruct (nonEmpty a1); congruence. }
  assert (N : a0 <> "").
  { rewrite T. destruct (nonEmpty a) eqn:A; [ apply nonEmpty_true; exact A | ].
    destruct (nonEmpty a1) eqn:B; [ apply nonEmpty_true; exact B | discriminate ]. }
  exists a0, (if nonEmpty a1 then a1 else a0).
  repeat split; try assumption; try reflexivity.
  destruct (nonEmpty a1) eqn:B; [ apply nonEmpty_true; exact B | exact N ].
Qed.

End Citation.

Example untitled_manifest :
  (item <- manifestToCSLItem (P := Reference.platform) (JObj []) "" ;;
   t <- get item "title" ;; i <- get item "id" ;; Ok (t, i))
  = Ok (JStr "[untitled IIIF manifest]", JStr "[untitled IIIF manifest]").
Proof. reflexivity. Qed.

Lemma manifestToCSLItem_title_id_witness :
  wellFormed Reference.manifestA = true
  /\ exists item,
       manifestToCSLItem (P := Reference.platform) Reference.manifestA Reference.urlA
       = Ok item
       /\ get item "title" = Ok (JStr "Book A")
       /\ get item "id" = Ok (JStr Reference.urlA).
Proof.
  split; [ reflexivity | ].
  destruct (manifestToCSLItem_title_id (P := Reference.platform)
              Reference.manifestA Reference.urlA) as [T S].
  destruct (T eq_refl) as [item E]. exists item. split; [ exact E | ].
  destruct (S item E) as [label [i [title [id [L [I [Ti [D [GT [GI _]]]]]]]]]].
  injection L as <-. injection I as <-. subst title id.
  split; [ exact GT | exact GI ].
Defined.

(** ** The Zotero item of a CSL item *)

Lemma stringField_notNullish (o : value) (k : string) :
  stringField o k = true -> notNullish o = true.
Proof. unfold stringField. destruct o; simpl; congruence. Qed.

Lemma mapCslTypeToZoteroItemType_total (ty : value) :
  negb (truthy ty) || typeof_string ty = true ->
  exists v, mapCslTypeToZoteroItemType ty = Ok v.
Proof.
  intros H. unfold mapCslTypeToZoteroItemType, js_or.
  assert (T : exists t, callStringMethod toLowerCase
                          (if truthy ty then ty else JStr "") = Ok t).
  { destruct (truthy ty); simpl in H; [ | eexists; reflexivity ].
    destruct ty; try discriminate H. eexists; reflexivity. }
  destruct T as [t ->]. cbn [bind].
  destruct (get_total MAP t eq_refl) as [m G]. rewrite G. cbn [bind].
  destruct (truthy m); eexists; reflexivity.
Qed.

Lemma plain_index (l : list value) (n : nat) :
  forallb plain l = true -> plain (index l n) = true.
Proof.
  unfold index. revert n. induction l as [ | x l IH]; intros n H.
  - destruct n; reflexivity.
  - simpl in H. apply andb_true_iff in H as [Hx H].
    destruct n; simpl; [ exact Hx | apply IH; exact H ].
Qed.

Lemma mapCslIssuedToZoteroDate_total (cslItem : value) :
  notNullish cslItem = true -> plain cslItem = true ->
  exists d, mapCslIssuedToZoteroDate cslItem = Ok d.
Proof.
  intros N Pc. unfold mapCslIssuedToZoteroDate.
  destruct (get_total cslItem "issued" N) as [issued I]. rewrite I. cbn [bind].
  pose proof (get_plain _ _ _ Pc I) as Pi.
  destruct (truthy issued) eqn:T; cbn [negb]; [ | eexists; reflexivity ].
  destruct (get_total issued "date-parts" (truthy_notNullish _ T)) as [dp D].
  rewrite D. cbn [bind]. pose proof (get_plain _ _ _ Pi D) as Pd.
  destruct dp; try (eexists; reflexivity).
  simpl in Pd. pose proof (plain_index items0 0 Pd) as P0.
  destruct (index items0 0); try (eexists; reflexivity).
  simpl in P0.
  destruct (Nat.eqb (List.length items1) 0); [ eexists; reflexivity | ].
  destruct (negb (truthy (index items1 0))); [ eexists; reflexivity | ].
  destruct (ToString_total _ (plain_index items1 0 P0)) as [y ->]. cbn [bind].
  destruct (notNullish (index items1 1)); [ | eexists; reflexivity ].
  destruct (ToString_total _ (plain_index items1 1 P0)) as [m ->]. cbn [bind].
  destruct (notNullish (index items1 2)); [ | eexists; reflexivity ].
  destruct (ToString_total _ (plain_index items1 2 P0)) as [d ->]. cbn [bind].
  eexists; reflexivity.
Qed.

Lemma mapCslAuthorsToCreators_total (cslItem : value) :
  wellFormedCslItem cslItem = true ->
  exists creators, mapCslAuthorsToCreators cslItem = Ok creators.
Proof.
  unfold wellFormedCslItem, mapCslAuthorsToCreators. intros H.
  apply andb_true_iff in H as [_ H].
  destruct (get cslItem "author") as [a | e]; [ | discriminate H ]. cbn [bind].
  assert (F : exists l, match a with JArr l => l | _ => [] end = l
                        /\ forallb wellTypedAuthor l = true).
  { destruct a; try (exists []; split; reflexivity).
    exists items0. split; [ reflexivity | exact H ]. }
  destruct F as [l [-> F]]. apply author_loop_total.
  rewrite forallb_forall in F. apply Forall_forall.
  intros x I. apply trimmedNames_total, F, I.
Qed.

Lemma cslToZoteroItem_total (cslItem : value) :
  wellFormedCslItem cslItem = true -> exists z, cslToZoteroItem cslItem = Ok z.
Proof.
  intros W. pose proof W as W'. unfold wellFormedCslItem in W'.
  apply andb_true_iff in W' as [W' _]. apply andb_true_iff in W' as [Pc T].
  pose proof (stringField_notNullish _ _ T) as N.
  unfold cslToZoteroItem. unfold stringField in T.
  destruct (get cslItem "type") as [ty | e]; [ | discriminate T ]. cbn [bind].
  destruct (mapCslTypeToZoteroItemType_total ty T) as [itemType ->]. cbn [bind].
  destruct (get_total cslItem "title" N) as [t ->]. cbn [bind].
  destruct (mapCslAuthorsToCreators_total _ W) as [creators ->]. cbn [bind].
  destruct (mapCslIssuedToZoteroDate_total _ N Pc) as [d ->]. cbn [bind].
  destruct (get_total cslItem "publisher" N) as [x1 ->]. cbn [bind].
  destruct (get_total cslItem "archive" N) as [x2 ->]. cbn [bind].
  destruct (get_total cslItem "archive_location" N) as [x3 ->]. cbn [bind].
  destruct (get_total cslItem "collection-title" N) as [x4 ->]. cbn [bind].
  destruct (get_total cslItem "URL" N) as [x5 ->]. cbn [bind].
  destruct (get_total cslItem "note" N) as [x6 ->]. cbn [bind].
  eexists; reflexivity.
Qed.

Lemma nameToAuthor_good (nameStr : string) :
  plain (nameToAuthor nameStr) = true
  /\ wellTypedAuthor (nameToAuthor nameStr) = true.
Proof.
  unfold nameToAuthor, popped, wellTypedAuthor, stringField.
  destruct (split RE_SPACES nameStr) as [ | t [ | t' rest]].
  - split; cbn; rewrite ?orb_true_r; reflexivity.
  - split; cbn; rewrite ?orb_true_r; reflexivity.
  - destruct (List.rev (t :: t' :: rest)); split; cbn; rewrite ?orb_true_r; reflexivity.
Qed.

Lemma authors_good (parts : list string) :
  forallb plain (map nameToAuthor parts) = true
  /\ forallb wellTypedAuthor (map nameToAuthor parts) = true.
Proof.
  induction parts as [ | x parts [IH1 IH2]]; [ split; reflexivity | ].
  destruct (nameToAuthor_good x) as [A B]. simpl. rewrite A, B, IH1, IH2. auto.
Qed.

Lemma extractAuthors_good (manifest : value) (authors : list value) :
  extractAuthors manifest = Ok authors ->
  forallb plain authors = true /\ forallb wellTypedAuthor authors = true.
Proof.
  unfold extractAuthors. intros H. bind_inv H.
  destruct (negb (nonEmpty a)); injection H as <-;
    [ split; reflexivity | apply authors_good ].
Qed.

Section Composition.

Context {P : Platform}.

(** The records of [manifestToCSLItem] are well-formed CSL items: the
    mapping to a Zotero item does not throw on them. *)
Lemma manifestToCSLItem_wellFormed
    (manifest item : value) (manifestUrl : string) :
  plain manifest = true ->
  manifestToCSLItem manifest manifestUrl = Ok item ->
  wellFormedCslItem item = true.
Proof.
  intros Pm H. unfold manifestToCSLItem in H. bind_inv H. injection H as <-.
  destruct (extractAuthors_good _ _ E2) as [PA WA].
  assert (PU : plain a8 = true).
  { destruct (nonEmpty a6); [ injection E8 as <-; reflexivity | ].
    bind_inv E8. destruct (truthy a9); [ injection E8 as <-; apply (get_plain _ _ _ Pm E9) | ].
    bind_inv E8. destruct (truthy a10); [ injection E8 as <-; apply (get_plain _ _ _ Pm E10) | ].
    destruct (nonEmpty (trimManifestDirectory manifestUrl)); injection E8 as <-; reflexivity. }
  unfold wellFormedCslItem, stringField.
  destruct a2 as [ | author authors]; destruct (nonEmpty a3); destruct (nonEmpty a4);
    destruct (nonEmpty a7);
    cbn -[wellTypedAuthor] in PA, WA |- *;
    rewrite ?PU, ?PA, ?WA, ?orb_true_r; reflexivity.
Qed.

Corollary manifest_to_Zotero (manifest : value) (manifestUrl : string) :
  wellFormed manifest = true ->
  exists item z,
    manifestToCSLItem manifest manifestUrl = Ok item
    /\ cslToZoteroItem item = Ok z.
Proof.
  intros W. destruct (manifestToCSLItem_total manifest manifestUrl W) as [item E].
  destruct (wellFormed_parts _ W) as [_ [Pm _]].
  destruct (cslToZoteroItem_total item (manifestToCSLItem_wellFormed _ _ _ Pm E)) as [z Z].
  exists item, z. auto.
Qed.

End Composition.

(** C10. A well-formed CSL item has a Zotero item, and a Zotero item always
    has the keys [itemType], [title] and [creators], the last one holding the
    array of the mapped creators, empty or not; [date] is there exactly when
    the flattened date is not empty, which needs an [issued] field; each
    pass-through field is there exactly when its source field is truthy,
    with the value of the source. *)
Theorem cslToZoteroItem_keys (cslItem : value) :
  (wellFormedCslItem cslItem = true -> exists z, cslToZoteroItem cslItem = Ok z)
  /\ forall z,
  cslToZoteroItem cslItem = Ok z ->
  exists props creators dateStr,
    z = JObj props
    /\ hasOwn props "itemType" = true
    /\ hasOwn props "title" = true
    /\ mapCslAuthorsToCreators cslItem = Ok creators
    /\ own props "creators" = Some (JArr creators)
    /\ mapCslIssuedToZoteroDate cslItem = Ok dateStr
    /\ hasOwn props "date" = nonEmpty dateStr
    /\ (nonEmpty dateStr = true ->
        exists issued, get cslItem "issued" = Ok issued /\ truthy issued = true)
    /\ forall src dst, In (src, dst) passThroughFields ->
         exists v, get cslItem src = Ok v
                   /\ hasOwn props dst = truthy v
                   /\ (truthy v = true -> own props dst = Some v).
Proof.
  split; [ apply cslToZoteroItem_total | ].
  intros z H. unfold cslToZoteroItem in H. bind_inv H. injection H as <-.
  eexists; exists a2, a3. split; [ reflexivity | ].
  split; [ reflexivity | ]. split; [ reflexivity | ].
  split; [ reflexivity | ]. split; [ reflexivity | ].
  split; [ reflexivity | ].
  split.
  { unfold hasOwn. simpl. destruct (nonEmpty a3); simpl; [ reflexivity | ].
    rewrite !own_app, !own_setIfTruthy. simpl. rewrite !andb_false_r. reflexivity. }
  split; [ apply issued_needed; assumption | ].
  intros src dst I. simpl in I.
  repeat (destruct I as [I | I]; [ injection I as <- <- | ]); [ .. | contradiction ].
  all: eexists; split; [ eassumption | ].
  all: unfold hasOwn; simpl; destruct (nonEmpty a3); simpl;
       rewrite !own_app, !own_setIfTruthy; simpl; rewrite ?andb_false_r, ?andb_true_r.
  all: repeat match goal with
              | |- context [truthy ?v] => destruct (truthy v) eqn:?
              end; simpl; split; try reflexivity; try discriminate; try congruence.
Qed.

Lemma cslToZoteroItem_keys_witness :
  wellFormedCslItem sampleCslItem = true
  /\ cslToZoteroItem sampleCslItem
  = Ok (JObj [ ("itemType", JStr "journalArticle"); ("title", JStr "T");
               ("creators", JArr []); ("date", JStr "1623-04");
               ("url", JStr "https://example.org/iiif/a") ])
  /\ exists props creators dateStr,
       JObj [ ("itemType", JStr "journalArticle"); ("title", JStr "T");
              ("creators", JArr []); ("date", JStr "1623-04");
              ("url", JStr "https://example.org/iiif/a") ] = JObj props
       /\ hasOwn props "itemType" = true
       /\ hasOwn props "title" = true
       /\ mapCslAuthorsToCreators sampleCslItem = Ok creators
       /\ own props "creators" = Some (JArr creators)
       /\ mapCslIssuedToZoteroDate sampleCslItem = Ok dateStr
       /\ hasOwn props "date" = nonEmpty dateStr
       /\ (nonEmpty dateStr = true ->
           exists issued, get sampleCslItem "issued" = Ok issued /\ truthy issued = true)
       /\ forall src dst, In (src, dst) passThroughFields ->
            exists v, get sampleCslItem src = Ok v
                      /\ hasOwn props dst = truthy v
                      /\ (truthy v = true -> own props dst = Some v).
Proof.
  split; [ reflexivity | ]. split; [ reflexivity | ].
  apply (proj2 (cslToZoteroItem_keys sampleCslItem) _ eq_refl).
Defined.

(* ================================================================= *)
(** * Part III. Further properties of the code *)
(* ================================================================= *)

(** ** The sniff test *)

Lemma test_lit (w s : string) : test (lit w) s = true <-> contains w s.
Proof.
  rewrite test_true, contains_here.
  split; intros [pre [post [E H]]]; exists pre, post; (split; [ exact E | ]).
  - rewrite rmatch_lit in H. destruct (startsWith w post); congruence.
  - rewrite rmatch_lit, H. discriminate.
Qed.

(** X1. A response body passes the sniff test exactly when [iiif.io] occurs
    in it, in this letter case; the empty body does not pass. *)
Theorem looksLikeIIIFManifest_contains (text : string) :
  looksLikeIIIFManifest text = true <-> contains "iiif.io" text.
Proof.
  unfold looksLikeIIIFManifest. destruct text as [ | c text]; cbn [nonEmpty negb].
  - split; [ discriminate | ].
    intros [pre [post E]]. destruct pre; discriminate E.
  - apply test_lit.
Qed.

(** ** More on label normalisation *)

Lemma item_loop_strings (strs : list string) :
  forall pieces, item_loop (map JStr strs) pieces = Ok (pieces ++ strs).
Proof.
  induction strs as [ | x strs IH]; intros pieces; simpl.
  - rewrite app_nil_r. reflexivity.
  - rewrite andb_false_r. simpl. rewrite IH, <- app_assoc. reflexivity.
Qed.

Lemma item_loop_value_objects (strs : list string) :
  forall pieces,
    item_loop (map (fun x => JObj [("@value", JStr x)]) strs) pieces
    = Ok (pieces ++ strs).
Proof.
  induction strs as [ | x strs IH]; intros pieces; simpl.
  - rewrite app_nil_r. reflexivity.
  - rewrite IH, <- app_assoc. reflexivity.
Qed.

Lemma push_truthy_strings (strs : list string) :
  forall pieces,
    push_truthy (map JStr strs) pieces = Ok (pieces ++ filter nonEmpty strs).
Proof.
  induction strs as [ | x strs IH]; intros pieces; simpl.
  - rewrite app_nil_r. reflexivity.
  - destruct (nonEmpty x); simpl; rewrite IH; [ rewrite <- app_assoc | ]; reflexivity.
Qed.

Lemma own_encoded (langs : list (string * list string)) (lang : string) (strs : list string) :
  NoDup (map fst langs) -> In (lang, strs) langs ->
  own (map (fun e => (fst e, JArr (map JStr (snd e)))) langs) lang
  = Some (JArr (map JStr strs)).
Proof.
  induction langs as [ | [k v] langs IH]; intros N I; [ contradiction | ].
  simpl in N. inversion N as [ | ? ? NI N' ]; subst. simpl.
  destruct I as [I | I].
  - injection I as -> ->. rewrite String.eqb_refl. reflexivity.
  - destruct (String.eqb k lang) eqn:E; [ | apply IH; assumption ].
    apply String.eqb_eq in E. subst k. exfalso. apply NI.
    change lang with (fst (lang, strs)). apply in_map. exact I.
Qed.

Lemma filter_all (x : string) (l : list string) :
  ~ In x l -> filter (fun y => negb (String.eqb x y)) l = l.
Proof.
  induction l as [ | y l IH]; intros N; simpl; [ reflexivity | ].
  destruct (String.eqb x y) eqn:E.
  - apply String.eqb_eq in E. subst y. exfalso. apply N. left; reflexivity.
  - simpl. rewrite IH; [ reflexivity | ]. intros I. apply N. right; exact I.
Qed.

Lemma dedup_NoDup (l : list string) : NoDup l -> dedup l = l.
Proof.
  induction 1 as [ | x l N _ IH]; simpl; [ reflexivity | ].
  rewrite IH, (filter_all _ _ N). reflexivity.
Qed.

Lemma lang_loop_strings (langs todo : list (string * list string)) :
  NoDup (map fst langs) -> incl todo langs ->
  forall pieces,
    lang_loop (JObj (map (fun e => (fst e, JArr (map JStr (snd e)))) langs))
      (map fst todo) pieces
    = Ok (pieces ++ flat_map (fun e => filter nonEmpty (snd e)) todo).
Proof.
  intros N. induction todo as [ | [lang strs] todo IH]; intros I pieces.
  - simpl. rewrite app_nil_r. reflexivity.
  - cbn [map fst lang_loop get bind flat_map snd].
    rewrite (own_encoded langs lang strs N (I _ (or_introl eq_refl))).
    rewrite push_truthy_strings. cbn [bind].
    rewrite IH; [ rewrite <- app_assoc; reflexivity | ].
    intros e E. apply I. right; exact E.
Qed.

(** X2. The three encodings of a label.  An array of strings, or of
    [@value] objects holding strings, gives the strings joined by a space,
    empty strings included, and trimmed; a language map gives, language after
    language, the non-empty strings joined by a space, and trimmed. *)
Theorem iiifLabelToString_encodings (strs : list string)
    (langs : list (string * list string)) :
  iiifLabelToString (JArr (map JStr strs)) = Ok (trim (join " " strs))
  /\ iiifLabelToString (JArr (map (fun x => JObj [("@value", JStr x)]) strs))
     = Ok (trim (join " " strs))
  /\ (NoDup (map fst langs) ->
      iiifLabelToString (JObj (map (fun e => (fst e, JArr (map JStr (snd e)))) langs))
      = Ok (trim (join " " (flat_map (fun e => filter nonEmpty (snd e)) langs)))).
Proof.
  split; [ | split ].
  - unfold iiifLabelToString. cbn [truthy negb typeof_object isArray andb].
    rewrite item_loop_strings. reflexivity.
  - unfold iiifLabelToString. cbn [truthy negb typeof_object isArray andb].
    rewrite item_loop_value_objects. reflexivity.
  - intros N. unfold iiifLabelToString. cbn [truthy negb typeof_object isArray andb].
    unfold own_keys. rewrite map_map. cbn [fst].
    change (map (fun x : string * list string => fst x) langs) with (map fst langs).
    rewrite (dedup_NoDup _ N), (lang_loop_strings langs langs N (incl_refl _)).
    reflexivity.
Qed.

Lemma iiifLabelToString_encodings_witness :
  NoDup (map fst [("en", ["Book"; ""; "of Hours "]); ("fr", ["Livre"])])
  /\ iiifLabelToString
       (JObj [("en", JArr [JStr "Book"; JStr ""; JStr "of Hours "]);
              ("fr", JArr [JStr "Livre"])])
     = Ok "Book of Hours  Livre".
Proof.
  assert (N : NoDup (map fst [("en", ["Book"; ""; "of Hours "]); ("fr", ["Livre"])])).
  { repeat constructor; simpl; intuition discriminate. }
  split; [ exact N | ].
  apply (proj2 (proj2 (iiifLabelToString_encodings []
                         [("en", ["Book"; ""; "of Hours "]); ("fr", ["Livre"])])) N).
Defined.

(** X3. Whatever the encoding of the label, the string returned has no white
    space at its two ends: trimming it, or normalising it again, gives it
    back. *)
Theorem iiifLabelToString_trimmed (v : value) (s : string) :
  iiifLabelToString v = Ok s ->
  trim s = s /\ iiifLabelToString (JStr s) = Ok s.
Proof.
  intros H. pose proof (iiifLabelToString_stable v s H) as S.
  split; [ | exact S ].
  rewrite iiifLabelToString_string in S. congruence.
Qed.

Lemma iiifLabelToString_trimmed_witness :
  iiifLabelToString (JArr [JStr " Foo"; JNull; JObj [("@value", JStr "Bar ")]])
  = Ok "Foo Bar"
  /\ trim "Foo Bar" = "Foo Bar".
Proof.
  split; [ reflexivity | ].
  apply (proj1 (iiifLabelToString_trimmed
                  (JArr [JStr " Foo"; JNull; JObj [("@value", JStr "Bar ")]])
                  "Foo Bar" eq_refl)).
Defined.

(** ** More on the metadata lookup *)

Lemma lowerChar_idempotent (c : ascii) : lowerChar (lowerChar c) = lowerChar c.
Proof. destruct c as [[] [] [] [] [] [] [] []]; reflexivity. Qed.

Lemma toLowerCase_idempotent (s : string) : toLowerCase (toLowerCase s) = toLowerCase s.
Proof.
  induction s as [ | c s IH]; simpl; [ reflexivity | ].
  rewrite lowerChar_idempotent, IH. reflexivity.
Qed.

Lemma labelMatches_lowered (labelStr : string) (keys : list string) :
  labelMatches labelStr (map toLowerCase keys) = labelMatches labelStr keys.
Proof.
  unfold labelMatches. induction keys as [ | key keys IH]; simpl; [ reflexivity | ].
  rewrite toLowerCase_idempotent, IH. reflexivity.
Qed.

Lemma entry_loop_same_matches (entries : list value) (keys keys' : list string) :
  (forall labelStr, labelMatches labelStr keys' = labelMatches labelStr keys) ->
  entry_loop entries keys' = entry_loop entries keys.
Proof.
  intros S. induction entries as [ | entry rest IH]; [ reflexivity | ].
  rewrite !entry_loop_cons, IH. unfold entryValue.
  destruct (prop entry "label") as [l | e]; simpl; [ | reflexivity ].
  destruct (iiifLabelToString l) as [labelStr | e]; simpl; [ | reflexivity ].
  rewrite !key_loop_spec, S. reflexivity.
Qed.

Lemma entry_loop_trimmed (entries : list value) (keys : list string) (r : string) :
  entry_loop entries keys = Ok r -> trim r = r.
Proof.
  induction entries as [ | entry rest IH]; [ intros H; injection H as <-; reflexivity | ].
  rewrite entry_loop_cons. intros H. bind_inv H.
  destruct a as [valueStr | ]; [ | apply IH; exact H ].
  injection H as <-. apply entryValue_hit in E.
  destruct E as [l [labelStr [v [_ [_ [_ [_ [V _]]]]]]]].
  pose proof (iiifLabelToString_stable _ _ V) as S.
  rewrite iiifLabelToString_string in S. congruence.
Qed.

(** X4. The candidate names are compared without regard to letter case, so
    two candidate lists that agree once lower-cased give the same result (the
    lower-case duplicates in the candidate lists of the extractors add
    nothing); and the value returned is empty or trimmed. *)
Theorem getFirstMetadataValue_case_insensitive
    (manifest : value) (keys keys' : list string) :
  map toLowerCase keys = map toLowerCase keys' ->
  getFirstMetadataValue manifest keys = getFirstMetadataValue manifest keys'
  /\ forall r, getFirstMetadataValue manifest keys = Ok r -> trim r = r.
Proof.
  intros E. unfold getFirstMetadataValue.
  destruct (metadataEntries manifest) as [entries | e]; simpl; [ | split; [ reflexivity | discriminate ] ].
  split.
  - apply entry_loop_same_matches. intros labelStr.
    rewrite <- (labelMatches_lowered labelStr keys), <- (labelMatches_lowered labelStr keys'), E.
    reflexivity.
  - intros r. apply entry_loop_trimmed.
Qed.

Lemma getFirstMetadataValue_case_insensitive_witness :
  map toLowerCase ["Author"; "Creator"; "author"; "creator"]
  = map toLowerCase ["AUTHOR"; "creator"; "Author"; "CREATOR"]
  /\ getFirstMetadataValue creatorFirst ["Author"; "Creator"; "author"; "creator"]
     = getFirstMetadataValue creatorFirst ["AUTHOR"; "creator"; "Author"; "CREATOR"].
Proof.
  split; [ reflexivity | ].
  apply (proj1 (getFirstMetadataValue_case_insensitive creatorFirst
                  ["Author"; "Creator"; "author"; "creator"]
                  ["AUTHOR"; "creator"; "Author"; "CREATOR"] eq_refl)).
Defined.

(** ** More on the retrieval loop *)

Section RetrievalMore.

Context {P : Platform}.

Lemma url_loop_app (l1 l2 : list string) :
  forall st, url_loop (l1 ++ l2) st = url_loop l2 (url_loop l1 st).
Proof.
  induction l1 as [ | url l1 IH]; intros st; [ reflexivity | ].
  cbn [app]. rewrite !url_loop_cons. apply IH.
Qed.

Lemma url_loop_count (urls : list string) :
  forall st,
    List.length (items (url_loop urls st)) + List.length (diagnostics (url_loop urls st))
    = List.length (items st) + List.length (diagnostics st)
      + List.length (filter nonEmpty urls).
Proof.
  induction urls as [ | url rest IH]; intros st.
  - simpl. lia.
  - rewrite url_loop_cons, IH.
    destruct (turn_spec url st) as [TI [_ TD]].
    apply (f_equal (@List.length _)) in TD. rewrite length_map, length_app, length_map in TD.
    rewrite TI, TD, length_app. cbn [filter].
    destruct (nonEmpty url); cbn [andb].
    + destruct (recordOf url (world st)); simpl; lia.
    + simpl. lia.
Qed.

(** X5. Every non-empty URL ends either as a record or as a diagnostic: the
    number of records plus the number of diagnostics is the number of
    non-empty URLs, so there are never more records than URLs. *)
Theorem iiifManifestUrlsToCSL_count (urls : list string) (w : World) :
  List.length (items (iiifManifestUrlsToCSL urls w))
  + List.length (diagnostics (iiifManifestUrlsToCSL urls w))
  = List.length (filter nonEmpty urls)
  /\ List.length (items (iiifManifestUrlsToCSL urls w)) <= List.length urls.
Proof.
  unfold iiifManifestUrlsToCSL.
  pose proof (url_loop_count urls {| items := []; diagnostics := []; world := w |}) as C.
  cbn [items diagnostics List.length] in C.
  pose proof (filter_length_le nonEmpty urls) as L.
  split; lia.
Qed.

Lemma url_loop_from (urls : list string) (st : LoopState) :
  items (url_loop urls st)
  = items st ++ items (iiifManifestUrlsToCSL urls (world st))
  /\ diagnostics (url_loop urls st)
     = diagnostics st ++ diagnostics (iiifManifestUrlsToCSL urls (world st))
  /\ world (url_loop urls st) = world (iiifManifestUrlsToCSL urls (world st)).
Proof.
  unfold iiifManifestUrlsToCSL. revert st.
  induction urls as [ | url rest IH]; intros st.
  - simpl. rewrite !app_nil_r. auto.
  - rewrite !url_loop_cons.
    destruct (IH (turn url st)) as [I1 [D1 W1]].
    destruct (IH (turn url {| items := []; diagnostics := []; world := world st |}))
      as [I2 [D2 W2]].
    assert (T : items (turn url st)
                = items st ++ items (turn url {| items := []; diagnostics := [];
                                                 world := world st |})
                /\ diagnostics (turn url st)
                   = diagnostics st
                     ++ diagnostics (turn url {| items := []; diagnostics := [];
                                                 world := world st |})
                /\ world (turn url st)
                   = world (turn url {| items := []; diagnostics := [];
                                        world := world st |})).
    { unfold turn. cbn [url_loop world].
      destruct (negb (nonEmpty url)); cbn [items diagnostics world];
        [ rewrite !app_nil_r; auto | ].
      destruct (fetchManifest url (world st)) as [[manifest | f] w'].
      - destruct (manifestToCSLItem manifest url); cbn [items diagnostics world];
          rewrite ?app_nil_r; auto.
      - cbn [items diagnostics world]. rewrite ?app_nil_r. auto. }
    destruct T as [TI [TD TW]].
    rewrite I1, D1, W1, I2, D2, W2, TI, TD, TW, !app_assoc. auto.
Qed.

(** X6. A batch can be cut in two: converting [l1 ++ l2] gives the records
    and the diagnostics of [l1], followed by those of [l2] converted in the
    network state that [l1] leaves. *)
Theorem iiifManifestUrlsToCSL_app (l1 l2 : list string) (w : World) :
  items (iiifManifestUrlsToCSL (l1 ++ l2) w)
  = items (iiifManifestUrlsToCSL l1 w)
    ++ items (iiifManifestUrlsToCSL l2 (world (iiifManifestUrlsToCSL l1 w)))
  /\ diagnostics (iiifManifestUrlsToCSL (l1 ++ l2) w)
     = diagnostics (iiifManifestUrlsToCSL l1 w)
       ++ diagnostics (iiifManifestUrlsToCSL l2 (world (iiifManifestUrlsToCSL l1 w)))
  /\ world (iiifManifestUrlsToCSL (l1 ++ l2) w)
     = world (iiifManifestUrlsToCSL l2 (world (iiifManifestUrlsToCSL l1 w))).
Proof.
  pose proof (url_loop_from l2 (url_loop l1 {| items := []; diagnostics := []; world := w |}))
    as F.
  rewrite <- url_loop_app in F. exact F.
Qed.

(** When the answer of the network to a URL does not depend on the requests
    made before, neither does the record of the URL. *)
Lemma recordOf_stateless (url : string) (w w' : World) :
  (forall u a b, fst (fetch u a) = fst (fetch u b)) ->
  recordOf url w = recordOf url w'.
Proof. intros S. rewrite !recordOf_cases, (S url w w'). reflexivity. Qed.

Lemma items_stateless (urls : list string) :
  (forall u a b, fst (fetch u a) = fst (fetch u b)) ->
  forall w0 st,
    items (url_loop urls st)
    = items st
      ++ flat_map (fun u => if nonEmpty u then contribution (recordOf u w0) else []) urls.
Proof.
  intros S w0. induction urls as [ | url rest IH]; intros st.
  - simpl. rewrite app_nil_r. reflexivity.
  - rewrite url_loop_cons, IH. destruct (turn_spec url st) as [TI _].
    rewrite TI, <- app_assoc. cbn [flat_map]. f_equal. f_equal.
    destruct (nonEmpty url); [ | reflexivity ].
    rewrite (recordOf_stateless url (world st) w0 S). reflexivity.
Qed.

(** X7. On a network whose answers do not depend on earlier requests, the
    records are those of the URLs one by one, and leaving the empty and the
    failing URLs out of the input does not change the records returned. *)
Theorem iiifManifestUrlsToCSL_failures_inert (urls : list string) (w : World) :
  (forall u a b, fst (fetch u a) = fst (fetch u b)) ->
  items (iiifManifestUrlsToCSL urls w)
  = flat_map (fun u => if nonEmpty u then contribution (recordOf u w) else []) urls
  /\ items (iiifManifestUrlsToCSL
              (filter (fun u => nonEmpty u
                                && match recordOf u w with Some _ => true | None => false end)
                 urls) w)
     = items (iiifManifestUrlsToCSL urls w).
Proof.
  intros S. unfold iiifManifestUrlsToCSL.
  rewrite !(items_stateless _ S w). cbn [items app]. split; [ reflexivity | ].
  induction urls as [ | url rest IH]; [ reflexivity | ].
  cbn [filter flat_map]. destruct (nonEmpty url) eqn:N; cbn [andb]; [ | exact IH ].
  destruct (recordOf url w) eqn:R; cbn [flat_map contribution app].
  - rewrite N, R, IH. reflexivity.
  - exact IH.
Qed.

End RetrievalMore.

Lemma reference_network_stateless (u : string) (a b : Reference.Requests) :
  fst (fetch (Platform := Reference.platform) u a)
  = fst (fetch (Platform := Reference.platform) u b).
Proof. reflexivity. Qed.

Lemma iiifManifestUrlsToCSL_failures_inert_witness :
  items (iiifManifestUrlsToCSL (P := Reference.platform)
           [Reference.urlA; Reference.urlC] [])
  = items (iiifManifestUrlsToCSL (P := Reference.platform)
             [Reference.urlA; ""; Reference.urlB; Reference.urlD; Reference.urlC] []).
Proof.
  exact (proj2 (iiifManifestUrlsToCSL_failures_inert (P := Reference.platform)
                  [Reference.urlA; ""; Reference.urlB; Reference.urlD; Reference.urlC] []
                  reference_network_stateless)).
Defined.

(** ** The shape of a citation record *)

Lemma trimEnd_append (a b : string) :
  trimEnd (a ++ b)
  = match trimEnd b with EmptyString => trimEnd a | t => (a ++ t)%string end.
Proof.
  induction a as [ | c a IH]; cbn [append].
  - destruct (trimEnd b); reflexivity.
  - cbn [trimEnd]. rewrite IH. destruct (trimEnd b) as [ | d t]; [ reflexivity | ].
    destruct a; reflexivity.
Qed.

Lemma join_cons (sep x : string) (l : list string) :
  join sep (x :: l)
  = (x ++ match l with [] => "" | _ => sep ++ join sep l end)%string.
Proof. destruct l; cbn [join]; [ rewrite append_empty_r | ]; reflexivity. Qed.

Section NoteHeading.

Context {P : Platform}.

Lemma note_loop_appends (entries : list value) :
  forall lines r, note_loop entries lines = Ok r -> exists more, r = lines ++ more.
Proof.
  induction entries as [ | entry rest IH]; intros lines r H; cbn [note_loop] in H.
  - injection H as <-. exists []. rewrite app_nil_r. reflexivity.
  - bind_inv H. destruct (nonEmpty a0 || nonEmpty a2).
    + destruct (IH _ _ H) as [more ->]. rewrite <- app_assoc. eexists; reflexivity.
    + apply IH; exact H.
Qed.

Lemma printed_line_appends (a : value) (prefix : string) (lines r : list string) :
  (if truthy a
   then s <- ToString a ;; Ok (lines ++ [(prefix ++ s)%string])
   else Ok lines) = Ok r ->
  exists more, r = lines ++ more.
Proof.
  destruct (truthy a); intros H.
  - bind_inv H. injection H as <-. eexists; reflexivity.
  - injection H as <-. exists []. rewrite app_nil_r. reflexivity.
Qed.

Lemma trim_headed (more : list string) :
  exists rest,
    trim (join (String LF "")
            ("IIIF manifest metadata" :: "======================" :: more))
    = (NOTE_HEADING ++ rest)%string.
Proof.
  rewrite join_cons, (join_cons _ "======================").
  set (t := match more with
            | [] => ""
            | _ => (String LF "" ++ join (String LF "") more)%string
            end).
  change (exists rest, trim (NOTE_HEADING ++ t) = (NOTE_HEADING ++ rest)%string).
  unfold trim.
  replace (trimStart (NOTE_HEADING ++ t)) with (NOTE_HEADING ++ t)%string by reflexivity.
  rewrite trimEnd_append. destruct (trimEnd t) as [ | d t'].
  - exists "". rewrite append_empty_r. reflexivity.
  - eexists; reflexivity.
Qed.

Lemma buildIiifNote_heading (manifest : value) (manifestUrl note : string) :
  buildIiifNote manifest manifestUrl = Ok note ->
  exists rest, note = (NOTE_HEADING ++ rest)%string.
Proof.
  unfold buildIiifNote. intros H.
  set (lines0 := if nonEmpty manifestUrl then _ else _) in H.
  assert (L0 : exists more,
             lines0 = "IIIF manifest metadata" :: "======================" :: more).
  { subst lines0. destruct (nonEmpty manifestUrl); eexists; reflexivity. }
  clearbody lines0. destruct L0 as [m0 ->].
  bind_inv H.
  apply (printed_line_appends a "@id: "
           ("IIIF manifest metadata" :: "======================" :: m0))
    in E0 as [m1 ->].
  apply (printed_line_appends a1 "@context: ") in E2 as [m2 ->].
  assert (L : exists more,
             a6 = "IIIF manifest metadata" :: "======================" :: more).
  { destruct a5.
    - bind_inv E6. apply note_loop_appends in E6 as [m3 ->].
      eexists. cbn [app]. reflexivity.
    - injection E6 as <-. eexists. cbn [app]. reflexivity. }
  destruct L as [more ->]. injection H as <-.
  destruct (trim_headed more) as [rest R]. exists rest. exact R.
Qed.

Lemma buildIiifNote_nonEmpty (manifest : value) (manifestUrl note : string) :
  buildIiifNote manifest manifestUrl = Ok note -> nonEmpty note = true.
Proof. intros H. apply buildIiifNote_heading in H as [rest ->]. reflexivity. Qed.

End NoteHeading.

Lemma inferTypeFromMetadata_vocabulary (manifest : value) (type : string) :
  inferTypeFromMetadata manifest = Ok type ->
  type = "manuscript" \/ type = "article-journal" \/ type = "book".
Proof.
  unfold inferTypeFromMetadata. intros H. bind_inv H.
  destruct (test RE_MANUSCRIPT a); [ injection H as <-; auto | ].
  destruct (test RE_ARTICLE a); injection H as <-; auto.
Qed.

Section RecordFields.

Context {P : Platform}.

Lemma manifestToCSLItem_fields (manifest item : value) (manifestUrl : string) :
  manifestToCSLItem manifest manifestUrl = Ok item ->
  exists id title u authors issued publisher type note,
    extractAuthors manifest = Ok authors
    /\ extractDate manifest = Ok issued
    /\ extractPublisher manifest = Ok publisher
    /\ inferTypeFromMetadata manifest = Ok type
    /\ buildIiifNote manifest manifestUrl = Ok note
    /\ nonEmpty id = true /\ nonEmpty title = true
    /\ item
       = JObj ([("id", JStr id); ("type", JStr type); ("title", JStr title); ("URL", u)]
               ++ (match authors with [] => [] | _ => [("author", JArr authors)] end)
               ++ (if nonEmpty issued
                   then [("issued", JObj [("date-parts", JArr [JArr [JStr issued]])])]
                   else [])
               ++ (if nonEmpty publisher then [("publisher", JStr publisher)] else [])
               ++ [("note", JStr note)]).
Proof.
  intros H. unfold manifestToCSLItem in H. bind_inv H. injection H as <-.
  exists (if nonEmpty a1 then a1 else a0), a0, a8, a2, a3, a4, a5, a7.
  assert (T : nonEmpty a0 = true).
  { destruct (nonEmpty a) eqn:N; [ injection E0 as <-; exact N | ].
    cbn [bind] in E0.
    destruct (nonEmpty a1) eqn:N1; injection E0 as <-; [ exact N1 | reflexivity ]. }
  rewrite (buildIiifNote_nonEmpty _ _ _ E7).
  do 5 (split; [ reflexivity || assumption | ]).
  split; [ destruct (nonEmpty a1) eqn:N1; [ exact N1 | exact T ] | ].
  split; [ exact T | reflexivity ].
Qed.

End RecordFields.

Section RecordShape.

Context {P : Platform}.

(** X8. Every record has the keys [id], [type], [title], [URL] and [note],
    and no key besides these and [author], [issued] and [publisher], each at
    most once; the identifier and the title are not empty; the type is one
    of [manuscript], [article-journal] and [book]; the note is never empty:
    it starts with the two heading lines. *)
Theorem manifestToCSLItem_shape (manifest item : value) (manifestUrl : string) :
  manifestToCSLItem manifest manifestUrl = Ok item ->
  exists props id type title rest,
    item = JObj props
    /\ NoDup (map fst props)
    /\ incl (map fst props)
         ["id"; "type"; "title"; "URL"; "author"; "issued"; "publisher"; "note"]
    /\ own props "id" = Some (JStr id) /\ id <> ""
    /\ own props "title" = Some (JStr title) /\ title <> ""
    /\ own props "type" = Some (JStr type)
    /\ (type = "manuscript" \/ type = "article-journal" \/ type = "book")
    /\ hasOwn props "URL" = true
    /\ own props "note" = Some (JStr (NOTE_HEADING ++ rest)).
Proof.
  intros H.
  destruct (manifestToCSLItem_fields _ _ _ H)
    as [id [title [u [authors [issued [publisher [type [note
         [_ [_ [_ [T [N [I [L ->]]]]]]]]]]]]]]].
  apply buildIiifNote_heading in N as [rest ->].
  eexists; exists id, type, title, rest.
  split; [ reflexivity | ].
  split.
  { destruct authors; destruct (nonEmpty issued); destruct (nonEmpty publisher);
      cbn [app map fst];
      repeat (constructor; [ cbn [In]; intuition discriminate | ]); constructor. }
  split.
  { destruct authors; destruct (nonEmpty issued); destruct (nonEmpty publisher);
      cbn [app map fst]; intros k K; cbn [In] in K |- *; intuition auto. }
  split; [ reflexivity | ]. split; [ apply nonEmpty_true; exact I | ].
  split; [ reflexivity | ]. split; [ apply nonEmpty_true; exact L | ].
  split; [ reflexivity | ].
  split; [ exact (inferTypeFromMetadata_vocabulary _ _ T) | ].
  split; [ reflexivity | ].
  destruct authors; destruct (nonEmpty issued); destruct (nonEmpty publisher); reflexivity.
Qed.

End RecordShape.

Lemma manifestToCSLItem_shape_witness :
  exists item,
    manifestToCSLItem (P := Reference.platform) Reference.manifestC Reference.urlC
    = Ok item
    /\ exists props id type title rest,
         item = JObj props
         /\ NoDup (map fst props)
         /\ incl (map fst props)
              ["id"; "type"; "title"; "URL"; "author"; "issued"; "publisher"; "note"]
         /\ own props "id" = Some (JStr id) /\ id <> ""
         /\ own props "title" = Some (JStr title) /\ title <> ""
         /\ own props "type" = Some (JStr type)
         /\ (type = "manuscript" \/ type = "article-journal" \/ type = "book")
         /\ hasOwn props "URL" = true
         /\ own props "note" = Some (JStr (NOTE_HEADING ++ rest)).
Proof.
  destruct (manifestToCSLItem (P := Reference.platform)
              Reference.manifestC Reference.urlC) as [item | e] eqn:E.
  - exists item. split; [ reflexivity | ].
    apply (manifestToCSLItem_shape (P := Reference.platform) _ _ _ E).
  - vm_compute in E. discriminate E.
Defined.

(** ** From a manifest to a Zotero item *)

Lemma author_loop_extracted (manifest : value) (authors : list value) :
  extractAuthors manifest = Ok authors ->
  exists creators, author_loop authors [] = Ok creators.
Proof.
  intros E. destruct (extractAuthors_good _ _ E) as [_ W].
  apply author_loop_total. rewrite forallb_forall in W. apply Forall_forall.
  intros a I. apply trimmedNames_total, W, I.
Qed.

Section RecordToZotero.

Context {P : Platform}.

(** The Zotero item of a record of [manifestToCSLItem], key by key. *)
Lemma record_to_Zotero (manifest item : value) (manifestUrl : string) :
  manifestToCSLItem manifest manifestUrl = Ok item ->
  exists type title u issued publisher note creators,
    inferTypeFromMetadata manifest = Ok type
    /\ extractDate manifest = Ok issued
    /\ extractPublisher manifest = Ok publisher
    /\ buildIiifNote manifest manifestUrl = Ok note
    /\ get item "title" = Ok (JStr title)
    /\ cslToZoteroItem item
       = Ok (JObj
               ([("itemType", JStr (itemTypeTable type)); ("title", JStr title);
                 ("creators", JArr creators)]
                ++ (if nonEmpty issued then [("date", JStr issued)] else [])
                ++ (if nonEmpty publisher then [("publisher", JStr publisher)] else [])
                ++ setIfTruthy "url" u ++ [("extra", JStr note)])).
Proof.
  intros H.
  destruct (manifestToCSLItem_fields _ _ _ H)
    as [id [title [u [authors [issued [publisher [type [note
         [A [D [B [T [N [I [L ->]]]]]]]]]]]]]]].
  destruct (author_loop_extracted _ _ A) as [creators C].
  pose proof (buildIiifNote_nonEmpty _ _ _ N) as NN.
  pose proof (inferTypeFromMetadata_vocabulary _ _ T) as V.
  assert (M : mapCslAuthorsToCreators
                (JObj ([("id", JStr id); ("type", JStr type); ("title", JStr title); ("URL", u)]
               ++ (match authors with [] => [] | _ => [("author", JArr authors)] end)
               ++ (if nonEmpty issued
                   then [("issued", JObj [("date-parts", JArr [JArr [JStr issued]])])]
                   else [])
               ++ (if nonEmpty publisher then [("publisher", JStr publisher)] else [])
               ++ [("note", JStr note)])) = Ok creators).
  { unfold mapCslAuthorsToCreators.
    destruct authors; destruct (nonEmpty issued); destruct (nonEmpty publisher); exact C. }
  exists type, title, u, issued, publisher, note, creators.
  do 4 (split; [ assumption | ]). split; [ reflexivity | ].
  unfold cslToZoteroItem. rewrite M.
  destruct title as [ | c0 title]; [ discriminate L | ].
  destruct note as [ | c1 note]; [ discriminate NN | ].
  unfold setIfTruthy.
  destruct V as [-> | [-> | ->]]; destruct authors; destruct issued;
    destruct publisher; destruct (truthy u) eqn:U;
    cbn -[author_loop]; rewrite ?U; reflexivity.
Qed.

(** X9. The mapping to a Zotero item never throws on a record of
    [manifestToCSLItem], whatever the manifest; the item type is the one the
    table gives for the inferred type, the title is the title of the record,
    [date] is the extracted date (absent when there is none), [publisher] the
    extracted publisher (absent when there is none), [extra] the note; the
    keys [archive], [archiveLocation] and [libraryCatalog] are never set. *)
Theorem manifest_record_to_Zotero (manifest item : value) (manifestUrl : string) :
  manifestToCSLItem manifest manifestUrl = Ok item ->
  exists props type title issued publisher note,
    cslToZoteroItem item = Ok (JObj props)
    /\ inferTypeFromMetadata manifest = Ok type
    /\ own props "itemType" = Some (JStr (itemTypeTable type))
    /\ get item "title" = Ok (JStr title)
    /\ own props "title" = Some (JStr title)
    /\ extractDate manifest = Ok issued
    /\ own props "date" = (if nonEmpty issued then Some (JStr issued) else None)
    /\ extractPublisher manifest = Ok publisher
    /\ own props "publisher"
       = (if nonEmpty publisher then Some (JStr publisher) else None)
    /\ buildIiifNote manifest manifestUrl = Ok note
    /\ own props "extra" = Some (JStr note)
    /\ own props "archive" = None
    /\ own props "archiveLocation" = None
    /\ own props "libraryCatalog" = None.
Proof.
  intros H.
  destruct (record_to_Zotero _ _ _ H)
    as [type [title [u [issued [publisher [note [creators [T [D [B [N [G Z]]]]]]]]]]]].
  eexists; exists type, title, issued, publisher, note.
  split; [ exact Z | ]. unfold setIfTruthy.
  split; [ exact T | ]. split; [ reflexivity | ].
  split; [ exact G | ]. split; [ reflexivity | ].
  split; [ exact D | ].
  split; [ destruct issued; destruct publisher; destruct (truthy u); reflexivity | ].
  split; [ exact B | ].
  split; [ destruct issued; destruct publisher; destruct (truthy u); reflexivity | ].
  split; [ exact N | ].
  repeat split; destruct issued; destruct publisher; destruct (truthy u); reflexivity.
Qed.

End RecordToZotero.

Lemma manifest_record_to_Zotero_witness :
  exists item z,
    manifestToCSLItem (P := Reference.platform) Reference.manifestC Reference.urlC
    = Ok item
    /\ cslToZoteroItem item = Ok z.
Proof.
  destruct (manifestToCSLItem (P := Reference.platform)
              Reference.manifestC Reference.urlC) as [item | e] eqn:E.
  - exists item.
    destruct (manifest_record_to_Zotero (P := Reference.platform) _ _ _ E)
      as [props [_ [_ [_ [_ [_ [Z _]]]]]]].
    exists (JObj props). split; [ reflexivity | exact Z ].
  - vm_compute in E. discriminate E.
Defined.

(** ** Splitting on runs of separators *)

Lemma star_class (f : ascii -> bool) (n : nat) :
  forall prev s, String.length s <= n ->
    star_loop (rmatch (RClass f)) n prev s done = Some (skipChars f s).
Proof.
  induction n as [ | n IH]; intros prev s L.
  - destruct s; [ reflexivity | simpl in L; lia ].
  - cbn [star_loop rmatch]. destruct s as [ | c s']; [ reflexivity | ].
    cbn [skipChars]. destruct (f c); [ | reflexivity ].
    replace (Nat.ltb (String.length s') (String.length (String c s'))) with true
      by (symmetry; apply Nat.ltb_lt; simpl; lia).
    rewrite IH by (simpl in L; lia). reflexivity.
Qed.

Lemma rmatch_star_class (f : ascii -> bool) (prev : option ascii) (s : string) :
  rmatch (RStar (RClass f)) prev s done = Some (skipChars f s).
Proof.
  change (star_loop (rmatch (RClass f)) (String.length s) prev s done
          = Some (skipChars f s)).
  apply star_class. lia.
Qed.

Lemma skipChars_length (f : ascii -> bool) (s : string) :
  String.length (skipChars f s) <= String.length s.
Proof.
  induction s as [ | c s IH]; simpl; [ lia | ]. destruct (f c); simpl; lia.
Qed.

Lemma skipChars_split (f : ascii -> bool) (s : string) :
  exists run,
    s = (run ++ skipChars f s)%string
    /\ String.length run = String.length s - String.length (skipChars f s).
Proof.
  induction s as [ | c s [run [E L]]]; cbn [skipChars].
  - exists "". split; reflexivity.
  - destruct (f c).
    + exists (String c run). split; [ cbn [append]; f_equal; exact E | ].
      pose proof (skipChars_length f s). cbn [String.length]. lia.
    + exists "". split; [ reflexivity | cbn [String.length]; lia ].
Qed.

Lemma match_here_plus (f : ascii -> bool) (prev : option ascii) (c : ascii) (s : string) :
  match_here (RPlus (RClass f)) prev (String c s)
  = if f c
    then Some (String c (take (String.length s - String.length (skipChars f s)) s))
    else None.
Proof.
  unfold match_here, RPlus.
  change (rmatch (RSeq (RClass f) (RStar (RClass f))) prev (String c s) done)
    with (if f c then rmatch (RStar (RClass f)) (Some c) s done else None).
  destruct (f c); [ | reflexivity ].
  rewrite rmatch_star_class.
  pose proof (skipChars_length f s).
  replace (String.length (String c s) - String.length (skipChars f s))
    with (S (String.length s - String.length (skipChars f s)))
    by (cbn [String.length]; lia).
  reflexivity.
Qed.

Lemma split_go_skip (r : regex) (run : string) :
  forall prev rest cur,
    split_go r prev (run ++ rest) (String.length run) cur
    = split_go r (prevAfter prev run) rest 0 cur.
Proof.
  induction run as [ | c run IH]; intros prev rest cur; [ reflexivity | ].
  cbn [append String.length split_go prevAfter]. apply IH.
Qed.

Lemma words_skip (f : ascii -> bool) (s : string) :
  forall cur, words f true s cur = words f false (skipChars f s) cur.
Proof.
  induction s as [ | c s IH]; intros cur; [ reflexivity | ].
  cbn [words skipChars]. destruct (f c) eqn:F; [ apply IH | ].
  cbn [words]. rewrite F. reflexivity.
Qed.

Lemma split_go_words (f : ascii -> bool) (n : nat) :
  forall s prev cur, String.length s <= n ->
    split_go (RPlus (RClass f)) prev s 0 cur = words f false s cur.
Proof.
  induction n as [ | n IH]; intros s prev cur L.
  - destruct s; [ reflexivity | simpl in L; lia ].
  - destruct s as [ | c s]; [ reflexivity | ].
    cbn [split_go words]. rewrite match_here_plus.
    destruct (f c).
    + f_equal. rewrite words_skip.
      destruct (skipChars_split f s) as [run [E R]].
      pose proof (skipChars_length f s) as SL.
      set (rest := skipChars f s) in *. rewrite <- R. clearbody rest. subst s.
      rewrite take_append, split_go_skip.
      apply IH. cbn [String.length] in L. lia.
    + apply IH. cbn [String.length] in L. lia.
Qed.

Lemma split_words (f : ascii -> bool) (s : string) :
  split (RPlus (RClass f)) s = words f false s "".
Proof.
  destruct s as [ | c s]; [ reflexivity | ].
  unfold split. apply (split_go_words f (String.length (String c s))). lia.
Qed.

(** ** Names, authors and creators *)

Lemma allChars_revOnto (g : ascii -> bool) (s : string) :
  forall acc, allChars g (revOnto s acc) = allChars g s && allChars g acc.
Proof.
  induction s as [ | c s IH]; intros acc; cbn [revOnto allChars]; [ reflexivity | ].
  rewrite IH. cbn [allChars]. destruct (g c); destruct (allChars g s); reflexivity.
Qed.

Lemma nonEmpty_revOnto (s : string) :
  forall acc, nonEmpty (revOnto s acc) = nonEmpty s || nonEmpty acc.
Proof.
  induction s as [ | c s IH]; intros acc; cbn [revOnto]; [ reflexivity | ].
  rewrite IH. cbn [nonEmpty]. rewrite orb_true_r. reflexivity.
Qed.

Lemma isWord_rev (cur : string) :
  nonEmpty cur = true -> allChars notWhiteSpace cur = true -> isWord (rev cur) = true.
Proof.
  intros N A. unfold isWord, rev.
  rewrite nonEmpty_revOnto, allChars_revOnto, N, A. reflexivity.
Qed.

Lemma trimEnd_tail (c : ascii) (s : string) :
  trimEnd (String c s) = String c s ->
  trimEnd s = s /\ (isWhiteSpace c = true -> nonEmpty s = true).
Proof.
  cbn [trimEnd]. destruct (trimEnd s) as [ | d t] eqn:T.
  - destruct (isWhiteSpace c); [ discriminate | ].
    intros H. injection H as <-. split; [ reflexivity | discriminate ].
  - intros H. injection H as <-. split; [ reflexivity | reflexivity ].
Qed.

(** The pieces of a string that does not end with white space are words:
    read from inside a word, and read from inside a separator. *)
Lemma words_are_words (s : string) :
  trimEnd s = s ->
  (forall cur, nonEmpty cur = true -> allChars notWhiteSpace cur = true ->
     forallb isWord (words isWhiteSpace false s cur) = true)
  /\ (nonEmpty s = true -> forallb isWord (words isWhiteSpace true s "") = true).
Proof.
  induction s as [ | c s IH]; intros T.
  - split; [ | discriminate ].
    intros cur N A. cbn [words forallb]. rewrite (isWord_rev _ N A). reflexivity.
  - destruct (trimEnd_tail _ _ T) as [T' S]. destruct (IH T') as [IA IB].
    cbn [words]. destruct (isWhiteSpace c) eqn:W.
    + split.
      * intros cur N A. cbn [forallb]. rewrite (isWord_rev _ N A), (IB (S eq_refl)).
        reflexivity.
      * intros _. apply IB, S. reflexivity.
    + split.
      * intros cur N A. apply IA; [ reflexivity | ].
        cbn [allChars]. unfold notWhiteSpace at 1. rewrite W, A. reflexivity.
      * intros _. apply IA; [ reflexivity | ].
        cbn [allChars]. unfold notWhiteSpace. rewrite W. reflexivity.
Qed.

Lemma trim_fixed_ends (c : ascii) (s : string) :
  trim (String c s) = String c s ->
  isWhiteSpace c = false /\ trimEnd s = s.
Proof.
  unfold trim. intros H.
  destruct (trimStart (String c s)) as [ | d t] eqn:E.
  - discriminate H.
  - pose proof (trimStart_head _ _ _ E) as W.
    rewrite (trimEnd_keeps_head _ _ W) in H. injection H as -> H.
    split; [ exact W | ].
    cbn [trimStart] in E. rewrite W in E. injection E as <-. exact H.
Qed.

Lemma split_spaces_words (nameStr : string) :
  trim nameStr = nameStr -> nonEmpty nameStr = true ->
  forallb isWord (split RE_SPACES nameStr) = true.
Proof.
  intros T N. destruct nameStr as [ | c s]; [ discriminate N | ].
  destruct (trim_fixed_ends _ _ T) as [W E].
  unfold RE_SPACES. rewrite split_words. cbn [words]. rewrite W.
  apply (proj1 (words_are_words s E)); [ reflexivity | ].
  cbn [allChars]. unfold notWhiteSpace. rewrite W. reflexivity.
Qed.

Lemma trimEnd_word (t : string) : allChars notWhiteSpace t = true -> trimEnd t = t.
Proof.
  induction t as [ | c t IH]; [ reflexivity | ].
  cbn [allChars]. intros H. apply andb_true_iff in H as [C A].
  unfold notWhiteSpace in C. apply negb_true_iff in C.
  rewrite (trimEnd_keeps_head _ _ C), (IH A). reflexivity.
Qed.

Lemma isWord_head (t : string) :
  isWord t = true ->
  exists c t', t = String c t' /\ isWhiteSpace c = false
               /\ allChars notWhiteSpace t = true.
Proof.
  unfold isWord. destruct t as [ | c t']; [ discriminate | ].
  cbn [nonEmpty andb]. intros A. exists c, t'. split; [ reflexivity | ].
  split; [ | exact A ].
  cbn [allChars] in A. apply andb_true_iff in A as [C _].
  unfold notWhiteSpace in C. apply negb_true_iff in C. exact C.
Qed.

Lemma trim_word (t : string) : isWord t = true -> trim t = t.
Proof.
  intros H. destruct (isWord_head _ H) as [c [t' [-> [W A]]]].
  unfold trim. rewrite (trimStart_fixed _ _ W). apply trimEnd_word, A.
Qed.

(** Words joined by single spaces need no trimming. *)
Lemma trim_join_words (l : list string) :
  forallb isWord l = true -> trim (join " " l) = join " " l.
Proof.
  intros F. destruct l as [ | x l]; [ reflexivity | ].
  assert (E : trimEnd (join " " (x :: l)) = join " " (x :: l)).
  { revert x F. induction l as [ | y l IH]; intros x F.
    - cbn [forallb] in F. apply andb_true_iff in F as [X _].
      destruct (isWord_head _ X) as [c [t' [-> [_ A]]]]. apply trimEnd_word, A.
    - cbn [forallb] in F. apply andb_true_iff in F as [X F].
      rewrite join_cons, trimEnd_append.
      change (" " ++ join " " (y :: l))%string with (String " " (join " " (y :: l))).
      specialize (IH y F).
      assert (N : nonEmpty (join " " (y :: l)) = true).
      { cbn [forallb] in F. apply andb_true_iff in F as [Y _].
        destruct (isWord_head _ Y) as [c [t' [-> _]]]. rewrite join_cons. reflexivity. }
      cbn [trimEnd]. rewrite IH.
      destruct (join " " (y :: l)); [ discriminate N | reflexivity ]. }
  cbn [forallb] in F. apply andb_true_iff in F as [X _].
  destruct (isWord_head _ X) as [c [t' [-> [W _]]]].
  unfold trim. rewrite join_cons in *. cbn [append] in *.
  rewrite (trimStart_fixed _ _ W). exact E.
Qed.

Lemma words_not_nil (f : ascii -> bool) (s : string) :
  forall inSep cur, words f inSep s cur <> [].
Proof.
  induction s as [ | c s IH]; intros inSep cur; cbn [words]; [ discriminate | ].
  destruct (f c); [ destruct inSep; [ apply IH | discriminate ] | apply IH ].
Qed.

Lemma popped_last (tokens : list string) :
  tokens <> [] -> popped tokens = JStr (last tokens "").
Proof.
  intros N. unfold popped.
  rewrite (app_removelast_last "" N) at 1. rewrite rev_app_distr. reflexivity.
Qed.

Lemma forallb_removelast_last (tokens : list string) :
  tokens <> [] -> forallb isWord tokens = true ->
  forallb isWord (removelast tokens) = true /\ isWord (last tokens "") = true.
Proof.
  intros N F. rewrite (app_removelast_last "" N), forallb_app in F.
  apply andb_true_iff in F as [A B]. cbn [forallb] in B.
  rewrite andb_true_r in B. auto.
Qed.

Lemma trimmedNames_authorOf (n : string * string) :
  isWord (snd n) = true -> trim (fst n) = fst n ->
  trimmedNames (authorOf n) = Ok (fst n, snd n, "").
Proof.
  destruct n as [given family]. cbn [fst snd]. intros W T.
  pose proof (trim_word _ W) as TF.
  destruct (isWord_head _ W) as [c [f [-> _]]].
  unfold authorOf, trimmedNames, trimmedField. cbn [fst snd].
  destruct given as [ | d g]; cbn -[trim]; rewrite ?TF, ?T; reflexivity.
Qed.

Lemma author_loop_names (names : list (string * string)) :
  Forall (fun n => isWord (snd n) = true /\ trim (fst n) = fst n) names ->
  forall acc, author_loop (map authorOf names) acc = Ok (acc ++ map creatorOf names).
Proof.
  induction 1 as [ | n names [W T] _ IH]; intros acc; cbn [map author_loop].
  - rewrite app_nil_r. reflexivity.
  - pose proof (trimmedNames_authorOf n W T) as N.
    destruct n as [given family]. cbn [fst snd] in *.
    unfold trimmedNames in N.
    destruct (trimmedField (authorOf (given, family)) "given") as [g | ];
      [ | discriminate N ].
    destruct (trimmedField (authorOf (given, family)) "family") as [f | ];
      [ | discriminate N ].
    destruct (trimmedField (authorOf (given, family)) "literal") as [l | ];
      [ | discriminate N ].
    cbn [bind] in N |- *. injection N as -> -> ->.
    destruct (isWord_head _ W) as [c [f [-> _]]]. cbn [nonEmpty orb].
    rewrite IH, <- app_assoc. reflexivity.
Qed.

(** ** Reading the URLs from the standard input *)

Lemma match_here_line_end (prev : option ascii) (s : string) :
  match_here RE_LINE_END prev s
  = match s with
    | String c s' =>
        if Ascii.eqb c LF then Some (String LF "")
        else if Ascii.eqb c CR && startsWith (String LF "") s'
             then Some (String CR (String LF ""))
             else None
    | EmptyString => None
    end.
Proof.
  destruct s as [ | c s]; [ reflexivity | ].
  unfold match_here, RE_LINE_END, ROpt, RChar. cbn [rmatch].
  rewrite (Ascii.eqb_sym CR c), (Ascii.eqb_sym LF c).
  destruct (Ascii.eqb c CR) eqn:C.
  - apply Ascii_eqb_eq in C. subst c.
    replace (Ascii.eqb CR LF) with false by reflexivity.
    destruct s as [ | d s]; [ reflexivity | ].
    cbn [startsWith andb]. rewrite (Ascii.eqb_sym LF d).
    destruct (Ascii.eqb d LF) eqn:D; [ | reflexivity ].
    apply Ascii_eqb_eq in D. subst d. unfold done.
    replace (String.length (String CR (String LF s)) - String.length s) with 2
      by (cbn [String.length]; lia).
    reflexivity.
  - cbn [andb]. destruct (Ascii.eqb c LF) eqn:L; [ | reflexivity ].
    apply Ascii_eqb_eq in L. subst c. unfold done.
    replace (String.length (String LF s) - String.length s) with 1
      by (cbn [String.length]; lia).
    reflexivity.
Qed.

Lemma revOnto_append (s : string) :
  forall acc, revOnto s acc = (rev s ++ acc)%string.
Proof.
  unfold rev. induction s as [ | c s IH]; intros acc; cbn [revOnto]; [ reflexivity | ].
  rewrite (IH (String c acc)), (IH (String c "")), append_assoc. reflexivity.
Qed.

Lemma rev_cons (c : ascii) (s : string) : rev (String c s) = (rev s ++ String c "")%string.
Proof. unfold rev at 1. cbn [revOnto]. apply revOnto_append. Qed.

Lemma trimStart_white (s : string) : allChars isWhiteSpace s = true -> trimStart s = "".
Proof.
  induction s as [ | c s IH]; [ reflexivity | ].
  cbn [allChars trimStart]. intros H. apply andb_true_iff in H as [C A].
  rewrite C. apply IH, A.
Qed.

Lemma trimEnd_white (s : string) : allChars isWhiteSpace s = true -> trimEnd s = "".
Proof.
  induction s as [ | c s IH]; [ reflexivity | ].
  cbn [allChars trimEnd]. intros H. apply andb_true_iff in H as [C A].
  rewrite (IH A), C. reflexivity.
Qed.

Lemma trimStart_append (w post : string) :
  trimStart (w ++ post)
  = match trimStart w with
    | EmptyString => trimStart post
    | t => (t ++ post)%string
    end.
Proof.
  induction w as [ | c w IH]; cbn [append trimStart].
  - destruct (trimStart post); reflexivity.
  - destruct (isWhiteSpace c); [ exact IH | reflexivity ].
Qed.

(** White space after a string does not change what [trim] gives. *)
Lemma trim_append_white (w post : string) :
  allChars isWhiteSpace post = true -> trim (w ++ post) = trim w.
Proof.
  intros A. unfold trim. rewrite trimStart_append.
  destruct (trimStart w) as [ | d t].
  - rewrite (trimStart_white _ A). reflexivity.
  - rewrite trimEnd_append, (trimEnd_white _ A). reflexivity.
Qed.

Lemma prefixFirst_empty (pieces : list string) : prefixFirst "" pieces = pieces.
Proof. destruct pieces; reflexivity. Qed.

(** Splitting on [/\r?\n/] and splitting on the line feed give the same
    pieces once they are trimmed: the carriage return that the first leaves
    out is white space at the end of a piece of the second. *)
Lemma split_go_lines (s : string) :
  forall prev cur,
    map trim (split_go RE_LINE_END prev s 0 cur)
    = map trim (prefixFirst (rev cur) (splitChar LF s)).
Proof.
  induction s as [ | c s IH]; intros prev cur.
  - cbn [split_go splitChar prefixFirst]. rewrite append_empty_r. reflexivity.
  - cbn [split_go]. rewrite match_here_line_end. cbn [splitChar].
    destruct (Ascii.eqb c LF) eqn:L.
    + cbn [String.length prefixFirst map]. rewrite append_empty_r, IH.
      change (rev "") with "". rewrite prefixFirst_empty. reflexivity.
    + destruct (Ascii.eqb c CR && startsWith (String LF "") s) eqn:B.
      * apply andb_true_iff in B as [C S]. apply Ascii_eqb_eq in C. subst c.
        destruct s as [ | d s]; [ discriminate S | ].
        cbn [startsWith] in S. apply andb_true_iff in S as [D _].
        apply Ascii_eqb_eq in D. subst d.
        specialize (IH (Some CR) "").
        cbn [split_go] in IH. rewrite match_here_line_end in IH.
        cbn [splitChar] in IH. rewrite Ascii.eqb_refl in IH.
        cbn [String.length prefixFirst map] in IH. injection IH as IH.
        cbn [String.length split_go splitChar]. rewrite Ascii.eqb_refl.
        cbn [prefixFirst map]. rewrite IH. f_equal.
        symmetry. apply trim_append_white. reflexivity.
      * rewrite IH. pose proof (splitChar_not_nil LF s) as N.
        destruct (splitChar LF s) as [ | p ps]; [ contradiction | ].
        cbn [prefixFirst]. rewrite rev_cons, append_assoc. reflexivity.
Qed.

Lemma split_lines (data : string) :
  map trim (split RE_LINE_END data) = map trim (splitChar LF data).
Proof.
  destruct data as [ | c s]; [ reflexivity | ].
  unfold split. rewrite split_go_lines. change (rev "") with "".
  rewrite prefixFirst_empty. reflexivity.
Qed.

Lemma allChars_append (g : ascii -> bool) (a b : string) :
  allChars g (a ++ b) = allChars g a && allChars g b.
Proof.
  induction a as [ | c a IH]; cbn [append allChars]; [ reflexivity | ].
  rewrite IH, andb_assoc. reflexivity.
Qed.

Lemma splitChar_pieces (sep : ascii) (s : string) :
  Forall (fun p => allChars (fun c => negb (Ascii.eqb c sep)) p = true) (splitChar sep s).
Proof.
  induction s as [ | c s IH]; cbn [splitChar].
  - constructor; [ reflexivity | constructor ].
  - destruct (Ascii.eqb c sep) eqn:E.
    + constructor; [ reflexivity | exact IH ].
    + destruct (splitChar sep s) as [ | p ps]; [ constructor; [ | constructor ] | ].
      * cbn [allChars]. rewrite E. reflexivity.
      * inversion IH as [ | ? ? Hp Hps ]; subst.
        constructor; [ | exact Hps ]. cbn [allChars]. rewrite E, Hp. reflexivity.
Qed.

Lemma splitChar_piece (sep : ascii) (s : string) :
  allChars (fun c => negb (Ascii.eqb c sep)) s = true -> splitChar sep s = [s].
Proof.
  induction s as [ | c s IH]; cbn [splitChar allChars]; [ reflexivity | ].
  intros H. apply andb_true_iff in H as [C R].
  apply negb_true_iff in C. rewrite C, (IH R). reflexivity.
Qed.

Lemma splitChar_joined (sep : ascii) (pieces : list string) :
  pieces <> [] ->
  Forall (fun p => allChars (fun c => negb (Ascii.eqb c sep)) p = true) pieces ->
  splitChar sep (join (String sep "") pieces) = pieces.
Proof.
  induction pieces as [ | x rest IH]; intros N F; [ contradiction | ].
  inversion F as [ | ? ? Fx Fr ]; subst.
  destruct rest as [ | y rest].
  - apply splitChar_piece; exact Fx.
  - change (join (String sep "") (x :: y :: rest))
      with (x ++ String sep (join (String sep "") (y :: rest)))%string.
    rewrite splitChar_append, (splitChar_piece _ _ Fx), IH;
      [ reflexivity | discriminate | exact Fr ].
Qed.

(** A line as [readLinesFromStdin] returns it. *)
Lemma trimmed_keeps (g : ascii -> bool) (x : string) :
  allChars g x = true -> allChars g (trim x) = true.
Proof.
  intros A. destruct (trim_split x) as [pre [post [E _]]].
  rewrite E, !allChars_append in A.
  apply andb_true_iff in A as [_ A]. apply andb_true_iff in A as [A _]. exact A.
Qed.

Lemma readLinesFromStdin_splitChar (data : string) :
  readLinesFromStdin data = filter nonEmpty (map trim (splitChar LF data)).
Proof.
  unfold readLinesFromStdin. destruct data as [ | c s]; [ reflexivity | ].
  cbn [nonEmpty negb]. rewrite split_lines. reflexivity.
Qed.

Lemma readLinesFromStdin_lines (data : string) :
  Forall (fun l => trim l = l /\ nonEmpty l = true /\ allChars notLF l = true)
         (readLinesFromStdin data).
Proof.
  rewrite readLinesFromStdin_splitChar.
  pose proof (splitChar_pieces LF data) as F.
  induction F as [ | p ps Hp _ IH]; cbn [map filter]; [ constructor | ].
  destruct (nonEmpty (trim p)) eqn:N; [ | exact IH ].
  constructor; [ | exact IH ].
  split; [ apply trim_idempotent | ]. split; [ exact N | ].
  apply (trimmed_keeps notLF), Hp.
Qed.

Lemma filter_trimmed_lines (lines : list string) :
  Forall (fun l => trim l = l /\ nonEmpty l = true /\ allChars notLF l = true) lines ->
  filter nonEmpty (map trim lines) = lines.
Proof.
  induction 1 as [ | l lines [T [N _]] _ IH]; cbn [map filter]; [ reflexivity | ].
  rewrite T, N, IH. reflexivity.
Qed.

Lemma readLinesFromStdin_joined (lines : list string) :
  Forall (fun l => trim l = l /\ nonEmpty l = true /\ allChars notLF l = true) lines ->
  readLinesFromStdin (join (String LF "") lines) = lines.
Proof.
  intros F. rewrite readLinesFromStdin_splitChar.
  destruct lines as [ | l lines]; [ reflexivity | ].
  rewrite splitChar_joined; [ apply filter_trimmed_lines, F | discriminate | ].
  apply Forall_forall. intros p I. rewrite Forall_forall in F.
  destruct (F p I) as [_ [_ A]]. exact A.
Qed.

Lemma splitChar_crlfLines (lines : list string) :
  Forall (fun l => allChars notLF l = true) lines ->
  splitChar LF (crlfLines lines)
  = map (fun l => (l ++ String CR "")%string) lines ++ [""].
Proof.
  induction 1 as [ | l lines A _ IH]; [ reflexivity | ].
  cbn [crlfLines map app].
  change (l ++ String CR (String LF (crlfLines lines)))%string
    with (l ++ (String CR "" ++ String LF (crlfLines lines)))%string.
  rewrite <- append_assoc, splitChar_append, IH, splitChar_piece; [ reflexivity | ].
  fold notLF. rewrite allChars_append, A. reflexivity.
Qed.

Lemma readLinesFromStdin_crlf (lines : list string) :
  Forall (fun l => trim l = l /\ nonEmpty l = true /\ allChars notLF l = true) lines ->
  readLinesFromStdin (crlfLines lines) = lines.
Proof.
  intros F. rewrite readLinesFromStdin_splitChar, splitChar_crlfLines.
  - rewrite map_app, filter_app. cbn [map filter]. rewrite app_nil_r.
    induction F as [ | l lines [T [N _]] _ IH]; cbn [map filter]; [ reflexivity | ].
    rewrite trim_append_white by reflexivity. rewrite T, N, IH. reflexivity.
  - apply Forall_forall. intros p I. rewrite Forall_forall in F.
    destruct (F p I) as [_ [_ A]]. exact A.
Qed.

(** X11. The lines read from the standard input are the pieces between the
    line feeds, trimmed, without the empty ones: a carriage return before a
    line feed makes no difference.  Each line returned is trimmed, not empty
    and holds no line feed; and the list is stable: written one per line
    and read again, it comes back unchanged. *)
Theorem readLinesFromStdin_spec (data : string) :
  readLinesFromStdin data = filter nonEmpty (map trim (splitChar LF data))
  /\ Forall (fun l => trim l = l /\ nonEmpty l = true /\ allChars notLF l = true)
            (readLinesFromStdin data)
  /\ readLinesFromStdin (join (String LF "") (readLinesFromStdin data))
     = readLinesFromStdin data.
Proof.
  split; [ apply readLinesFromStdin_splitChar | ].
  split; [ apply readLinesFromStdin_lines | ].
  apply readLinesFromStdin_joined, readLinesFromStdin_lines.
Qed.

(** X12. Reading is the inverse of writing one URL per line: a list of
    lines that are trimmed, not empty and without line feed is read back
    unchanged, whether the lines are separated by line feeds or each one
    ended by a carriage return and a line feed. *)
Theorem readLinesFromStdin_round_trip (lines : list string) :
  Forall (fun l => trim l = l /\ nonEmpty l = true /\ allChars notLF l = true) lines ->
  readLinesFromStdin (join (String LF "") lines) = lines
  /\ readLinesFromStdin (crlfLines lines) = lines.
Proof.
  intros F. split; [ apply readLinesFromStdin_joined | apply readLinesFromStdin_crlf ];
    exact F.
Qed.

Lemma readLinesFromStdin_round_trip_witness :
  readLinesFromStdin (join (String LF "") [Reference.urlA; Reference.urlC])
  = [Reference.urlA; Reference.urlC]
  /\ readLinesFromStdin (crlfLines [Reference.urlA; Reference.urlC])
     = [Reference.urlA; Reference.urlC].
Proof.
  apply (readLinesFromStdin_round_trip [Reference.urlA; Reference.urlC]).
  repeat constructor.
Defined.

(** ** The command line of the tools *)

Section CommandLine.

Import ZoteroCli.


Lemma lastGiven_cons (v : string) (vals : list string) (d : option string) :
  lastGiven (v :: vals) d = lastGiven vals (Some v).
Proof.
  unfold lastGiven. cbn [map]. revert v d.
  induction vals as [ | x vals IH]; intros v d; [ reflexivity | ].
  cbn [map]. change (last (Some v :: Some x :: map Some vals) d)
    with (last (Some x :: map Some vals) d).
  rewrite (IH x d), (IH x (Some v)). reflexivity.
Qed.

Lemma url_is_no_flag (u : string) :
  startsWith "-" u = false -> isKnownFlag u = false.
Proof.
  destruct u as [ | c u]; [ reflexivity | ].
  cbn [startsWith andb]. rewrite andb_true_r. intros C.
  unfold isKnownFlag. cbn [String.eqb startsWith].
  rewrite (Ascii.eqb_sym c "-"), C. reflexivity.
Qed.

Lemma parseArgs_loop_step (o : Opt) (rest : list string) (a : Args) (err : list string) :
  wellWritten o = true ->
  parseArgs_loop (written o ++ rest) a err
  = parseArgs_loop rest (afterOpts [o] a) (err ++ warningsOf [o]).
Proof.
  assert (A : forall b : Args,
             {| outFile := outFile b; cslFile := cslFile b; urls := urls b;
                postWebAPI := postWebAPI b; apiUser := apiUser b; apiKey := apiKey b |}
             = b) by (intros []; reflexivity).
  unfold afterOpts, warningsOf, outFiles, cslFiles, apiUsers, apiKeys, urlsOf, posts.
  destruct o as [f | f | f | f | | u | k | x | u];
    cbn [wellWritten written app flat_map existsb lastGiven map last];
    intros W; rewrite ?app_nil_r, ?orb_false_r, ?A.
  - cbn. rewrite W. reflexivity.
  - reflexivity.
  - cbn. rewrite W. reflexivity.
  - reflexivity.
  - cbn. rewrite orb_true_r. reflexivity.
  - cbn. rewrite W. reflexivity.
  - cbn. rewrite W. reflexivity.
  - apply andb_true_iff in W as [D K]. apply negb_true_iff in K.
    unfold isKnownFlag in K. repeat (apply orb_false_iff in K as [K ?]).
    cbn [parseArgs_loop].
    repeat match goal with H : _ = false |- _ => rewrite H; clear H end.
    rewrite D. reflexivity.
  - apply negb_true_iff in W. pose proof (url_is_no_flag _ W) as K.
    unfold isKnownFlag in K. repeat (apply orb_false_iff in K as [K ?]).
    cbn [parseArgs_loop].
    repeat match goal with H : String.eqb _ _ = false |- _ => rewrite H; clear H end.
    repeat match goal with H : startsWith _ _ = false |- _ => rewrite H; clear H end.
    reflexivity.
Qed.

Lemma afterOpts_cons (o : Opt) (opts : list Opt) (a : Args) :
  afterOpts opts (afterOpts [o] a) = afterOpts (o :: opts) a.
Proof.
  unfold afterOpts, outFiles, cslFiles, apiUsers, apiKeys, urlsOf, posts.
  destruct o; cbn [flat_map existsb app outFile cslFile urls postWebAPI apiUser apiKey];
    rewrite ?app_nil_r, ?orb_false_r, ?lastGiven_cons, <- ?app_assoc, ?orb_true_r;
    reflexivity.
Qed.

Lemma parseArgs_loop_opts (opts : list Opt) :
  forallb wellWritten opts = true ->
  forall rest a err,
    parseArgs_loop (flat_map written opts ++ rest) a err
    = parseArgs_loop rest (afterOpts opts a) (err ++ warningsOf opts).
Proof.
  induction opts as [ | o opts IH]; intros W rest a err.
  - cbn [flat_map app]. unfold afterOpts, warningsOf. cbn.
    rewrite !app_nil_r, orb_false_r. destruct a; reflexivity.
  - cbn [forallb] in W. apply andb_true_iff in W as [Wo W].
    cbn [flat_map]. rewrite <- app_assoc, (parseArgs_loop_step _ _ _ _ Wo), (IH W).
    rewrite afterOpts_cons, <- app_assoc.
    unfold warningsOf. cbn [flat_map]. rewrite app_nil_r. reflexivity.
Qed.

(** X13. On a command line written from well-formed options (a value
    flag followed by a non-empty value, the [--out=] and [--csl=] forms,
    [--post-webapi], unknown flags, positional URLs that do not start with a
    dash), [parseArgs] returns: the URLs are the positional arguments in
    order, each value is the one given last, [postWebAPI] tells whether the
    flag occurs, and the warnings are those of the unknown flags, in order. *)
Theorem ZoteroCli_parseArgs_written (opts : list Opt) :
  forallb wellWritten opts = true ->
  parseArgs (flat_map written opts)
  = (warningsOf opts,
     Returns {| outFile := lastGiven (outFiles opts) None;
                cslFile := lastGiven (cslFiles opts) None;
                urls := urlsOf opts;
                postWebAPI := posts opts;
                apiUser := lastGiven (apiUsers opts) None;
                apiKey := lastGiven (apiKeys opts) None |}).
Proof.
  intros W. unfold parseArgs.
  rewrite <- (app_nil_r (flat_map written opts)), (parseArgs_loop_opts opts W).
  reflexivity.
Qed.

(** X14. A value flag ([--out], [--csl], [--api-user], [--api-key]) that
    ends the command line, or that is followed by an empty argument, ends
    the program with exit code 1 and the error message of the flag, after
    the warnings of the options before it. *)
Theorem ZoteroCli_parseArgs_missing_value (opts : list Opt) (flag message : string) :
  forallb wellWritten opts = true ->
  In (flag, message)
     [ ("--out", "Error: --out flag requires a filename.");
       ("--csl", "Error: --csl flag requires a filename.");
       ("--api-user", "Error: --api-user flag requires a userID.");
       ("--api-key", "Error: --api-key flag requires a key string.") ] ->
  parseArgs (flat_map written opts ++ [flag])
  = (warningsOf opts ++ [message], Exits 1)
  /\ forall more,
       parseArgs (flat_map written opts ++ flag :: "" :: more)
       = (warningsOf opts ++ [message], Exits 1).
Proof.
  intros W I. unfold parseArgs. split; [ | intros more ];
    rewrite (parseArgs_loop_opts opts W);
    cbn [In] in I;
    repeat (destruct I as [I | I]; [ injection I as <- <-; reflexivity | ]);
    contradiction.
Qed.

Lemma parseArgs_loops_agree (n : nat) :
  forall argv c z err,
    List.length argv <= n ->
    forallb (fun arg => negb (isZoteroFlag arg)) argv = true ->
    sameArgs c z ->
    fst (CslCli.parseArgs_loop argv c err) = fst (parseArgs_loop argv z err)
    /\ match snd (CslCli.parseArgs_loop argv c err), snd (parseArgs_loop argv z err) with
       | Returns a, Returns b =>
           sameArgs a b
           /\ cslFile b = cslFile z /\ postWebAPI b = postWebAPI z
           /\ apiUser b = apiUser z /\ apiKey b = apiKey z
       | Exits m, Exits k => m = k
       | _, _ => False
       end.
Proof.
  induction n as [ | n IH]; intros argv c z err L F S.
  - destruct argv; [ | cbn [List.length] in L; lia ].
    cbn. repeat split; try reflexivity; apply S.
  - destruct argv as [ | arg rest];
      [ cbn; repeat split; try reflexivity; apply S | ].
    cbn [forallb] in F. apply andb_true_iff in F as [Z F].
    apply negb_true_iff in Z. unfold isZoteroFlag in Z.
    repeat (apply orb_false_iff in Z as [Z ?]).
    cbn [List.length] in L.
    cbn [CslCli.parseArgs_loop parseArgs_loop].
    destruct (String.eqb arg "--out").
    { destruct rest as [ | next rest']; [ cbn; auto | ].
      destruct (nonEmpty next); [ | cbn; auto ].
      cbn [forallb] in F. apply andb_true_iff in F as [_ F].
      cbn [List.length] in L.
      destruct S as [S1 S2].
      destruct (IH rest' {| CslCli.outFile := Some next; CslCli.urls := CslCli.urls c |}
                   (setOutFile z next) err) as [E M];
        [ lia | exact F | split; [ reflexivity | exact S2 ] | ].
      split; [ exact E | exact M ]. }
    destruct (startsWith "--out=" arg).
    { destruct S as [S1 S2].
      destruct (IH rest {| CslCli.outFile := Some (drop 6 arg);
                           CslCli.urls := CslCli.urls c |}
                   (setOutFile z (drop 6 arg)) err) as [E M];
        [ lia | exact F | split; [ reflexivity | exact S2 ] | ].
      split; [ exact E | exact M ]. }
    repeat match goal with H : _ = false |- _ => rewrite H; clear H end.
    destruct (startsWith "-" arg).
    { apply IH; [ lia | exact F | exact S ]. }
    destruct S as [S1 S2].
    destruct (IH rest {| CslCli.outFile := CslCli.outFile c;
                         CslCli.urls := CslCli.urls c ++ [arg] |}
                 (pushUrl z arg) err) as [E M];
      [ lia | exact F | split; [ exact S1 | cbn; rewrite S2; reflexivity ] | ].
    split; [ exact E | exact M ].
Qed.

(** X15. The two tools read a command line alike when it holds none of
    the flags that only the Zotero tool knows: the same warnings and errors,
    the same exit, and on return the same output file and the same URLs,
    nothing else being set. *)
Theorem parseArgs_agree (argv : list string) :
  forallb (fun arg => negb (isZoteroFlag arg)) argv = true ->
  sameRun (CslCli.parseArgs argv) (parseArgs argv).
Proof.
  intros F.
  destruct (parseArgs_loops_agree (List.length argv) argv
              {| CslCli.outFile := None; CslCli.urls := [] |} noArgs []
              (Nat.le_refl _) F (conj eq_refl eq_refl)) as [E M].
  split; [ exact E | ].
  unfold CslCli.parseArgs, parseArgs.
  destruct (snd (CslCli.parseArgs_loop argv _ [])); destruct (snd (parseArgs_loop argv noArgs []));
    exact M.
Qed.

End CommandLine.

(** ** The runs of the tools *)

Lemma CslCli_parseArgs_loop_exit (argv : list string) :
  forall n a err err' code,
    List.length argv <= n ->
    CslCli.parseArgs_loop argv a err = (err', Exits code) -> code = 1.
Proof.
  intros n. revert argv. induction n as [ | n IH]; intros argv a err err' code L H.
  - destruct argv; [ discriminate H | cbn [List.length] in L; lia ].
  - destruct argv as [ | arg rest]; [ discriminate H | ].
    cbn [List.length] in L. cbn [CslCli.parseArgs_loop] in H.
    destruct (String.eqb arg "--out").
    { destruct rest as [ | next rest']; [ injection H as _ <-; reflexivity | ].
      destruct (nonEmpty next); [ | injection H as _ <-; reflexivity ].
      cbn [List.length] in L. apply (IH rest' _ _ _ _ ltac:(lia) H). }
    destruct (startsWith "--out=" arg); [ apply (IH rest _ _ _ _ ltac:(lia) H) | ].
    destruct (startsWith "-" arg); apply (IH rest _ _ _ _ ltac:(lia) H).
Qed.

Lemma filter_all_length {A : Type} (f : A -> bool) (l : list A) :
  List.length (filter f l) = List.length l <-> forallb f l = true.
Proof.
  induction l as [ | x l IH]; cbn [filter forallb List.length]; [ tauto | ].
  pose proof (filter_length_le f l) as B.
  destruct (f x); cbn [List.length andb].
  - rewrite <- IH. split; lia.
  - split; [ lia | discriminate ].
Qed.

Section ToolFacts.

Context {P : Platform}.

(** All URLs are converted exactly when none is empty and none gets a
    diagnostic. *)
Lemma all_converted (urls : list string) (w : World) :
  List.length (items (iiifManifestUrlsToCSL urls w)) = List.length urls
  <-> forallb nonEmpty urls = true
      /\ diagnostics (iiifManifestUrlsToCSL urls w) = [].
Proof.
  pose proof (url_loop_count urls {| items := []; diagnostics := []; world := w |}) as C.
  cbn [items diagnostics List.length] in C. fold (iiifManifestUrlsToCSL urls w) in C.
  pose proof (filter_length_le nonEmpty urls) as B.
  rewrite <- filter_all_length. split.
  - intros E. split; [ lia | ].
    destruct (diagnostics (iiifManifestUrlsToCSL urls w)); [ reflexivity | ].
    cbn [List.length] in C. lia.
  - intros [E D]. rewrite D in C. cbn [List.length] in C. lia.
Qed.

Lemma tally_code (total success : nat) :
  success <= total ->
  (snd (CslCli.tally total success) = 0 <-> success = total /\ total <> 0).
Proof.
  intros L. unfold CslCli.tally.
  destruct (Nat.eqb success 0) eqn:S.
  - apply Nat.eqb_eq in S. cbn [snd]. split; [ discriminate | lia ].
  - apply Nat.eqb_neq in S.
    destruct (Z.eqb (Z.of_nat total - Z.of_nat success) 0) eqn:F; cbn [snd].
    + apply Z.eqb_eq in F. split; [ lia | reflexivity ].
    + apply Z.eqb_neq in F. split; [ discriminate | lia ].
Qed.

End ToolFacts.

Section CslCliFacts.

Context {P : Platform}.
Variable writeFileSync : string -> bool.

(** X16. The CSL tool ends with exit code 0 exactly when the command line
    is read, there is at least one URL, no URL is empty, the conversion core
    has no diagnostic and the output could be written; the exit code is
    otherwise 1.  The result is printed or saved whenever there is a URL and
    the output can be written, whatever the exit code: it holds the records
    of the URLs that were converted. *)
Theorem CslCli_main_exit_code (argv : list string) (data : string) (w : World) :
  let out := CslCli.main writeFileSync argv data w in
  (exitCode out = 0 <->
   exists err a,
     CslCli.parseArgs argv = (err, Returns a)
     /\ CslCli.urls a ++ readLinesFromStdin data <> []
     /\ forallb nonEmpty (CslCli.urls a ++ readLinesFromStdin data) = true
     /\ diagnostics
          (iiifManifestUrlsToCSL (CslCli.urls a ++ readLinesFromStdin data) w) = []
     /\ (given (CslCli.outFile a) = true ->
         writeFileSync (orEmpty (CslCli.outFile a)) = true))
  /\ (exitCode out = 0 \/ exitCode out = 1)
  /\ forall err a,
       CslCli.parseArgs argv = (err, Returns a) ->
       CslCli.urls a ++ readLinesFromStdin data <> [] ->
       (given (CslCli.outFile a) = true ->
        writeFileSync (orEmpty (CslCli.outFile a)) = true) ->
       let st := iiifManifestUrlsToCSL (CslCli.urls a ++ readLinesFromStdin data) w in
       stdout out = (if given (CslCli.outFile a) then None else Some (items st))
       /\ file out = (if given (CslCli.outFile a)
                      then Some (orEmpty (CslCli.outFile a), items st) else None)
       /\ network out = world st.
Proof.
  cbv zeta. unfold CslCli.main.
  destruct (CslCli.parseArgs argv) as [err [a | code]] eqn:PA.
  2:{ assert (code = 1) as ->.
      { unfold CslCli.parseArgs in PA.
        apply (CslCli_parseArgs_loop_exit argv (List.length argv) _ _ _ _ (Nat.le_refl _) PA). }
      cbn [exitCode stopped]. split; [ | split; [ auto | intros ? ? Q; discriminate Q ] ].
      split; [ discriminate | intros [e [b [Q _]]]; discriminate Q ]. }
  set (urls := CslCli.urls a ++ readLinesFromStdin data).
  set (st := iiifManifestUrlsToCSL urls w).
  destruct (Nat.eqb (List.length urls) 0) eqn:Z.
  { apply Nat.eqb_eq in Z. apply length_zero_iff_nil in Z.
    cbn [exitCode stopped]. split; [ | split; [ auto | ] ].
    - split; [ discriminate | ].
      intros [e [b [Q [N _]]]]. injection Q as <- <-. fold urls in N. contradiction.
    - intros e b Q N. injection Q as <- <-. fold urls in N. contradiction. }
  apply Nat.eqb_neq in Z.
  assert (NE : urls <> []) by (intros E; rewrite E in Z; apply Z; reflexivity).
  destruct (given (CslCli.outFile a) && negb (writeFileSync (orEmpty (CslCli.outFile a))))
    eqn:WF.
  { apply andb_true_iff in WF as [G W]. apply negb_true_iff in W.
    cbn [exitCode stopped]. split; [ | split; [ auto | ] ].
    - split; [ discriminate | ].
      intros [e [b [Q [_ [_ [_ OKW]]]]]]. injection Q as <- <-.
      rewrite (OKW G) in W. discriminate W.
    - intros e b Q _ OKW. injection Q as <- <-. rewrite (OKW G) in W. discriminate W. }
  assert (WOK : given (CslCli.outFile a) = true ->
                writeFileSync (orEmpty (CslCli.outFile a)) = true).
  { intros G. rewrite G in WF. cbn [andb] in WF. apply negb_false_iff in WF. exact WF. }
  pose proof (url_loop_count urls {| items := []; diagnostics := []; world := w |}) as C.
  cbn [items diagnostics List.length] in C. fold (iiifManifestUrlsToCSL urls w) in C.
  fold st in C. pose proof (filter_length_le nonEmpty urls) as B.
  assert (LE : List.length (items st) <= List.length urls) by lia.
  pose proof (tally_code _ _ LE) as T.
  destruct (CslCli.tally (List.length urls) (List.length (items st))) as [summary code]
    eqn:TE.
  cbn [snd] in T. cbn [exitCode stdout file network].
  split; [ | split ].
  - rewrite T. split.
    + intros [E _]. exists err, a. split; [ reflexivity | ]. split; [ exact NE | ].
      apply (all_converted urls w) in E as [F D]. auto.
    + intros [e [b [Q [_ [F [D _]]]]]]. injection Q as <- <-.
      split; [ apply (all_converted urls w); auto | exact Z ].
  - unfold CslCli.tally in TE.
    destruct (Nat.eqb (List.length (items st)) 0); [ injection TE as _ <-; auto | ].
    destruct (Z.eqb _ 0); injection TE as _ <-; auto.
  - intros e b Q _ _. injection Q as <- <-. auto.
Qed.

End CslCliFacts.

Lemma ZoteroCli_parseArgs_loop_exit (argv : list string) :
  forall n a err err' code,
    List.length argv <= n ->
    ZoteroCli.parseArgs_loop argv a err = (err', Exits code) -> code = 1.
Proof.
  intros n. revert argv. induction n as [ | n IH]; intros argv a err err' code L H.
  - destruct argv; [ discriminate H | cbn [List.length] in L; lia ].
  - destruct argv as [ | arg rest]; [ discriminate H | ].
    cbn [List.length] in L. cbn [ZoteroCli.parseArgs_loop] in H.
    repeat match type of H with
           | (if ?b then _ else _) = _ => destruct b
           | match ?r with [] => _ | _ :: _ => _ end = _ =>
               destruct r as [ | next rest']; cbn [List.length] in L
           end;
      try (injection H as _ <-; reflexivity);
      try (apply (IH rest _ _ _ _ ltac:(lia) H));
      apply (IH rest' _ _ _ _ ltac:(lia) H).
Qed.

Section ZoteroCliFacts.

Context {P : Platform}.
Variable readFileSync : string -> option string.
Variable writeFileSync : string -> bool.
Variable post : string -> string -> list value -> World -> Response * World.

Lemma items_are_records (urls : list string) :
  forall st,
    Forall (fun item => exists manifest url, manifestToCSLItem manifest url = Ok item)
           (items st) ->
    Forall (fun item => exists manifest url, manifestToCSLItem manifest url = Ok item)
           (items (url_loop urls st)).
Proof.
  induction urls as [ | url rest IH]; intros st F; [ exact F | ].
  rewrite url_loop_cons. apply IH.
  destruct (turn_spec url st) as [-> _]. apply Forall_app. split; [ exact F | ].
  destruct (nonEmpty url); [ | constructor ].
  unfold recordOf. destruct (fst (fetchManifest url (world st))) as [manifest | f];
    [ | constructor ].
  destruct (manifestToCSLItem manifest url) as [item | e] eqn:E; [ | constructor ].
  constructor; [ | constructor ]. exists manifest, url. exact E.
Qed.

Lemma convert_loop_converts (cslItems : list value) :
  Forall (fun item => exists z, cslToZoteroItem item = Ok z) cslItems ->
  forall zoteroItems log,
    exists zs,
      Forall2 (fun item z => cslToZoteroItem item = Ok z) cslItems zs
      /\ ZoteroCli.convert_loop cslItems zoteroItems log = (zoteroItems ++ zs, log).
Proof.
  induction 1 as [ | item rest [z Z] _ IH]; intros zoteroItems log.
  - exists []. split; [ constructor | ]. cbn. rewrite app_nil_r. reflexivity.
  - destruct (IH (zoteroItems ++ [z]) log) as [zs [F E]].
    exists (z :: zs). split; [ constructor; assumption | ].
    cbn [ZoteroCli.convert_loop]. rewrite Z, E, <- app_assoc. reflexivity.
Qed.

(** X17. Without [--csl] and without [--post-webapi], with at least one
    URL and an output that can be written, the Zotero tool ends with exit
    code 0, also when URLs fail; it delivers one Zotero item for each record
    of the conversion core, in order, no record being dropped by the
    mapping; the error stream holds the warnings, the diagnostics of the
    core, the summary of the conversion and the count of the items. *)
Theorem ZoteroCli_main_url_mode (script : string) (argv : list string) (isTTY : bool)
    (data : string) (w : World) (err : list string) (a : ZoteroCli.Args) :
  ZoteroCli.parseArgs argv = (err, Returns a) ->
  given (ZoteroCli.cslFile a) = false ->
  ZoteroCli.postWebAPI a = false ->
  ZoteroCli.urls a ++ (if negb isTTY then readLinesFromStdin data else []) <> [] ->
  (given (ZoteroCli.outFile a) = true ->
   writeFileSync (orEmpty (ZoteroCli.outFile a)) = true) ->
  let urls := ZoteroCli.urls a ++ (if negb isTTY then readLinesFromStdin data else []) in
  let st := iiifManifestUrlsToCSL urls w in
  exists zs,
    Forall2 (fun item z => cslToZoteroItem item = Ok z) (items st) zs
    /\ ZoteroCli.main readFileSync writeFileSync post script argv isTTY data w
       = {| stdout := if given (ZoteroCli.outFile a) then None else Some zs;
            file := if given (ZoteroCli.outFile a)
                    then Some (orEmpty (ZoteroCli.outFile a), zs) else None;
            stderr := map Text err ++ coreLog st
                      ++ [ Text (ZoteroCli.tally (List.length urls)
                                   (List.length (items st)));
                           Text ("Converted " ++ showNat (List.length (items st))
                                 ++ " CSL item(s) into Zotero JSON item(s).")%string ];
            exitCode := 0;
            network := world st |}.
Proof.
  intros PA C U N W urls st.
  assert (R : Forall (fun item => exists z, cslToZoteroItem item = Ok z) (items st)).
  { assert (F : Forall (fun item => exists manifest url,
                          manifestToCSLItem manifest url = Ok item) (items st)).
    { apply items_are_records. constructor. }
    apply Forall_forall. intros item I. rewrite Forall_forall in F.
    destruct (F item I) as [manifest [url E]].
    destruct (record_to_Zotero _ _ _ E) as [? [? [? [? [? [? [? [_ [_ [_ [_ [_ Z]]]]]]]]]]]].
    eexists. exact Z. }
  destruct (convert_loop_converts _ R []
              (map Text err ++ coreLog st
               ++ [Text (ZoteroCli.tally (List.length urls) (List.length (items st)))]))
    as [zs [F E]].
  exists zs. split; [ exact F | ].
  unfold ZoteroCli.main. rewrite PA, C. fold urls.
  destruct (Nat.eqb (List.length urls) 0) eqn:Z.
  { apply Nat.eqb_eq, length_zero_iff_nil in Z. contradiction. }
  fold st. unfold ZoteroCli.mapAndDeliver. rewrite E, U. cbn [app].
  unfold ZoteroCli.writeOutput. rewrite (Forall2_length F).
  destruct (given (ZoteroCli.outFile a)) eqn:G.
  - rewrite (W eq_refl). rewrite <- !app_assoc. reflexivity.
  - rewrite <- !app_assoc. reflexivity.
Qed.

Lemma stopped_delivered (lines : list Line) (w : World) : delivered (stopped lines 1 w).
Proof.
  unfold delivered, stopped. cbn. split; [ auto | ]. split; [ | auto ].
  split; [ discriminate | intros [H | H]; contradiction ].
Qed.

Lemma writeOutput_delivered (a : ZoteroCli.Args) (zs : list value) (log : list Line)
    (w : World) :
  delivered (ZoteroCli.writeOutput writeFileSync a zs log w).
Proof.
  unfold ZoteroCli.writeOutput.
  destruct (given (ZoteroCli.outFile a)); [ destruct (writeFileSync _) | ];
    try apply stopped_delivered;
    unfold delivered; cbn; (split; [ auto | ]); (split; [ | auto ]);
    split; auto; intros _; [ right | left ]; discriminate.
Qed.

Lemma mapAndDeliver_delivered (a : ZoteroCli.Args) (cslItems : list value)
    (log : list Line) (w : World) :
  delivered (ZoteroCli.mapAndDeliver writeFileSync post a cslItems log w).
Proof.
  unfold ZoteroCli.mapAndDeliver.
  destruct (ZoteroCli.convert_loop cslItems [] log) as [zs log'].
  destruct (ZoteroCli.postWebAPI a); [ | apply writeOutput_delivered ].
  destruct (negb (given (ZoteroCli.apiUser a)) || negb (given (ZoteroCli.apiKey a)));
    [ apply stopped_delivered | ].
  destruct (ZoteroCli.uploadToZoteroWebAPI post _ _ zs w) as [[[cause | ] lines] w'];
    [ apply stopped_delivered | apply writeOutput_delivered ].
Qed.

(** X18. Whatever the arguments, the files and the network, the Zotero
    tool ends with exit code 0 or 1; the code is 0 exactly when the result
    was printed or saved; and the result is never both printed and saved. *)
Theorem ZoteroCli_main_delivers (script : string) (argv : list string) (isTTY : bool)
    (data : string) (w : World) :
  let out := ZoteroCli.main readFileSync writeFileSync post script argv isTTY data w in
  (exitCode out = 0 \/ exitCode out = 1)
  /\ (exitCode out = 0 <-> stdout out <> None \/ file out <> None)
  /\ (stdout out = None \/ file out = None).
Proof.
  cbv zeta. change (delivered (ZoteroCli.main readFileSync writeFileSync post script
                                 argv isTTY data w)).
  unfold ZoteroCli.main.
  destruct (ZoteroCli.parseArgs argv) as [err [a | code]] eqn:PA.
  2:{ assert (code = 1) as ->.
      { unfold ZoteroCli.parseArgs in PA.
        apply (ZoteroCli_parseArgs_loop_exit argv (List.length argv) _ _ _ _
                 (Nat.le_refl _) PA). }
      apply stopped_delivered. }
  destruct (given (ZoteroCli.cslFile a)).
  - destruct (ZoteroCli.readCslFile readFileSync _) as [cslItems | []];
      try apply stopped_delivered.
    apply mapAndDeliver_delivered.
  - destruct (Nat.eqb _ 0); [ apply stopped_delivered | apply mapAndDeliver_delivered ].
Qed.

(** X19. With [--csl] and a file that holds an array of well-formed CSL
    items, or one such item, without [--post-webapi] and with an output that
    can be written, the Zotero tool ends with exit code 0 and delivers one
    Zotero item for each CSL item; the URLs of the command line and of the
    standard input are ignored: no request is made. *)
Theorem ZoteroCli_main_csl_mode (script : string) (argv : list string) (isTTY : bool)
    (data : string) (w : World) (err : list string) (a : ZoteroCli.Args)
    (cslItems : list value) :
  ZoteroCli.parseArgs argv = (err, Returns a) ->
  given (ZoteroCli.cslFile a) = true ->
  ZoteroCli.readCslFile readFileSync (orEmpty (ZoteroCli.cslFile a)) = inl cslItems ->
  forallb wellFormedCslItem cslItems = true ->
  ZoteroCli.postWebAPI a = false ->
  (given (ZoteroCli.outFile a) = true ->
   writeFileSync (orEmpty (ZoteroCli.outFile a)) = true) ->
  exists zs,
    Forall2 (fun item z => cslToZoteroItem item = Ok z) cslItems zs
    /\ ZoteroCli.main readFileSync writeFileSync post script argv isTTY data w
       = {| stdout := if given (ZoteroCli.outFile a) then None else Some zs;
            file := if given (ZoteroCli.outFile a)
                    then Some (orEmpty (ZoteroCli.outFile a), zs) else None;
            stderr := map Text err
                      ++ [ Text ("Converted " ++ showNat (List.length cslItems)
                                 ++ " CSL item(s) into Zotero JSON item(s).")%string ];
            exitCode := 0;
            network := w |}.
Proof.
  intros PA C R WF U W.
  assert (T : Forall (fun item => exists z, cslToZoteroItem item = Ok z) cslItems).
  { apply Forall_forall. intros item I. rewrite forallb_forall in WF.
    apply cslToZoteroItem_total, WF, I. }
  destruct (convert_loop_converts _ T [] (map Text err)) as [zs [F E]].
  exists zs. split; [ exact F | ].
  unfold ZoteroCli.main. rewrite PA, C, R.
  unfold ZoteroCli.mapAndDeliver. rewrite E, U. cbn [app].
  unfold ZoteroCli.writeOutput. rewrite (Forall2_length F).
  destruct (given (ZoteroCli.outFile a)) eqn:G; [ rewrite (W eq_refl) | ]; reflexivity.
Qed.

End ZoteroCliFacts.

(** ** The browser wrapper *)

Section BrowserFacts.

Context {P : Platform}.

(** X20. [fromManifestUrl] rejects the empty URL with a [TypeError], where
    [fromManifestUrls] on the array of the empty URL returns no item and
    requests nothing; for any other URL it is [fromManifestUrls] on the array
    of this URL: one request, and one record or else one diagnostic. *)
Theorem fromManifestUrl_spec (manifestUrl : string) (w : World) :
  (Browser.fromManifestUrl manifestUrl w = Throw TypeError <-> manifestUrl = "")
  /\ (manifestUrl <> "" ->
      exists st,
        Browser.fromManifestUrl manifestUrl w = Ok st
        /\ st = Browser.fromManifestUrls [manifestUrl] w
        /\ items st = contribution (recordOf manifestUrl w)
        /\ List.length (items st) + List.length (diagnostics st) = 1
        /\ world st = snd (fetch manifestUrl w))
  /\ Browser.fromManifestUrls [""] w
     = {| items := []; diagnostics := []; world := w |}.
Proof.
  unfold Browser.fromManifestUrl, Browser.fromManifestUrls.
  split; [ | split; [ | reflexivity ] ].
  - destruct manifestUrl; cbn [nonEmpty negb]; split; intros H;
      try reflexivity; discriminate H.
  - intros N. apply nonEmpty_true in N. rewrite N. cbn [negb].
    eexists. split; [ reflexivity | ]. split; [ reflexivity | ].
    pose proof (url_loop_count [manifestUrl]
                  {| items := []; diagnostics := []; world := w |}) as C.
    cbn [items diagnostics List.length filter] in C. rewrite N in C.
    destruct (turn_spec manifestUrl {| items := []; diagnostics := []; world := w |})
      as [I [W _]].
    rewrite N in I, W. cbn [items world app] in I, W.
    unfold iiifManifestUrlsToCSL. fold (turn manifestUrl
      {| items := []; diagnostics := []; world := w |}).
    split; [ exact I | ]. split; [ exact C | exact W ].
Qed.

End BrowserFacts.

Lemma fromManifestUrl_spec_witness :
  exists st,
    Browser.fromManifestUrl (P := Reference.platform) Reference.urlA [] = Ok st
    /\ map (fun item => get item "title") (items st) = [Ok (JStr "Book A")]
    /\ world st = [Reference.urlA].
Proof.
  destruct (proj1 (proj2 (fromManifestUrl_spec (P := Reference.platform)
                            Reference.urlA []))) as [st [E [_ [I [_ W]]]]];
    [ discriminate | ].
  exists st. split; [ exact E | ]. rewrite I, W. split; reflexivity.
Defined.

(** ** The sniffer: one candidate for each URL *)

Lemma filter_twice {A : Type} (f g : A -> bool) (l : list A) :
  filter f (filter g l) = filter g (filter f l).
Proof.
  induction l as [ | x l IH]; [ reflexivity | ].
  cbn [filter]. destruct (g x) eqn:G; destruct (f x) eqn:F; cbn [filter];
    rewrite ?G, ?F, IH; reflexivity.
Qed.

Lemma filter_again {A : Type} (f : A -> bool) (l : list A) :
  filter f (filter f l) = filter f l.
Proof.
  induction l as [ | x l IH]; [ reflexivity | ].
  cbn [filter]. destruct (f x) eqn:F; cbn [filter]; rewrite ?F, IH; reflexivity.
Qed.

Lemma filter_dedup (x : string) (l : list string) :
  filter (fun y => negb (String.eqb x y)) (dedup l)
  = dedup (filter (fun y => negb (String.eqb x y)) l).
Proof.
  induction l as [ | a l IH]; [ reflexivity | ].
  cbn [dedup filter]. destruct (String.eqb x a) eqn:E; cbn [negb dedup].
  - apply String.eqb_eq in E. subst a. rewrite filter_again. exact IH.
  - rewrite filter_twice, IH. reflexivity.
Qed.

Lemma dedup_repeated (keys : list string) (k : string) (us : list string) :
  In k keys -> dedup (keys ++ k :: us) = dedup (keys ++ us).
Proof.
  induction keys as [ | a keys IH]; intros I; [ contradiction | ].
  cbn [app dedup]. f_equal.
  destruct (String.eqb a k) eqn:E.
  - apply String.eqb_eq in E. subst k.
    rewrite !filter_dedup, !filter_app. cbn [filter].
    rewrite String.eqb_refl. reflexivity.
  - destruct I as [-> | I]; [ rewrite String.eqb_refl in E; discriminate E | ].
    rewrite (IH I). reflexivity.
Qed.


Section Dedupe.

Import Sniffer.


Lemma String_eqb_true (a b : string) : String.eqb a b = true <-> a = b.
Proof. apply String.eqb_eq. Qed.

Lemma map_get_In (m : list (string * Candidate)) (k : string) (c : Candidate) :
  map_get m k = Some c -> In (k, c) m.
Proof.
  induction m as [ | [k' c'] m IH]; cbn [map_get]; [ discriminate | ].
  destruct (String.eqb k' k) eqn:E.
  - apply String.eqb_eq in E. subst k'. intros H. injection H as <-. left. reflexivity.
  - intros H. right. apply IH, H.
Qed.

Lemma map_get_None (m : list (string * Candidate)) (k : string) :
  map_get m k = None <-> ~ In k (map fst m).
Proof.
  induction m as [ | [k' c'] m IH]; cbn [map_get map fst In]; [ tauto | ].
  destruct (String.eqb k' k) eqn:E.
  - apply String.eqb_eq in E. split; [ discriminate | intros H; exfalso; auto ].
  - apply String.eqb_neq in E. rewrite IH. tauto.
Qed.

Lemma map_set_keys (m : list (string * Candidate)) (k : string) (c : Candidate) :
  map fst (map_set m k c)
  = match map_get m k with
    | Some _ => map fst m
    | None => map fst m ++ [k]
    end.
Proof.
  induction m as [ | [k' c'] m IH]; cbn [map_set map_get map fst app]; [ reflexivity | ].
  destruct (String.eqb k' k) eqn:E.
  - apply String.eqb_eq in E. subst k'. reflexivity.
  - cbn [map fst]. rewrite IH. destruct (map_get m k); reflexivity.
Qed.

Lemma map_set_fresh (m : list (string * Candidate)) (k : string) (c : Candidate) :
  map_get m k = None -> map_set m k c = m ++ [(k, c)].
Proof.
  induction m as [ | [k' c'] m IH]; cbn [map_set map_get app]; [ reflexivity | ].
  destruct (String.eqb k' k); [ discriminate | ]. intros H. rewrite (IH H). reflexivity.
Qed.

Lemma map_get_set (m : list (string * Candidate)) (k k' : string) (c : Candidate) :
  map_get (map_set m k c) k' = if String.eqb k k' then Some c else map_get m k'.
Proof.
  induction m as [ | [x d] m IH]; cbn [map_set map_get].
  - destruct (String.eqb k k'); reflexivity.
  - destruct (String.eqb x k) eqn:E.
    + apply String.eqb_eq in E. subst x. cbn [map_get].
      destruct (String.eqb k k'); reflexivity.
    + cbn [map_get]. rewrite IH. destruct (String.eqb x k') eqn:E'; [ | reflexivity ].
      apply String.eqb_eq in E'. subst x. rewrite String.eqb_sym, E. reflexivity.
Qed.

Lemma map_set_In (m : list (string * Candidate)) (k : string) (c : Candidate)
    (e : string * Candidate) :
  In e (map_set m k c) -> e = (k, c) \/ In e m.
Proof.
  induction m as [ | [x d] m IH]; cbn [map_set In].
  - intros [H | []]. left. symmetry. exact H.
  - destruct (String.eqb x k); cbn [In].
    + intros [H | H]; [ left; symmetry; exact H | right; right; exact H ].
    + intros [H | H]; [ right; left; exact H | ].
      apply IH in H as [H | H]; [ left; exact H | right; right; exact H ].
Qed.

Lemma given_urlOf (c : Candidate) :
  given (resolvedHref c) = true ->
  resolvedHref c = Some (urlOf c) /\ nonEmpty (urlOf c) = true.
Proof.
  unfold urlOf. destruct (resolvedHref c) as [u | ]; cbn; [ auto | discriminate ].
Qed.

Lemma keyed_set (m : list (string * Candidate)) (c : Candidate) :
  keyed m -> given (resolvedHref c) = true -> keyed (map_set m (urlOf c) c).
Proof.
  intros [N K] G. split.
  - rewrite map_set_keys. destruct (map_get m (urlOf c)) eqn:E; [ exact N | ].
    apply map_get_None in E.
    rewrite <- (rev_involutive (map fst m ++ [urlOf c])), rev_app_distr.
    apply NoDup_rev. cbn [List.rev app]. constructor.
    + rewrite <- in_rev. exact E.
    + apply NoDup_rev, N.
  - intros k d I. apply map_set_In in I as [I | I]; [ | apply (K _ _ I) ].
    injection I as -> ->. apply given_urlOf, G.
Qed.

Lemma dedupe_loop_keyed (cs : list Candidate) :
  forall m, keyed m -> keyed (dedupe_loop cs m).
Proof.
  induction cs as [ | c cs IH]; intros m K; cbn [dedupe_loop]; [ exact K | ].
  destruct (given (resolvedHref c)) eqn:G; cbn [negb]; [ | apply IH, K ].
  destruct (map_get m (urlOf c)) as [existing | ].
  - destruct (Nat.ltb _ _); apply IH; [ apply keyed_set | ]; assumption.
  - apply IH, keyed_set; assumption.
Qed.

Lemma dedupe_loop_members (cs : list Candidate) :
  forall m seen,
    (forall k c, In (k, c) m -> In c seen) ->
    forall k c, In (k, c) (dedupe_loop cs m) -> In c (seen ++ cs).
Proof.
  induction cs as [ | c cs IH]; intros m seen M k d I; cbn [dedupe_loop] in I.
  - rewrite app_nil_r. apply (M _ _ I).
  - assert (S : forall m',
               (forall k c0, In (k, c0) m' -> In c0 (seen ++ [c])) ->
               In (k, d) (dedupe_loop cs m') -> In d (seen ++ c :: cs)).
    { intros m' M' I'. specialize (IH m' (seen ++ [c]) M' k d I').
      rewrite <- app_assoc in IH. exact IH. }
    assert (M0 : forall k c0, In (k, c0) m -> In c0 (seen ++ [c])).
    { intros k0 c0 I0. apply in_or_app. left. apply (M _ _ I0). }
    assert (M1 : forall k c0, In (k, c0) (map_set m (urlOf c) c) -> In c0 (seen ++ [c])).
    { intros k0 c0 I0. apply map_set_In in I0 as [I0 | I0]; [ | apply (M0 _ _ I0) ].
      injection I0 as _ ->. apply in_or_app. right. left. reflexivity. }
    destruct (negb (given (resolvedHref c))); [ apply (S m M0 I) | ].
    destruct (map_get m (urlOf c)) as [existing | ].
    + destruct (Nat.ltb _ _); [ apply (S _ M1 I) | apply (S m M0 I) ].
    + apply (S _ M1 I).
Qed.

Lemma covers_set (m : list (string * Candidate)) (seen : list Candidate) (c : Candidate) :
  covers m seen ->
  (forall existing, map_get m (urlOf c) = Some existing ->
     String.length (label c) < String.length (label existing)) ->
  covers (map_set m (urlOf c) c) (seen ++ [c]).
Proof.
  intros C L x I G. rewrite map_get_set.
  destruct (String.eqb (urlOf c) (urlOf x)) eqn:E.
  - exists c. split; [ reflexivity | ].
    apply in_app_or in I as [I | [<- | []]]; [ | lia ].
    destruct (C x I G) as [d [D Ld]]. apply String.eqb_eq in E. rewrite <- E in D.
    specialize (L d D). lia.
  - apply in_app_or in I as [I | [<- | []]]; [ apply (C x I G) | ].
    rewrite String.eqb_refl in E. discriminate E.
Qed.

Lemma covers_keep (m : list (string * Candidate)) (seen : list Candidate) (c : Candidate) :
  covers m seen ->
  (given (resolvedHref c) = true ->
   exists d, map_get m (urlOf c) = Some d
             /\ String.length (label d) <= String.length (label c)) ->
  covers m (seen ++ [c]).
Proof.
  intros C K x I G. apply in_app_or in I as [I | [<- | []]];
    [ apply (C x I G) | apply (K G) ].
Qed.

Lemma dedupe_loop_covers (cs : list Candidate) :
  forall m seen, covers m seen -> covers (dedupe_loop cs m) (seen ++ cs).
Proof.
  induction cs as [ | c cs IH]; intros m seen C; cbn [dedupe_loop].
  - rewrite app_nil_r. exact C.
  - replace (seen ++ c :: cs) with ((seen ++ [c]) ++ cs)
      by (rewrite <- app_assoc; reflexivity).
    destruct (given (resolvedHref c)) eqn:G; cbn [negb].
    + destruct (map_get m (urlOf c)) as [existing | ] eqn:E.
      * destruct (Nat.ltb _ _) eqn:L; apply IH.
        -- apply covers_set; [ exact C | ].
           intros x X. rewrite E in X. injection X as <-. apply Nat.ltb_lt, L.
        -- apply covers_keep; [ exact C | ]. intros _. exists existing.
           split; [ exact E | ]. apply Nat.ltb_ge, L.
      * apply IH, covers_set; [ exact C | ]. intros x X. rewrite E in X. discriminate X.
    + apply IH, covers_keep; [ exact C | ]. intros X. rewrite G in X. discriminate X.
Qed.


Lemma given_nonEmpty (c : Candidate) : given (resolvedHref c) = nonEmpty (urlOf c).
Proof. unfold urlOf. destruct (resolvedHref c); reflexivity. Qed.

Lemma dedupe_loop_keys (cs : list Candidate) :
  forall m,
    keyed m ->
    map fst (dedupe_loop cs m)
    = dedup (map fst m ++ filter nonEmpty (map urlOf cs)).
Proof.
  induction cs as [ | c cs IH]; intros m K; cbn [dedupe_loop map filter].
  - rewrite app_nil_r. symmetry. apply dedup_NoDup, K.
  - rewrite <- given_nonEmpty.
    destruct (given (resolvedHref c)) eqn:G; cbn [negb]; [ | apply IH, K ].
    pose proof (keyed_set m c K G) as K'.
    pose proof (map_set_keys m (urlOf c) c) as S.
    destruct (map_get m (urlOf c)) as [existing | ] eqn:E.
    + assert (I : In (urlOf c) (map fst m)).
      { apply map_get_In in E. apply (in_map fst) in E. exact E. }
      rewrite (dedup_repeated _ _ _ I).
      destruct (Nat.ltb _ _); [ rewrite (IH _ K'), S; reflexivity | apply IH, K ].
    + rewrite (IH _ K'), S, <- app_assoc. reflexivity.
Qed.

Lemma keyed_urls (m : list (string * Candidate)) :
  keyed m -> map urlOf (map snd m) = map fst m.
Proof.
  intros [_ K]. induction m as [ | [k c] m IH]; [ reflexivity | ].
  cbn [map fst snd]. rewrite IH by (intros k' c' I; apply K; right; exact I).
  destruct (K k c (or_introl eq_refl)) as [R _]. unfold urlOf. rewrite R. reflexivity.
Qed.

Lemma keyed_nil : keyed [].
Proof. split; [ constructor | intros k c [] ]. Qed.

Lemma dedupe_loop_own (m2 : list (string * Candidate)) :
  forall m1, keyed (m1 ++ m2) -> dedupe_loop (map snd m2) m1 = m1 ++ m2.
Proof.
  induction m2 as [ | [k v] m2 IH]; intros m1 K; cbn [map snd dedupe_loop].
  - rewrite app_nil_r. reflexivity.
  - destruct K as [N K].
    destruct (K k v) as [R NE]; [ apply in_or_app; right; left; reflexivity | ].
    assert (U : urlOf v = k) by (unfold urlOf; rewrite R; reflexivity).
    rewrite R. cbn [given]. rewrite NE, U. cbn [negb].
    assert (F : map_get m1 k = None).
    { apply map_get_None. rewrite map_app in N. cbn [map fst] in N.
      apply NoDup_remove_2 in N. intros I. apply N, in_or_app. left. exact I. }
    rewrite F, (map_set_fresh _ _ _ F), IH; rewrite <- app_assoc;
      [ reflexivity | split; assumption ].
Qed.

(** X21. [dedupeManifestCandidates] returns candidates of its input with
    a resolved URL, no two with the same URL; for every candidate of the
    input with a resolved URL it returns one with this URL whose label is
    not longer. *)
Theorem dedupeManifestCandidates_spec (candidates : list Candidate) :
  let unique := dedupeManifestCandidates candidates in
  NoDup (map urlOf unique)
  /\ Forall (fun d => In d candidates /\ given (resolvedHref d) = true) unique
  /\ forall c,
       In c candidates -> given (resolvedHref c) = true ->
       exists d,
         In d unique /\ resolvedHref d = resolvedHref c
         /\ String.length (label d) <= String.length (label c).
Proof.
  cbv zeta. unfold dedupeManifestCandidates.
  pose proof (dedupe_loop_keyed candidates [] keyed_nil) as K.
  split; [ rewrite (keyed_urls _ K); apply K | ]. split.
  - apply Forall_forall. intros d I. apply in_map_iff in I as [[k d'] [E I]].
    cbn [snd] in E. subst d'. split.
    + apply (dedupe_loop_members candidates [] [] (fun k c (H : In (k, c) []) => match H with end)
               k d I).
    + destruct K as [_ K]. destruct (K k d I) as [R NE]. rewrite R. exact NE.
  - intros c I G.
    destruct (dedupe_loop_covers candidates [] []
                (fun c (H : In c []) => match H with end) c I G) as [d [D L]].
    exists d. apply map_get_In in D.
    split; [ apply in_map_iff; exists (urlOf c, d); auto | ].
    split; [ | exact L ].
    destruct K as [_ K]. destruct (K _ _ D) as [R _].
    rewrite R. symmetry. apply given_urlOf, G.
Qed.

(** X22. The URLs of the candidates kept are the resolved URLs of the
    input in the order of their first occurrence; and removing duplicates
    from the result changes nothing. *)
Theorem dedupeManifestCandidates_order (candidates : list Candidate) :
  let unique := dedupeManifestCandidates candidates in
  map urlOf unique = dedup (filter nonEmpty (map urlOf candidates))
  /\ dedupeManifestCandidates unique = unique.
Proof.
  cbv zeta. unfold dedupeManifestCandidates.
  pose proof (dedupe_loop_keyed candidates [] keyed_nil) as K.
  split.
  - rewrite (keyed_urls _ K). apply (dedupe_loop_keys candidates [] keyed_nil).
  - rewrite (dedupe_loop_own (dedupe_loop candidates []) [] K). reflexivity.
Qed.

End Dedupe.

(** ** The sniffer: from the nodes to the records *)

Section SnifferFacts.

Import Sniffer.

Variable resolve : string -> option string.

Lemma referrer_loop_spec (nodes : list Node) :
  forall results,
    referrer_loop resolve nodes results
    = results ++ flat_map (candidateOf resolve) nodes.
Proof.
  induction nodes as [ | n nodes IH]; intros results; cbn [referrer_loop flat_map].
  - rewrite app_nil_r. reflexivity.
  - unfold candidateOf at 1.
    destruct (nonEmpty (getNodeLabel n)); cbn [negb andb]; [ | apply IH ].
    destruct (test MANIFEST_TEXT_RE (getNodeLabel n)); cbn [negb]; [ | apply IH ].
    rewrite IH, <- app_assoc. reflexivity.
Qed.

Lemma unique_urls (cs : list Candidate) :
  flat_map (fun c => match resolvedHref c with
                     | Some u => if Nat.ltb 0 (String.length u) then [u] else []
                     | None => []
                     end) (dedupeManifestCandidates cs)
  = map urlOf (dedupeManifestCandidates cs).
Proof.
  unfold dedupeManifestCandidates.
  pose proof (dedupe_loop_keyed cs [] keyed_nil) as [_ K].
  induction (dedupe_loop cs []) as [ | [k c] m IH]; [ reflexivity | ].
  cbn [map snd flat_map]. rewrite IH by (intros k' c' I; apply K; right; exact I).
  destruct (K k c (or_introl eq_refl)) as [R NE]. unfold urlOf. rewrite R.
  destruct k; [ discriminate NE | reflexivity ].
Qed.

Lemma dedup_In (l : list string) (x : string) : In x (dedup l) -> In x l.
Proof.
  induction l as [ | a l IH]; cbn [dedup]; [ tauto | ].
  intros [-> | I]; [ left; reflexivity | ].
  apply filter_In in I as [I _]. right. apply IH, I.
Qed.

Lemma NoDup_dedup (l : list string) : NoDup (dedup l).
Proof.
  induction l as [ | a l IH]; cbn [dedup]; constructor.
  - intros I. apply filter_In in I as [_ I]. rewrite String.eqb_refl in I. discriminate I.
  - apply NoDup_filter, IH.
Qed.

(** X23. The candidates are those of the nodes whose label is not empty
    and passes the test, in document order; the manifest URLs are the
    resolved URLs of the candidates in the order of their first occurrence,
    none of them twice and none empty, and they are the URLs of the unique
    candidates; each one is the resolved [href] of a node whose label passes
    the test. *)
Theorem sniffManifestUrls_spec (nodes : list Node) :
  let s := sniffManifestUrls resolve nodes in
  candidates s = flat_map (candidateOf resolve) nodes
  /\ manifestUrls s = dedup (filter nonEmpty (map urlOf (candidates s)))
  /\ manifestUrls s = map urlOf (unique s)
  /\ NoDup (manifestUrls s)
  /\ forall u,
       In u (manifestUrls s) ->
       nonEmpty u = true
       /\ exists n,
            In n nodes
            /\ nonEmpty (getNodeLabel n) = true
            /\ test MANIFEST_TEXT_RE (getNodeLabel n) = true
            /\ resolveUrl resolve (hrefOf n) = Some u.
Proof.
  cbv zeta. unfold sniffManifestUrls. cbn [candidates unique manifestUrls].
  unfold findManifestReferrerNodes. rewrite referrer_loop_spec. cbn [app].
  set (cs := flat_map (candidateOf resolve) nodes).
  assert (U : map urlOf (dedupeManifestCandidates cs)
              = dedup (filter nonEmpty (map urlOf cs))).
  { unfold dedupeManifestCandidates.
    rewrite (keyed_urls _ (dedupe_loop_keyed cs [] keyed_nil)).
    apply (dedupe_loop_keys cs [] keyed_nil). }
  rewrite unique_urls, U.
  split; [ reflexivity | ]. split; [ reflexivity | ]. split; [ reflexivity | ].
  split; [ apply NoDup_dedup | ].
  intros u I. apply dedup_In, filter_In in I as [I NE]. split; [ exact NE | ].
  apply in_map_iff in I as [c [E I]]. subst cs.
  apply in_flat_map in I as [n [N I]]. exists n. split; [ exact N | ].
  unfold candidateOf in I.
  destruct (nonEmpty (getNodeLabel n)) eqn:L; [ | contradiction ].
  destruct (test MANIFEST_TEXT_RE (getNodeLabel n)) eqn:T; [ | contradiction ].
  cbn [andb In] in I. destruct I as [<- | []].
  split; [ reflexivity | ]. split; [ reflexivity | ].
  unfold urlOf in E. cbn [resolvedHref] in E.
  destruct (resolveUrl resolve (hrefOf n)) as [u' | ]; cbn [orEmpty] in E.
  - subst u'. reflexivity.
  - subst u. discriminate NE.
Qed.

Context {P : Platform}.


End SnifferFacts.

(** ** The sniffer: the label test *)

Lemma rmatch_lit_i (w : string) :
  forall prev s k,
    rmatch (lit_i w) prev s k <> None
    <-> exists a rest,
          s = (a ++ rest)%string /\ toLowerCase a = toLowerCase w
          /\ k (prevAfter prev a) rest <> None.
Proof.
  induction w as [ | c w IH]; intros prev s k.
  - cbn [lit_i rmatch toLowerCase]. split.
    + intros H. exists "", s. auto.
    + intros [a [rest [-> [A H]]]]. destruct a; [ exact H | discriminate A ].
  - cbn [lit_i rmatch toLowerCase]. split.
    + destruct s as [ | x s]; [ intros H; exfalso; apply H; reflexivity | ].
      destruct (Ascii.eqb (lowerChar x) (lowerChar c)) eqn:E; [ | intros H; exfalso; apply H; reflexivity ].
      intros H. apply IH in H as [a [rest [-> [A H]]]].
      exists (String x a), rest. split; [ reflexivity | ].
      apply Ascii_eqb_eq in E. cbn [toLowerCase]. rewrite E, A. auto.
    + intros [a [rest [-> [A H]]]].
      destruct a as [ | x a]; [ discriminate A | ].
      cbn [toLowerCase] in A. injection A as X A. cbn [append].
      rewrite X, Ascii.eqb_refl. apply IH. exists a, rest. auto.
Qed.

Lemma star_class_some (f : ascii -> bool) (n : nat) :
  forall prev s k,
    String.length s <= n ->
    (star_loop (rmatch (RClass f)) n prev s k <> None
     <-> exists gap rest,
           s = (gap ++ rest)%string /\ allChars f gap = true
           /\ k (prevAfter prev gap) rest <> None).
Proof.
  induction n as [ | n IH]; intros prev s k L.
  - destruct s; [ | cbn [String.length] in L; lia ]. cbn [star_loop]. split.
    + intros H. exists "", "". auto.
    + intros [gap [rest [E [_ H]]]].
      destruct gap; [ | discriminate E ]. cbn [append] in E. subst rest. exact H.
  - cbn [star_loop rmatch].
    destruct s as [ | c s].
    + split.
      * intros H. exists "", "". auto.
      * intros [gap [rest [E [_ H]]]].
        destruct gap; [ | discriminate E ]. cbn [append] in E. subst rest. exact H.
    + destruct (f c) eqn:F.
      * replace (Nat.ltb (String.length s) (String.length (String c s))) with true
          by (symmetry; apply Nat.ltb_lt; cbn [String.length]; lia).
        cbn [String.length] in L.
        specialize (IH (Some c) s k ltac:(lia)).
        change (fun (_ : option ascii) (s0 : string) (k0 : cont) =>
                  match s0 with
                  | EmptyString => None
                  | String c0 s' => if f c0 then k0 (Some c0) s' else None
                  end) with (rmatch (RClass f)).
        destruct (star_loop (rmatch (RClass f)) n (Some c) s k) as [r | ].
        -- split; [ intros _ | intros _; discriminate ].
           destruct (proj1 IH ltac:(discriminate)) as [gap [rest [-> [A H]]]].
           exists (String c gap), rest. cbn [append allChars prevAfter].
           rewrite F, A. auto.
        -- split.
           ++ intros H. exists "", (String c s). auto.
           ++ intros [gap [rest [E [A H]]]]. destruct gap as [ | x gap].
              ** cbn [append] in E. subst rest. exact H.
              ** cbn [append] in E. injection E as <- ->.
                 cbn [allChars] in A. apply andb_true_iff in A as [_ A].
                 exfalso. apply (proj2 IH); [ | reflexivity ].
                 exists gap, rest. auto.
      * split.
        -- intros H. exists "", (String c s). auto.
        -- intros [gap [rest [E [A H]]]]. destruct gap as [ | x gap].
           ++ cbn [append] in E. subst rest. exact H.
           ++ cbn [append] in E. injection E as <- ->.
              cbn [allChars] in A. rewrite F in A. discriminate A.
Qed.

Lemma rmatch_star_class_some (f : ascii -> bool) (prev : option ascii) (s : string)
    (k : cont) :
  rmatch (RStar (RClass f)) prev s k <> None
  <-> exists gap rest,
        s = (gap ++ rest)%string /\ allChars f gap = true
        /\ k (prevAfter prev gap) rest <> None.
Proof.
  change (rmatch (RStar (RClass f)) prev s k)
    with (star_loop (rmatch (RClass f)) (String.length s) prev s k).
  apply star_class_some. lia.
Qed.

(** X25. The label test of the sniffer accepts exactly the labels that
    hold the letters of [iiif] and of [manifest], in any letter case, with
    nothing between the two words but white space, underscores and
    hyphens. *)
Theorem MANIFEST_TEXT_RE_spec (label : string) :
  test Sniffer.MANIFEST_TEXT_RE label = true
  <-> exists pre a gap b post,
        label = (pre ++ a ++ gap ++ b ++ post)%string
        /\ toLowerCase a = "iiif"
        /\ allChars Sniffer.isGap gap = true
        /\ toLowerCase b = "manifest".
Proof.
  rewrite test_true. unfold Sniffer.MANIFEST_TEXT_RE. split.
  - intros [pre [s [-> H]]]. cbn [rmatch] in H.
    apply rmatch_lit_i in H as [a [s1 [-> [A H]]]].
    change (rmatch (RStar (RClass Sniffer.isGap)) (prevAfter (prevAfter None pre) a) s1
              (fun p' s' => rmatch (lit_i "manifest") p' s' done) <> None) in H.
    apply rmatch_star_class_some in H as [gap [s2 [-> [G H]]]].
    apply rmatch_lit_i in H as [b [post [-> [B _]]]].
    exists pre, a, gap, b, post. auto.
  - intros [pre [a [gap [b [post [-> [A [G B]]]]]]]].
    exists pre, (a ++ gap ++ b ++ post)%string. split; [ reflexivity | ].
    cbn [rmatch]. apply rmatch_lit_i. exists a, (gap ++ b ++ post)%string.
    split; [ reflexivity | ]. split; [ exact A | ].
    change (rmatch (RStar (RClass Sniffer.isGap)) (prevAfter (prevAfter None pre) a)
              (gap ++ b ++ post)
              (fun p' s' => rmatch (lit_i "manifest") p' s' done) <> None).
    apply rmatch_star_class_some. exists gap, (b ++ post)%string.
    split; [ reflexivity | ]. split; [ exact G | ].
    apply rmatch_lit_i. exists b, post.
    split; [ reflexivity | ]. split; [ exact B | discriminate ].
Qed.

(** ** The theorems on the tools at work *)

Lemma ZoteroCli_parseArgs_written_witness :
  ZoteroCli.parseArgs
    [ Reference.urlA; "--out"; "first.json"; "--verbose"; "--post-webapi";
      "--api-user"; "475425"; "--api-key"; "secret"; Reference.urlC;
      "--out=last.json" ]
  = ([ZoteroCli.unrecognized "--verbose"],
     Returns {| ZoteroCli.outFile := Some "last.json"; ZoteroCli.cslFile := None;
                ZoteroCli.urls := [Reference.urlA; Reference.urlC];
                ZoteroCli.postWebAPI := true;
                ZoteroCli.apiUser := Some "475425";
                ZoteroCli.apiKey := Some "secret" |}).
Proof. exact (ZoteroCli_parseArgs_written sampleOpts eq_refl). Defined.

Lemma ZoteroCli_parseArgs_missing_value_witness :
  ZoteroCli.parseArgs [Reference.urlA; "--verbose"; "--api-key"]
  = ([ZoteroCli.unrecognized "--verbose";
      "Error: --api-key flag requires a key string."], Exits 1).
Proof.
  exact (proj1 (ZoteroCli_parseArgs_missing_value
                  [ZoteroCli.OptUrl Reference.urlA; ZoteroCli.OptUnknown "--verbose"]
                  "--api-key" "Error: --api-key flag requires a key string."
                  eq_refl (or_intror (or_intror (or_intror (or_introl eq_refl)))))).
Defined.

Lemma parseArgs_agree_witness :
  sameRun (CslCli.parseArgs [Reference.urlA; "--out"; "o.json"; "-x"; Reference.urlC])
          (ZoteroCli.parseArgs [Reference.urlA; "--out"; "o.json"; "-x"; Reference.urlC]).
Proof.
  exact (parseArgs_agree [Reference.urlA; "--out"; "o.json"; "-x"; Reference.urlC] eq_refl).
Defined.

Lemma ZoteroCli_main_url_mode_witness :
  exitCode urlModeRun = 0
  /\ network urlModeRun = [Reference.urlA; Reference.urlB]
  /\ exists zs, stdout urlModeRun = Some zs /\ List.length zs = 1.
Proof.
  destruct (ZoteroCli_main_url_mode (P := Reference.platform) noFile writable offline
              "cli.js" [Reference.urlA; Reference.urlB] true "" [] [] urlModeArgs
              eq_refl eq_refl eq_refl ltac:(discriminate) ltac:(discriminate))
    as [zs [F E]].
  unfold urlModeRun. rewrite E. cbn [exitCode network stdout urlModeArgs given
                                      ZoteroCli.outFile].
  split; [ reflexivity | ]. split; [ reflexivity | ].
  exists zs. split; [ reflexivity | ].
  rewrite <- (Forall2_length F). reflexivity.
Defined.

Lemma ZoteroCli_main_csl_mode_witness :
  exitCode cslModeRun = 0
  /\ network cslModeRun = []
  /\ exists zs, file cslModeRun = Some ("out.json", zs) /\ List.length zs = 1.
Proof.
  destruct (ZoteroCli_main_csl_mode (P := Reference.platform) fileA writable offline
              "cli.js" ["--csl"; "items.json"; Reference.urlA; "--out=out.json"] false
              Reference.urlC [] [] cslModeArgs [Reference.manifestA]
              eq_refl eq_refl eq_refl eq_refl eq_refl (fun _ => eq_refl))
    as [zs [F E]].
  unfold cslModeRun. rewrite E. cbn [exitCode network file cslModeArgs given
                                      ZoteroCli.outFile nonEmpty orEmpty].
  split; [ reflexivity | ]. split; [ reflexivity | ].
  exists zs. split; [ reflexivity | ].
  rewrite <- (Forall2_length F). reflexivity.
Defined.

(** ** The labels of a date of creation or of publication *)

Lemma rmatch_alt (a b : regex) (prev : option ascii) (s : string) (k : cont) :
  rmatch (RAlt a b) prev s k <> None
  <-> rmatch a prev s k <> None \/ rmatch b prev s k <> None.
Proof.
  cbn [rmatch]. destruct (rmatch a prev s k) as [r | ].
  - split; [ intros _; left; discriminate | intros _; discriminate ].
  - split; [ intros H; right; exact H | intros [H | H]; [ contradiction | exact H ] ].
Qed.

Lemma rmatch_not_ahead (a : regex) (prev : option ascii) (s : string) (k : cont) :
  rmatch (RNotAhead a) prev s k <> None
  <-> rmatch a prev s done = None /\ k prev s <> None.
Proof.
  cbn [rmatch]. destruct (rmatch a prev s done) as [r | ].
  - split; [ intros H; contradiction | intros [H _]; discriminate H ].
  - split; [ intros H; split; [ reflexivity | exact H ] | intros [_ H]; exact H ].
Qed.

Lemma rmatch_plus_class (f : ascii -> bool) (prev : option ascii) (s : string) (k : cont) :
  rmatch (RPlus (RClass f)) prev s k <> None
  <-> exists run rest,
        s = (run ++ rest)%string /\ nonEmpty run = true /\ allChars f run = true
        /\ k (prevAfter prev run) rest <> None.
Proof.
  unfold RPlus.
  change (rmatch (RSeq (RClass f) (RStar (RClass f))) prev s k)
    with (match s with
          | String c s' => if f c then rmatch (RStar (RClass f)) (Some c) s' k else None
          | EmptyString => None
          end).
  split.
  - destruct s as [ | c s]; [ intros H; contradiction | ].
    destruct (f c) eqn:F; [ | intros H; contradiction ].
    intros H. apply rmatch_star_class_some in H as [gap [rest [-> [A H]]]].
    exists (String c gap), rest. cbn [append nonEmpty allChars prevAfter].
    rewrite F, A. auto.
  - intros [run [rest [-> [N [A H]]]]].
    destruct run as [ | c run]; [ discriminate N | ].
    cbn [append allChars] in *. apply andb_true_iff in A as [F A]. rewrite F.
    apply rmatch_star_class_some. exists run, rest. auto.
Qed.

Lemma prevAfter_Some (w : string) (c : ascii) : prevAfter (Some c) w <> None.
Proof. revert c. induction w as [ | x w IH]; intros c; cbn [prevAfter]; [ discriminate | apply IH ]. Qed.

Lemma prevAfter_None (pre : string) : prevAfter None pre = None -> pre = "".
Proof.
  destruct pre as [ | c pre]; [ reflexivity | ]. cbn [prevAfter]. intros H.
  exfalso. apply (prevAfter_Some pre c H).
Qed.

Lemma separator_is_no_letter (x : ascii) :
  isLabelSeparator x = true ->
  lowerChar x <> "b"%char /\ lowerChar x <> "f"%char.
Proof.
  destruct x as [[] [] [] [] [] [] [] []]; cbn; intros H;
    try discriminate H; split; discriminate.
Qed.

Lemma white_is_no_first_letter (x : ascii) :
  isWhiteSpace x = true -> lowerChar x <> "c"%char /\ lowerChar x <> "p"%char.
Proof.
  destruct x as [[] [] [] [] [] [] [] []]; cbn; intros H;
    try discriminate H; split; discriminate.
Qed.

Lemma white_is_separator (x : ascii) :
  isWhiteSpace x = true -> isLabelSeparator x = true.
Proof. unfold isLabelSeparator. intros ->. rewrite !orb_true_r. reflexivity. Qed.

Lemma word_first_letter (w : string) :
  isCreatedOrPublished w ->
  exists c w', w = String c w' /\ (lowerChar c = "c"%char \/ lowerChar c = "p"%char).
Proof.
  intros [H | H]; (destruct w as [ | c w']; [ discriminate H | ]);
    cbn [toLowerCase] in H; injection H as C _; exists c, w'; auto.
Qed.

(** After a separator (or nothing) and a word, white space is never followed
    by the letter [b] or [f]: the negative lookaheads of the pattern do not
    reject anything that the anchors accept. *)
Lemma no_letter_after_gap (sep : string) :
  forall w gap x r,
    allChars isLabelSeparator sep = true -> isCreatedOrPublished w ->
    allChars isWhiteSpace gap = true ->
    (sep ++ w)%string = (gap ++ String x r)%string ->
    lowerChar x <> "b"%char /\ lowerChar x <> "f"%char.
Proof.
  induction sep as [ | s0 sep IH]; intros w gap x r S W G E.
  - cbn [append] in E. destruct (word_first_letter _ W) as [c [w' [-> C]]].
    destruct gap as [ | g gap]; cbn [append] in E; injection E as <- _.
    + destruct C as [C | C]; rewrite C; split; discriminate.
    + cbn [allChars] in G. apply andb_true_iff in G as [G _].
      destruct (white_is_no_first_letter _ G) as [A B].
      destruct C as [C | C]; contradiction.
  - cbn [allChars] in S. apply andb_true_iff in S as [S0 S].
    destruct gap as [ | g gap]; cbn [append] in E; injection E as <- E.
    + apply separator_is_no_letter, S0.
    + cbn [allChars] in G. apply andb_true_iff in G as [_ G].
      apply (IH w gap x r S W G E).
Qed.

Lemma lookahead_passes (sep w : string) (prev : option ascii) (words : regex) :
  (forall p s k, rmatch words p s k <> None ->
     exists a rest, s = (a ++ rest)%string
                    /\ (toLowerCase a = "by" \/ toLowerCase a = "for")) ->
  allChars isLabelSeparator sep = true ->
  (w = "" \/ isCreatedOrPublished w) -> (w = "" -> sep = "") ->
  rmatch (RSeq (RStar (RClass isWhiteSpace)) words) prev (sep ++ w) done = None.
Proof.
  intros Wd S W E.
  destruct (rmatch (RSeq (RStar (RClass isWhiteSpace)) words) prev (sep ++ w) done)
    as [r | ] eqn:M; [ exfalso | reflexivity ].
  assert (H : rmatch (RSeq (RStar (RClass isWhiteSpace)) words) prev (sep ++ w) done
              <> None) by (rewrite M; discriminate).
  clear M.
  change (rmatch (RStar (RClass isWhiteSpace)) prev (sep ++ w)
            (fun p' s' => rmatch words p' s' done) <> None) in H.
  apply rmatch_star_class_some in H as [gap [rest [Eq [G H]]]].
  apply Wd in H as [a [rest' [-> A]]].
  assert (X : exists x a', a = String x a' /\ (lowerChar x = "b"%char \/ lowerChar x = "f"%char)).
  { destruct A as [A | A]; (destruct a as [ | x a']; [ discriminate A | ]);
      cbn [toLowerCase] in A; injection A as X _; exists x, a'; auto. }
  destruct X as [x [a' [-> X]]]. cbn [append] in Eq.
  destruct W as [-> | W].
  - rewrite (E eq_refl) in Eq. destruct gap; discriminate Eq.
  - destruct (no_letter_after_gap sep w gap x _ S W G Eq) as [B F].
    destruct X as [X | X]; contradiction.
Qed.

Lemma by_or_for_words (p : option ascii) (s : string) (k : cont) :
  rmatch (RAlt (lit_i "by") (lit_i "for")) p s k <> None ->
  exists a rest, s = (a ++ rest)%string
                 /\ (toLowerCase a = "by" \/ toLowerCase a = "for").
Proof.
  intros H. apply rmatch_alt in H as [H | H];
    apply rmatch_lit_i in H as [a [rest [-> [A _]]]]; exists a, rest; auto.
Qed.

Lemma by_word (p : option ascii) (s : string) (k : cont) :
  rmatch (lit_i "by") p s k <> None ->
  exists a rest, s = (a ++ rest)%string
                 /\ (toLowerCase a = "by" \/ toLowerCase a = "for").
Proof.
  intros H. apply rmatch_lit_i in H as [a [rest [-> [A _]]]]. exists a, rest. auto.
Qed.

Lemma created_or_published_found (prev : option ascii) (s : string) (k : cont) :
  rmatch RE_CREATED_OR_PUBLISHED prev s k <> None ->
  exists w rest,
    s = (w ++ rest)%string /\ isCreatedOrPublished w
    /\ k (prevAfter prev w) rest <> None.
Proof.
  unfold RE_CREATED_OR_PUBLISHED. intros H. apply rmatch_alt in H as [H | H].
  - change (rmatch (lit_i "created") prev s
              (fun p' s' =>
                 rmatch (RNotAhead (RSeq (RStar (RClass isWhiteSpace)) (lit_i "by")))
                   p' s' k) <> None) in H.
    apply rmatch_lit_i in H as [w [rest [-> [W H]]]].
    apply rmatch_not_ahead in H as [_ H].
    exists w, rest. split; [ reflexivity | ]. split; [ left; exact W | exact H ].
  - change (rmatch (lit_i "published") prev s
              (fun p' s' =>
                 rmatch (RNotAhead (RSeq (RStar (RClass isWhiteSpace))
                                         (RAlt (lit_i "by") (lit_i "for"))))
                   p' s' k) <> None) in H.
    apply rmatch_lit_i in H as [w [rest [-> [W H]]]].
    apply rmatch_not_ahead in H as [_ H].
    exists w, rest. split; [ reflexivity | ]. split; [ right; exact W | exact H ].
Qed.

Lemma created_or_published_matches (prev : option ascii) (w sep w' : string) (k : cont) :
  isCreatedOrPublished w ->
  allChars isLabelSeparator sep = true ->
  (w' = "" \/ isCreatedOrPublished w') -> (w' = "" -> sep = "") ->
  k (prevAfter prev w) (sep ++ w')%string <> None ->
  rmatch RE_CREATED_OR_PUBLISHED prev (w ++ sep ++ w') k <> None.
Proof.
  intros W S W' E K. unfold RE_CREATED_OR_PUBLISHED. apply rmatch_alt.
  destruct W as [W | W]; [ left | right ].
  - change (rmatch (lit_i "created") prev (w ++ sep ++ w')
              (fun p' s' =>
                 rmatch (RNotAhead (RSeq (RStar (RClass isWhiteSpace)) (lit_i "by")))
                   p' s' k) <> None).
    apply rmatch_lit_i. exists w, (sep ++ w')%string.
    split; [ reflexivity | ]. split; [ exact W | ].
    apply rmatch_not_ahead. split; [ | exact K ].
    apply (lookahead_passes sep w' _ (lit_i "by") by_word S W' E).
  - change (rmatch (lit_i "published") prev (w ++ sep ++ w')
              (fun p' s' =>
                 rmatch (RNotAhead (RSeq (RStar (RClass isWhiteSpace))
                                         (RAlt (lit_i "by") (lit_i "for"))))
                   p' s' k) <> None).
    apply rmatch_lit_i. exists w, (sep ++ w')%string.
    split; [ reflexivity | ]. split; [ exact W | ].
    apply rmatch_not_ahead. split; [ | exact K ].
    apply (lookahead_passes sep w' _ (RAlt (lit_i "by") (lit_i "for"))
             by_or_for_words S W' E).
Qed.

(** X26. The pattern for the labels of a date of creation or publication
    accepts exactly the labels made of [created] or [published], in any
    letter case, alone or followed by a non-empty run of hyphens, slashes and
    white space and by one of the two words again; nothing may come before
    or after, so that the negative lookaheads of the pattern reject nothing
    more: a label such as "Created by" fails on the anchor. *)
Theorem CREATED_PUBLISHED_LABEL_RE_spec (label : string) :
  test CREATED_PUBLISHED_LABEL_RE label = true
  <-> exists w1,
        isCreatedOrPublished w1
        /\ (label = w1
            \/ exists sep w2,
                 label = (w1 ++ sep ++ w2)%string
                 /\ nonEmpty sep = true /\ allChars isLabelSeparator sep = true
                 /\ isCreatedOrPublished w2).
Proof.
  rewrite test_true. unfold CREATED_PUBLISHED_LABEL_RE.
  set (tail := RSeq (ROpt (RSeq (RPlus (RClass isLabelSeparator)) RE_CREATED_OR_PUBLISHED))
                    REnd).
  assert (End : forall p s, rmatch REnd p s done <> None <-> s = "").
  { intros p s. destruct s; cbn [rmatch]; split; intros H;
      try reflexivity; try discriminate; exfalso; apply H; reflexivity. }
  split.
  - intros [pre [post [-> H]]].
    change (match prevAfter None pre with
            | None => rmatch (RSeq RE_CREATED_OR_PUBLISHED tail) (prevAfter None pre)
                        post done
            | Some _ => None
            end <> None) in H.
    destruct (prevAfter None pre) eqn:P; [ exfalso; apply H; reflexivity | ].
    apply prevAfter_None in P. subst pre. cbn [append].
    change (rmatch RE_CREATED_OR_PUBLISHED None post
              (fun p' s' => rmatch tail p' s' done) <> None) in H.
    apply created_or_published_found in H as [w1 [rest [-> [W1 H]]]].
    exists w1. split; [ exact W1 | ].
    subst tail.
    change (rmatch (RAlt (RSeq (RPlus (RClass isLabelSeparator)) RE_CREATED_OR_PUBLISHED)
                         REmpty)
              (prevAfter None w1) rest (fun p' s' => rmatch REnd p' s' done) <> None) in H.
    apply rmatch_alt in H as [H | H].
    + change (rmatch (RPlus (RClass isLabelSeparator)) (prevAfter None w1) rest
                (fun p' s' => rmatch RE_CREATED_OR_PUBLISHED p' s'
                                (fun p2 s2 => rmatch REnd p2 s2 done)) <> None) in H.
      apply rmatch_plus_class in H as [sep [rest2 [-> [N [S H]]]]].
      apply created_or_published_found in H as [w2 [rest3 [-> [W2 H]]]].
      apply End in H. subst rest3. rewrite append_empty_r.
      right. exists sep, w2. auto.
    + cbn [rmatch] in H. apply (End (prevAfter None w1) rest) in H. subst rest.
      rewrite append_empty_r. left. reflexivity.
  - intros [w1 [W1 L]]. exists "", label. split; [ reflexivity | ].
    change (rmatch RE_CREATED_OR_PUBLISHED None label
              (fun p' s' => rmatch tail p' s' done) <> None).
    subst tail.
    destruct L as [-> | [sep [w2 [-> [N [S W2]]]]]].
    + rewrite <- (append_empty_r w1).
      apply (created_or_published_matches None w1 "" "" _ W1 eq_refl (or_introl eq_refl)
               (fun _ => eq_refl)).
      cbn [append].
      change (rmatch (RAlt (RSeq (RPlus (RClass isLabelSeparator))
                                 RE_CREATED_OR_PUBLISHED) REmpty)
                (prevAfter None w1) "" (fun p' s' => rmatch REnd p' s' done) <> None).
      apply rmatch_alt. right. cbn [rmatch]. discriminate.
    + apply (created_or_published_matches None w1 sep w2 _ W1 S (or_intror W2)).
      { intros ->. destruct W2 as [W2 | W2]; discriminate W2. }
      change (rmatch (RAlt (RSeq (RPlus (RClass isLabelSeparator))
                                 RE_CREATED_OR_PUBLISHED) REmpty)
                (prevAfter None w1) (sep ++ w2)
                (fun p' s' => rmatch REnd p' s' done) <> None).
      apply rmatch_alt. left.
      change (rmatch (RPlus (RClass isLabelSeparator)) (prevAfter None w1) (sep ++ w2)
                (fun p' s' => rmatch RE_CREATED_OR_PUBLISHED p' s'
                                (fun p2 s2 => rmatch REnd p2 s2 done)) <> None).
      apply rmatch_plus_class. exists sep, w2.
      split; [ reflexivity | ]. split; [ exact N | ]. split; [ exact S | ].
      rewrite <- (append_empty_r w2).
      apply (created_or_published_matches _ w2 "" "" _ W2 eq_refl (or_introl eq_refl)
               (fun _ => eq_refl)).
      cbn [append rmatch]. discriminate.
Qed.

(** ** Where the date string comes from *)

Lemma prop_plainEntry (l v : string) :
  prop (plainEntry l v) "label" = Ok (JStr l)
  /\ prop (plainEntry l v) "value" = Ok (JStr v).
Proof.
  unfold prop, plainEntry. cbn [get own bind].
  split; [ destruct l | destruct v ]; reflexivity.
Qed.

Lemma entryValue_plain (l v : string) (keys : list string) :
  entryValue (plainEntry l v) keys
  = Ok (if labelMatches (trim l) keys && nonEmpty (trim v) then Some (trim v) else None).
Proof.
  unfold entryValue. destruct (prop_plainEntry l v) as [L V].
  rewrite L. cbn [bind]. rewrite iiifLabelToString_string. cbn [bind].
  rewrite key_loop_spec, V. destruct (labelMatches (trim l) keys); [ | reflexivity ].
  cbn [bind andb]. rewrite iiifLabelToString_string. reflexivity.
Qed.

Lemma entry_loop_plain (pairs : list (string * string)) (keys : list string) :
  entry_loop (plainEntries pairs) keys
  = Ok (match firstValue (fun l => labelMatches l keys) pairs with
        | Some v => v
        | None => ""
        end).
Proof.
  unfold firstValue, plainEntries.
  induction pairs as [ | [l v] pairs IH]; [ reflexivity | ].
  cbn [map fst snd find]. rewrite entry_loop_cons, entryValue_plain. cbn [bind].
  destruct (labelMatches (trim l) keys && nonEmpty (trim v)); [ reflexivity | exact IH ].
Qed.

Lemma created_loop_plain (pairs : list (string * string)) :
  forall dateStr,
    created_loop (plainEntries pairs) dateStr
    = Ok (match firstValue (test CREATED_PUBLISHED_LABEL_RE) pairs with
          | Some v => v
          | None =>
              if existsb (fun p => test CREATED_PUBLISHED_LABEL_RE (trim (fst p))) pairs
              then "" else dateStr
          end).
Proof.
  unfold firstValue, plainEntries.
  induction pairs as [ | [l v] pairs IH]; intros dateStr; [ reflexivity | ].
  cbn [map fst snd find existsb created_loop].
  destruct (prop_plainEntry l v) as [L V].
  rewrite L. cbn [bind]. rewrite iiifLabelToString_string. cbn [bind].
  destruct (test CREATED_PUBLISHED_LABEL_RE (trim l)); cbn [andb orb]; [ | apply IH ].
  rewrite V. cbn [bind]. rewrite iiifLabelToString_string. cbn [bind].
  destruct (nonEmpty (trim v)) eqn:N; [ reflexivity | ].
  rewrite IH. apply nonEmpty_false in N. rewrite N.
  destruct (option_map _ _); [ reflexivity | ].
  destruct (existsb _ pairs); reflexivity.
Qed.

(** X27. On a manifest whose metadata entries have plain labels and
    values, the date string is the value of the first entry, in document
    order, that is labelled with one of the four date names and has a value;
    only when there is none, the value of the first entry with a "Created /
    Published" label that has a value; else it is empty.  A date name thus
    wins over a "Created / Published" label wherever the two stand. *)
Theorem locateDateString_plain (manifest : value) (pairs : list (string * string)) :
  metadataEntries manifest = Ok (plainEntries pairs) ->
  locateDateString manifest
  = Ok (match firstValue
                (fun l => labelMatches l ["Date"; "Publication Date"; "date"; "Issued"])
                pairs with
        | Some v => v
        | None =>
            match firstValue (test CREATED_PUBLISHED_LABEL_RE) pairs with
            | Some v => v
            | None => ""
            end
        end).
Proof.
  intros M. unfold locateDateString, getFirstMetadataValue.
  rewrite M. cbn [bind]. rewrite entry_loop_plain. cbn [bind].
  destruct (firstValue (fun l => labelMatches l _) pairs) as [v | ] eqn:F.
  - assert (N : nonEmpty v = true).
    { unfold firstValue in F.
      destruct (find _ pairs) as [p | ] eqn:E; [ | discriminate F ].
      apply find_some in E as [_ E]. apply andb_true_iff in E as [_ E].
      cbn [option_map] in F. injection F as <-. exact E. }
    rewrite N. reflexivity.
  - cbn [nonEmpty negb]. rewrite created_loop_plain.
    destruct (firstValue (test CREATED_PUBLISHED_LABEL_RE) pairs); [ reflexivity | ].
    destruct (existsb _ pairs); reflexivity.
Qed.

Lemma locateDateString_plain_witness :
  locateDateString publishedThenDated = Ok "1700".
Proof.
  exact (locateDateString_plain publishedThenDated
           [("Created / Published", "London, 1623"); ("Date", "1700")] eq_refl).
Defined.

(** ** The names of a creators string *)

Lemma cutAt_cons (f : ascii -> bool) (c : ascii) (s p : string) (ps : list string) :
  f c = false -> cutAt f s (p :: ps) -> cutAt f (String c s) (String c p :: ps).
Proof.
  intros C H. inversion H as [ q A | q d rest pieces A D R ]; subst.
  - apply cut_last. cbn [allChars]. rewrite C, A. reflexivity.
  - change (String c (p ++ String d rest))%string
      with (String c p ++ String d rest)%string.
    apply cut_more; [ | exact D | exact R ].
    cbn [allChars]. rewrite C, A. reflexivity.
Qed.

Lemma splitOn_not_nil (f : ascii -> bool) (s : string) : splitOn f s <> [].
Proof.
  induction s as [ | c s IH]; cbn [splitOn]; [ discriminate | ].
  destruct (f c); [ discriminate | ].
  destruct (splitOn f s); [ contradiction | discriminate ].
Qed.

Lemma cutAt_splitOn (f : ascii -> bool) (s : string) : cutAt f s (splitOn f s).
Proof.
  induction s as [ | c s IH]; cbn [splitOn].
  - apply cut_last. reflexivity.
  - destruct (f c) eqn:C.
    + apply (cut_more f "" c s); [ reflexivity | exact C | exact IH ].
    + pose proof (splitOn_not_nil f s) as N.
      destruct (splitOn f s) as [ | p ps]; [ contradiction | ].
      cbn [prefixFirst append]. apply cutAt_cons; assumption.
Qed.

(** The pieces between runs of separators are the pieces between separators
    that are not empty. *)
Lemma words_splitOn (f : ascii -> bool) (s : string) :
  (forall cur,
     filter nonEmpty (words f false s cur)
     = filter nonEmpty (prefixFirst (rev cur) (splitOn f s)))
  /\ filter nonEmpty (words f true s "") = filter nonEmpty (splitOn f s).
Proof.
  induction s as [ | c s [IA IB]]; cbn [words splitOn].
  - split; [ | reflexivity ].
    intros cur. cbn [prefixFirst]. rewrite append_empty_r. reflexivity.
  - pose proof (splitOn_not_nil f s) as N. destruct (f c) eqn:C.
    + split; [ | cbn [filter nonEmpty]; exact IB ].
      intros cur. cbn [prefixFirst]. rewrite append_empty_r.
      cbn [filter]. rewrite IB. reflexivity.
    + split.
      * intros cur. rewrite IA, rev_cons.
        destruct (splitOn f s) as [ | p ps]; [ contradiction | ].
        cbn [prefixFirst]. rewrite <- append_assoc. reflexivity.
      * rewrite IA. reflexivity.
Qed.

Lemma filter_map_trim (l l' : list string) :
  filter nonEmpty l = filter nonEmpty l' ->
  filter nonEmpty (map trim l) = filter nonEmpty (map trim l').
Proof.
  assert (D : forall l, filter nonEmpty (map trim l)
                        = filter nonEmpty (map trim (filter nonEmpty l))).
  { clear. induction l as [ | x l IH]; [ reflexivity | ].
    cbn [map filter]. destruct x as [ | c x]; [ exact IH | ].
    cbn [nonEmpty map filter]. rewrite IH. reflexivity. }
  intros E. rewrite (D l), (D l'), E. reflexivity.
Qed.

Lemma split_names (creatorsRaw : string) :
  filter nonEmpty (map trim (split RE_NAME_SEPARATOR creatorsRaw))
  = namesIn creatorsRaw.
Proof.
  unfold RE_NAME_SEPARATOR, namesIn.
  change (fun c : ascii => Ascii.eqb c ";" || Ascii.eqb c LF) with isNameSeparator.
  rewrite split_words. apply filter_map_trim.
  rewrite (proj1 (words_splitOn isNameSeparator creatorsRaw) "").
  change (rev "") with "". rewrite prefixFirst_empty. reflexivity.
Qed.

Lemma namesIn_trimmed (creatorsRaw : string) :
  Forall (fun name => trim name = name /\ nonEmpty name = true) (namesIn creatorsRaw).
Proof.
  unfold namesIn. induction (splitOn isNameSeparator creatorsRaw) as [ | x l IH].
  - constructor.
  - cbn [map filter]. destruct (nonEmpty (trim x)) eqn:N; [ | exact IH ].
    constructor; [ | exact IH ]. split; [ apply trim_idempotent | exact N ].
Qed.

(** A string that does not end with white space spells its words: read from
    inside a word, and read from inside a run of white space. *)
Lemma words_spelled (s : string) :
  trimEnd s = s ->
  (forall cur, nonEmpty cur = true -> allChars notWhiteSpace cur = true ->
     spelled (rev cur ++ s) (words isWhiteSpace false s cur))
  /\ (nonEmpty s = true ->
      exists gap rest,
        s = (gap ++ rest)%string /\ allChars isWhiteSpace gap = true
        /\ spelled rest (words isWhiteSpace true s "")).
Proof.
  induction s as [ | c s IH]; intros T.
  - split; [ | discriminate ].
    intros cur N A. cbn [words]. rewrite append_empty_r.
    apply spelled_last, isWord_rev; assumption.
  - destruct (trimEnd_tail _ _ T) as [T' S]. destruct (IH T') as [IA IB].
    cbn [words]. destruct (isWhiteSpace c) eqn:W.
    + destruct (IB (S eq_refl)) as [gap [rest [E [G P]]]]. split.
      * intros cur N A.
        replace (rev cur ++ String c s)%string
          with (rev cur ++ String c gap ++ rest)%string
          by (cbn [append]; rewrite <- E; reflexivity).
        apply spelled_more; [ apply isWord_rev; assumption | reflexivity | | exact P ].
        cbn [allChars]. rewrite W, G. reflexivity.
      * intros _. exists (String c gap), rest.
        split; [ cbn [append]; rewrite <- E; reflexivity | ]. split; [ | exact P ].
        cbn [allChars]. rewrite W, G. reflexivity.
    + assert (P : spelled (String c s) (words isWhiteSpace false s (String c ""))).
      { apply (IA (String c "")); [ reflexivity | ].
        cbn [allChars]. unfold notWhiteSpace. rewrite W. reflexivity. }
      split.
      * intros cur N A.
        replace (rev cur ++ String c s)%string with (rev (String c cur) ++ s)%string
          by (rewrite rev_cons, append_assoc; reflexivity).
        apply IA; [ reflexivity | ].
        cbn [allChars]. unfold notWhiteSpace at 1. rewrite W, A. reflexivity.
      * intros _. exists "", (String c s). auto.
Qed.

Lemma nameWords_spelled (name : string) :
  trim name = name -> nonEmpty name = true -> spelled name (nameWords name).
Proof.
  intros T N. destruct name as [ | c s]; [ discriminate N | ].
  destruct (trim_fixed_ends _ _ T) as [W E].
  unfold nameWords. cbn [words]. rewrite W.
  apply (proj1 (words_spelled s E) (String c "")); [ reflexivity | ].
  cbn [allChars]. unfold notWhiteSpace. rewrite W. reflexivity.
Qed.

Lemma spelled_words (s : string) (tokens : list string) :
  spelled s tokens -> tokens <> [] /\ forallb isWord tokens = true.
Proof.
  induction 1 as [ t W | t gap rest tokens W _ _ _ [_ IH] ].
  - split; [ discriminate | ]. cbn [forallb]. rewrite W. reflexivity.
  - split; [ discriminate | ]. cbn [forallb]. rewrite W, IH. reflexivity.
Qed.

(** The author of a name: its last word as family name, the words before it,
    if any, as given name. *)
Lemma nameToAuthor_words (name : string) :
  trim name = name -> nonEmpty name = true ->
  nameToAuthor name = authorOf (givenNames name, familyName name)
  /\ isWord (familyName name) = true
  /\ trim (givenNames name) = givenNames name.
Proof.
  intros T N.
  destruct (spelled_words _ _ (nameWords_spelled _ T N)) as [NN F].
  unfold nameToAuthor, RE_SPACES. rewrite split_words.
  unfold givenNames, familyName.
  change (words isWhiteSpace false name "") with (nameWords name).
  destruct (forallb_removelast_last _ NN F) as [G L].
  split; [ | split; [ exact L | apply trim_join_words, G ] ].
  destruct (nameWords name) as [ | t [ | t' rest]]; [ contradiction | reflexivity | ].
  rewrite (popped_last _ NN). unfold authorOf. cbn [fst snd].
  assert (GN : nonEmpty (join " " (removelast (t :: t' :: rest))) = true).
  { change (removelast (t :: t' :: rest)) with (t :: removelast (t' :: rest)) in *.
    cbn [forallb] in G. apply andb_true_iff in G as [X _].
    destruct (isWord_head _ X) as [c [x [-> _]]]. rewrite join_cons. reflexivity. }
  rewrite GN. reflexivity.
Qed.

(** X10. The authors are read off the creators string: its pieces between
    semicolons and line feeds, trimmed and the empty ones left out, are the
    names, and each name, which is its words with white space between them,
    becomes one author, with the last word as family name and the words
    before it, joined by single spaces, as given name (no given name for a
    name of one word); [mapCslAuthorsToCreators] then turns these authors
    into as many creators, name by name, of type [author], with the given
    name (or the empty string) as first name and the family name as last
    name. *)
Theorem extractAuthors_creators (manifest : value) (authors : list value) :
  extractAuthors manifest = Ok authors ->
  exists creatorsRaw,
    getFirstMetadataValue manifest
      ["Author"; "Authors"; "Creator"; "Creators"; "author"; "creator"]
    = Ok creatorsRaw
    /\ cutAt isNameSeparator creatorsRaw (splitOn isNameSeparator creatorsRaw)
    /\ Forall (fun name => spelled name (nameWords name)) (namesIn creatorsRaw)
    /\ authors
       = map (fun name =>
                if nonEmpty (givenNames name)
                then JObj [("given", JStr (givenNames name));
                           ("family", JStr (familyName name))]
                else JObj [("family", JStr (familyName name))])
             (namesIn creatorsRaw)
    /\ forall cslItem,
         get cslItem "author" = Ok (JArr authors) ->
         mapCslAuthorsToCreators cslItem
         = Ok (map (fun name =>
                      JObj [("creatorType", JStr "author");
                            ("firstName", JStr (givenNames name));
                            ("lastName", JStr (familyName name))])
                   (namesIn creatorsRaw)).
Proof.
  unfold extractAuthors. intros H. bind_inv H. rename a into creatorsRaw.
  exists creatorsRaw. split; [ reflexivity | ].
  split; [ apply cutAt_splitOn | ].
  pose proof (namesIn_trimmed creatorsRaw) as TN.
  split.
  { apply Forall_forall. rewrite Forall_forall in TN.
    intros name I. destruct (TN name I) as [T N]. apply nameWords_spelled; assumption. }
  assert (A : authors
              = map authorOf
                  (map (fun name => (givenNames name, familyName name))
                       (namesIn creatorsRaw))).
  { destruct (nonEmpty creatorsRaw) eqn:N; cbn [negb] in H; injection H as <-.
    - rewrite split_names. induction TN as [ | name names [T NE] _ IH]; [ reflexivity | ].
      cbn [map]. rewrite IH, (proj1 (nameToAuthor_words name T NE)). reflexivity.
    - apply nonEmpty_false in N. subst creatorsRaw. reflexivity. }
  split.
  { rewrite A, map_map. reflexivity. }
  intros cslItem G. unfold mapCslAuthorsToCreators. rewrite G. cbn [bind].
  rewrite A, author_loop_names.
  - cbn [app]. rewrite map_map. reflexivity.
  - clear A G. induction TN as [ | name names [T NE] _ IH]; constructor; [ | exact IH ].
    cbn [fst snd]. destruct (nameToAuthor_words name T NE) as [_ [W TG]]. auto.
Qed.

Lemma extractAuthors_creators_witness :
  extractAuthors namedCreators
  = Ok [ JObj [("given", JStr "Jane Mary"); ("family", JStr "Doe")];
         JObj [("family", JStr "Plato")] ]
  /\ exists creatorsRaw,
       getFirstMetadataValue namedCreators
         ["Author"; "Authors"; "Creator"; "Creators"; "author"; "creator"]
       = Ok creatorsRaw
       /\ cutAt isNameSeparator creatorsRaw (splitOn isNameSeparator creatorsRaw)
       /\ Forall (fun name => spelled name (nameWords name)) (namesIn creatorsRaw)
       /\ [ JObj [("given", JStr "Jane Mary"); ("family", JStr "Doe")];
            JObj [("family", JStr "Plato")] ]
          = map (fun name =>
                   if nonEmpty (givenNames name)
                   then JObj [("given", JStr (givenNames name));
                              ("family", JStr (familyName name))]
                   else JObj [("family", JStr (familyName name))])
                (namesIn creatorsRaw)
       /\ forall cslItem,
            get cslItem "author"
            = Ok (JArr [ JObj [("given", JStr "Jane Mary"); ("family", JStr "Doe")];
                         JObj [("family", JStr "Plato")] ]) ->
            mapCslAuthorsToCreators cslItem
            = Ok (map (fun name =>
                         JObj [("creatorType", JStr "author");
                               ("firstName", JStr (givenNames name));
                               ("lastName", JStr (familyName name))])
                      (namesIn creatorsRaw)).
Proof.
  split; [ reflexivity | ].
  apply (extractAuthors_creators namedCreators _ eq_refl).
Defined.
